(** * Team-based Glicko-2: rating engine and team balancer

    Shallow embedding of the C++ sources of the repository
    (TeamGlickoRating, TeamRatingAggregator, PerformanceWeighting,
    TeamGlicko2System, TeamBalancer) and the properties checked against
    them.  Constants are those of the TeamGlicko2Config.h that declares
    [kBeta], [kScaleMin], [kScaleMax] and the recent-performance parameters,
    the only one the sources above compile against
    ([kDefaultRating = 1400], [kLambda = 0.8]).

    Two number models are used, one per engine.

    - [Balancer] works on IEEE-754 binary64 values ([PrimFloat.float]).  The
      balancer only needs [+ - * / sqrt abs < ==], all of which are primitive,
      so the search can be run on concrete pools.  Every operation rounds
      once, to nearest (no fused multiply-add, no extended precision).

    - [Engine] works on the real numbers.  The match engine needs [exp] and
      [log], which have no binary64 counterpart here; a [double] is read as
      the real number it denotes and every operation as the exact one
      (no rounding, no overflow, no NaN).  The two [while] loops of
      [UpdateVolatility] carry an iteration budget ([fuel]); [None] means the
      budget ran out before the loop condition became false.

    [EngineBinary64] repeats two engine functions on binary64 for the
    arguments on which [std::exp] leaves the double range, and
    [NormalizationBinary64] repeats PerformanceNormalization on binary64,
    which needs no more than [+ - * / sqrt <].

    The remaining modules follow the real-number model of [Engine]:
    [RatingState] (Glicko-1 accessors, inactivity decay and recent
    performance of PlayerRating), [NormalizedWeighting] (the
    PerformanceWeighting that normalises its weights), [Normalization]
    (PerformanceNormalization) and [BatchProcessor] (line splitting and the
    performance score of examples/batch_processor.cpp). *)

From Stdlib Require Import Reals Lra Psatz Lia ZArith Bool List Permutation.
From Stdlib Require Floats Uint63.
From Stdlib Require String Ascii.
Import ListNotations.

Set Warnings "-inexact-float".

(* ================================================================== *)
(** * Team balancer (TeamBalancer.cpp, TeamBalancer.h) on binary64 *)
(* ================================================================== *)

Module Balancer.

Import Floats.
Local Open Scope float_scope.

(** ** Constants of TeamGlicko2Config.h used by the balancer *)

Definition kDefaultRating : float := 1400.
Definition kDefaultRD : float := 350.
Definition kDefaultVolatility : float := 0.06.
Definition kLambda : float := 0.8.
Definition kScale : float := 173.7178.
Definition kPerfToRating : float := 80.
Definition kRDScaleConstant : float := 80.

(** [std::numeric_limits<double>::max()] *)
Definition DBL_MAX : float := 0x1.fffffffffffffp1023.

(** [std::min(a, b)] is [(b < a) ? b : a]; [std::max(a, b)] is
    [(a < b) ? b : a]. *)
Definition fmin (a b : float) : float := if b <? a then b else a.
Definition fmax (a b : float) : float := if a <? b then b else a.

(** Conversion of a non-negative [int] (a container size) to [double]. *)
Definition double_of_nat (n : nat) : float :=
  PrimFloat.of_uint63 (Uint63.of_Z (Z.of_nat n)).

(** ** PlayerRating (TeamGlickoRating.h / .cpp) *)

Record PlayerRating : Set := mkPlayerRating {
  mu : float;
  phi : float;
  sigma : float;
  perfIndexEMA : float;
  perfGames : Z
}.

(** Constructor [PlayerRating(rating, ratingDeviation, volatility)]. *)
Definition PlayerRating_new (rating ratingDeviation volatility : float)
  : PlayerRating :=
  {| mu := (rating - kDefaultRating) / kScale;
     phi := ratingDeviation / kScale;
     sigma := volatility;
     perfIndexEMA := 0;
     perfGames := 0 |}.

Definition PlayerRating_default : PlayerRating :=
  PlayerRating_new kDefaultRating kDefaultRD kDefaultVolatility.

Definition GetRating (r : PlayerRating) : float :=
  mu r * kScale + kDefaultRating.

Definition GetRD (r : PlayerRating) : float := phi r * kScale.

Definition ComputeRecentRating (r : PlayerRating) (perfToRating : float)
  : float :=
  let boost := perfIndexEMA r * perfToRating in
  let rd := GetRD r in
  let maxBoost := fmin (2 * rd) 200 in
  let boost := fmax (- maxBoost) (fmin boost maxBoost) in
  GetRating r + boost.

Definition ComputeEffectiveRating_with
  (r : PlayerRating) (perfToRating rdScale : float) : float :=
  let r_g := GetRating r in
  let r_rec := ComputeRecentRating r perfToRating in
  let rd := GetRD r in
  let rdSquared := rd * rd in
  let cSquared := rdScale * rdScale in
  let w_RD := rdSquared / (rdSquared + cSquared) in
  let w := 0.5 * w_RD in
  let r_true := r_g + w * (r_rec - r_g) in
  r_true.

(** The call [ComputeEffectiveRating()] with its default arguments. *)
Definition ComputeEffectiveRating (r : PlayerRating) : float :=
  ComputeEffectiveRating_with r kPerfToRating kRDScaleConstant.

(** ** PlayerInfo, TeamAssignment, BalancerConfig (TeamBalancer.h) *)

Record PlayerInfo : Set := mkPlayerInfo {
  playerId : Z;
  rating : PlayerRating;
  effectiveRating : float
}.

(** [PlayerInfo()] *)
Definition PlayerInfo_default : PlayerInfo :=
  {| playerId := 0; rating := PlayerRating_default; effectiveRating := 0 |}.

(** [PlayerInfo(id, r)] *)
Definition PlayerInfo_new (id : Z) (r : PlayerRating) : PlayerInfo :=
  {| playerId := id; rating := r;
     effectiveRating := ComputeEffectiveRating r |}.

Record TeamAssignment : Set := mkTeamAssignment {
  team0PlayerIds : list Z;
  team1PlayerIds : list Z;
  objectiveValue : float;
  strengthDifference : float;
  uncertaintyDifference : float;
  team0Strength : float;
  team1Strength : float;
  team0Uncertainty : float;
  team1Uncertainty : float;
  pureRatingDifference : float
}.

(** [TeamAssignment()] *)
Definition TeamAssignment_default : TeamAssignment :=
  {| team0PlayerIds := []; team1PlayerIds := [];
     objectiveValue := DBL_MAX;
     strengthDifference := 0; uncertaintyDifference := 0;
     team0Strength := 0; team1Strength := 0;
     team0Uncertainty := 0; team1Uncertainty := 0;
     pureRatingDifference := 0 |}.

Definition set_objectiveValue (a : TeamAssignment) (v : float)
  : TeamAssignment :=
  {| team0PlayerIds := team0PlayerIds a;
     team1PlayerIds := team1PlayerIds a;
     objectiveValue := v;
     strengthDifference := strengthDifference a;
     uncertaintyDifference := uncertaintyDifference a;
     team0Strength := team0Strength a; team1Strength := team1Strength a;
     team0Uncertainty := team0Uncertainty a;
     team1Uncertainty := team1Uncertainty a;
     pureRatingDifference := pureRatingDifference a |}.

Record BalancerConfig : Set := mkBalancerConfig {
  lambda : float;
  separateTopPlayers : bool;
  putTopPlayerInSmallerTeam : bool;
  maxCombinationsToTry : Z
}.

(** [BalancerConfig()] *)
Definition BalancerConfig_default : BalancerConfig :=
  {| lambda := kLambda; separateTopPlayers := true;
     putTopPlayerInSmallerTeam := true; maxCombinationsToTry := 10000 |}.

(** ** Team metrics *)

(** [players[idx]]; an index outside the vector is undefined behaviour in
    the source and reads [PlayerInfo_default] here.  The search only produces
    indices below [players.size()]. *)
Definition player_at (players : list PlayerInfo) (idx : nat) : PlayerInfo :=
  nth idx players PlayerInfo_default.

Definition CalculateTeamStrength
  (players : list PlayerInfo) (playerIndices : list nat) : float :=
  fold_left (fun sum idx => sum + effectiveRating (player_at players idx))
            playerIndices 0.

Definition CalculateTeamUncertainty
  (players : list PlayerInfo) (playerIndices : list nat) : float :=
  let sumSquares :=
    fold_left (fun sumSquares idx =>
                 let rd := GetRD (rating (player_at players idx)) in
                 sumSquares + rd * rd)
              playerIndices 0 in
  PrimFloat.sqrt sumSquares.

Definition CalculatePureRatingSum
  (players : list PlayerInfo) (playerIndices : list nat) : float :=
  fold_left (fun sum idx => sum + GetRating (rating (player_at players idx)))
            playerIndices 0.

(** The return value of [EvaluateAssignment] together with its six output
    parameters. *)
Record Evaluation : Set := mkEvaluation {
  ev_objective : float;
  outStrength0 : float;
  outStrength1 : float;
  outUncertainty0 : float;
  outUncertainty1 : float;
  outPureRating0 : float;
  outPureRating1 : float
}.

Definition EvaluateAssignment
  (players : list PlayerInfo) (team0Indices team1Indices : list nat)
  (lambda : float) : Evaluation :=
  let totalStrength0 := CalculateTeamStrength players team0Indices in
  let totalStrength1 := CalculateTeamStrength players team1Indices in
  let totalUncertainty0 := CalculateTeamUncertainty players team0Indices in
  let totalUncertainty1 := CalculateTeamUncertainty players team1Indices in
  let pure0 := CalculatePureRatingSum players team0Indices in
  let pure1 := CalculatePureRatingSum players team1Indices in
  let size0 := length team0Indices in
  let size1 := length team1Indices in
  let avgStrength0 :=
    if (0 <? size0)%nat then totalStrength0 / double_of_nat size0 else 0 in
  let avgStrength1 :=
    if (0 <? size1)%nat then totalStrength1 / double_of_nat size1 else 0 in
  let avgUncertainty0 :=
    if (0 <? size0)%nat
    then totalUncertainty0 / PrimFloat.sqrt (double_of_nat size0) else 0 in
  let avgUncertainty1 :=
    if (0 <? size1)%nat
    then totalUncertainty1 / PrimFloat.sqrt (double_of_nat size1) else 0 in
  let strengthDiff := abs (avgStrength0 - avgStrength1) in
  let uncertaintyDiff := abs (avgUncertainty0 - avgUncertainty1) in
  {| ev_objective := strengthDiff + lambda * uncertaintyDiff;
     outStrength0 := totalStrength0; outStrength1 := totalStrength1;
     outUncertainty0 := totalUncertainty0;
     outUncertainty1 := totalUncertainty1;
     outPureRating0 := pure0; outPureRating1 := pure1 |}.

(** [hasTop1] / [hasTop2] of the source: membership of index 0 / index 1. *)
Definition has_index (k : nat) (indices : list nat) : bool :=
  existsb (Nat.eqb k) indices.

Definition ViolatesTopPlayerConstraint
  (sortedPlayers : list PlayerInfo) (teamIndices : list nat) : bool :=
  if (length sortedPlayers <? 2)%nat then false
  else has_index 0 teamIndices && has_index 1 teamIndices.

(** The indices [0 .. players.size()-1] that are not in [team0] (the
    [std::set] complement loop of the source). *)
Definition complement_indices (n : nat) (team0 : list nat) : list nat :=
  filter (fun i => negb (has_index i team0)) (seq 0 n).

Definition CreateAssignment
  (players : list PlayerInfo) (team0Indices : list nat) : TeamAssignment :=
  let team1Indices := complement_indices (length players) team0Indices in
  let defaultConfig := BalancerConfig_default in
  let ev := EvaluateAssignment players team0Indices team1Indices
                               (lambda defaultConfig) in
  let size0 := length team0Indices in
  let size1 := length team1Indices in
  let avgStrength0 :=
    if (0 <? size0)%nat then outStrength0 ev / double_of_nat size0 else 0 in
  let avgStrength1 :=
    if (0 <? size1)%nat then outStrength1 ev / double_of_nat size1 else 0 in
  let avgUncertainty0 :=
    if (0 <? size0)%nat
    then outUncertainty0 ev / PrimFloat.sqrt (double_of_nat size0) else 0 in
  let avgUncertainty1 :=
    if (0 <? size1)%nat
    then outUncertainty1 ev / PrimFloat.sqrt (double_of_nat size1) else 0 in
  let avgRating0 :=
    if (0 <? size0)%nat then outPureRating0 ev / double_of_nat size0 else 0 in
  let avgRating1 :=
    if (0 <? size1)%nat then outPureRating1 ev / double_of_nat size1 else 0 in
  {| team0PlayerIds :=
       map (fun idx => playerId (player_at players idx)) team0Indices;
     team1PlayerIds :=
       map (fun idx => playerId (player_at players idx)) team1Indices;
     objectiveValue := ev_objective ev;
     strengthDifference := abs (avgStrength0 - avgStrength1);
     uncertaintyDifference := abs (avgUncertainty0 - avgUncertainty1);
     team0Strength := outStrength0 ev;
     team1Strength := outStrength1 ev;
     team0Uncertainty := outUncertainty0 ev;
     team1Uncertainty := outUncertainty1 ev;
     pureRatingDifference := abs (avgRating0 - avgRating1) |}.

(** ** The search *)

(** The two reference parameters [bestAssignment] and [combinationsTried]
    that [GenerateCombinations] threads through the recursion. *)
Record SearchState : Set := mkSearchState {
  bestAssignment : TeamAssignment;
  combinationsTried : Z
}.

Definition limit_reached (config : BalancerConfig) (st : SearchState) : bool :=
  (maxCombinationsToTry config <=? combinationsTried st)%Z.

(** The "is better" decision of the base case, with its two tie-breakers. *)
Definition isBetter (ev : Evaluation) (best : TeamAssignment) : bool :=
  if ev_objective ev <? objectiveValue best then true
  else if ev_objective ev =? objectiveValue best then
    let pureRatingDiff := abs (outPureRating0 ev - outPureRating1 ev) in
    if pureRatingDiff <? pureRatingDifference best then true
    else if pureRatingDiff =? pureRatingDifference best then
      let uncertaintyDiff := abs (outUncertainty0 ev - outUncertainty1 ev) in
      uncertaintyDiff <? uncertaintyDifference best
    else false
  else false.

(** Base case of [GenerateCombinations]: team 0 is complete. *)
Definition consider_candidate
  (players : list PlayerInfo) (config : BalancerConfig)
  (currentTeam0 : list nat) (st : SearchState) : SearchState :=
  let tried := (combinationsTried st + 1)%Z in
  let skipped :=
    {| bestAssignment := bestAssignment st; combinationsTried := tried |} in
  if separateTopPlayers config
     && ViolatesTopPlayerConstraint players currentTeam0 then skipped
  else
    let team1Indices := complement_indices (length players) currentTeam0 in
    if separateTopPlayers config
       && ViolatesTopPlayerConstraint players team1Indices then skipped
    else
      let ev := EvaluateAssignment players currentTeam0 team1Indices
                                   (lambda config) in
      if isBetter ev (bestAssignment st) then
        {| bestAssignment := CreateAssignment players currentTeam0;
           combinationsTried := tried |}
      else skipped.

(** Early pruning test inside the loop of the recursive case. *)
Definition skip_player
  (config : BalancerConfig) (currentTeam0 : list nat) (i : nat) : bool :=
  separateTopPlayers config && (0 <? length currentTeam0)%nat
  && ((has_index 0 currentTeam0 && (i =? 1)%nat)
      || (has_index 1 currentTeam0 && (i =? 0)%nat)).

(** The [for] loop of the recursive case of [GenerateCombinations]:
    [count] more iterations starting at index [i].  [recurse i' team st] is
    the recursive call [GenerateCombinations(..., i', team, ...)]. *)
Fixpoint GenerateCombinations_loop
  (recurse : nat -> list nat -> SearchState -> option SearchState)
  (config : BalancerConfig) (currentTeam0 : list nat)
  (count i : nat) (st : SearchState) {struct count} : option SearchState :=
  match count with
  | O => Some st
  | S count' =>
    if skip_player config currentTeam0 i then
      GenerateCombinations_loop recurse config currentTeam0 count' (S i) st
    else
      match recurse (S i) (currentTeam0 ++ [i]) st with
      | None => None
      | Some st' =>
        if limit_reached config st' then Some st'
        else GenerateCombinations_loop recurse config currentTeam0
                                       count' (S i) st'
      end
  end.

(** [GenerateCombinations].  [fuel] bounds the recursion depth; [None] is
    returned only when it is used up. *)
Fixpoint GenerateCombinations
  (fuel : nat) (players : list PlayerInfo) (config : BalancerConfig)
  (teamSize startIndex : nat) (currentTeam0 : list nat) (st : SearchState)
  {struct fuel} : option SearchState :=
  match fuel with
  | O => None
  | S fuel' =>
    if limit_reached config st then Some st
    else if (length currentTeam0 =? teamSize)%nat then
      Some (consider_candidate players config currentTeam0 st)
    else
      let needed := (Z.of_nat teamSize - Z.of_nat (length currentTeam0))%Z in
      let remaining :=
        (Z.of_nat (length players) - Z.of_nat startIndex)%Z in
      if (remaining <? needed)%Z then Some st
      else
        GenerateCombinations_loop
          (GenerateCombinations fuel' players config teamSize)
          config currentTeam0
          (length players - startIndex)%nat startIndex st
  end.

(** [std::sort] with the comparator [ratingA > ratingB].  The standard
    leaves the order among players whose effective ratings compare equal to
    the implementation, so the vector handed to the search is one of many
    when ratings tie.  [sort_by_effective_rating] (an insertion sort, which
    keeps equal players in their input order) computes one admissible
    vector; [BalanceTeams_sorted] below is [BalanceTeams] for whatever
    vector the sort left, and the properties that depend on the order among
    equals are stated for it. *)
Definition rated_above (a b : PlayerInfo) : bool :=
  ComputeEffectiveRating (rating b) <? ComputeEffectiveRating (rating a).

Fixpoint insert_sorted (x : PlayerInfo) (l : list PlayerInfo)
  : list PlayerInfo :=
  match l with
  | [] => [x]
  | y :: l' => if rated_above y x then y :: insert_sorted x l'
               else x :: y :: l'
  end.

Fixpoint sort_by_effective_rating (l : list PlayerInfo) : list PlayerInfo :=
  match l with
  | [] => []
  | x :: l' => insert_sorted x (sort_by_effective_rating l')
  end.

Definition with_effective_rating (p : PlayerInfo) : PlayerInfo :=
  {| playerId := playerId p; rating := rating p;
     effectiveRating := ComputeEffectiveRating (rating p) |}.

(** The pool as [BalanceTeams] hands it to the search. *)
Definition sortedPlayers_of (players : list PlayerInfo) : list PlayerInfo :=
  sort_by_effective_rating (map with_effective_rating players).

Definition forced_top (players : list PlayerInfo) (config : BalancerConfig)
  : bool :=
  negb (length players mod 2 =? 0)%nat && putTopPlayerInSmallerTeam config.

(** Body of [BalanceTeams] for a pool of at least two players, from the
    end of [std::sort] up to the return of the search, for the vector
    [sortedPlayers] the sort left: the final [bestAssignment] and
    [combinationsTried] (the latter is only printed by the source). *)
Definition BalanceTeams_search_sorted
  (players sortedPlayers : list PlayerInfo) (config : BalancerConfig)
  : option SearchState :=
  let teamSize := (length players / 2)%nat in
  let bestAssignment0 := set_objectiveValue TeamAssignment_default DBL_MAX in
  let currentTeam0 := if forced_top players config then [0%nat] else [] in
  let startIndex := if forced_top players config then 1%nat else 0%nat in
  GenerateCombinations (S (length players)) sortedPlayers config teamSize
    startIndex currentTeam0
    {| bestAssignment := bestAssignment0; combinationsTried := 0 |}.

(** [BalanceTeams] for the vector [sortedPlayers] the sort left. *)
Definition BalanceTeams_sorted
  (players sortedPlayers : list PlayerInfo) (config : BalancerConfig)
  : option TeamAssignment :=
  if (length players <? 2)%nat then
    Some (set_objectiveValue TeamAssignment_default 0)
  else
    match BalanceTeams_search_sorted players sortedPlayers config with
    | Some st => Some (bestAssignment st)
    | None => None
    end.

(** The search and [BalanceTeams] with the insertion sort. *)
Definition BalanceTeams_search
  (players : list PlayerInfo) (config : BalancerConfig)
  : option SearchState :=
  BalanceTeams_search_sorted players (sortedPlayers_of players) config.

Definition BalanceTeams
  (players : list PlayerInfo) (config : BalancerConfig)
  : option TeamAssignment :=
  BalanceTeams_sorted players (sortedPlayers_of players) config.

(** ** Reference definitions for the search

    These do not come from the source; the theorems below relate the search
    to them. *)

(** The complete team-0 selections, in the order in which a search without
    a budget reaches its base case from [startIndex] and [currentTeam0] when
    [needed] more members are missing. *)
Fixpoint candidates
  (n : nat) (config : BalancerConfig) (needed startIndex : nat)
  (currentTeam0 : list nat) {struct needed} : list (list nat) :=
  match needed with
  | O => [currentTeam0]
  | S needed' =>
    if (Z.of_nat n - Z.of_nat startIndex <? Z.of_nat needed)%Z then []
    else
      flat_map
        (fun i =>
           if skip_player config currentTeam0 i then []
           else candidates n config needed' (S i) (currentTeam0 ++ [i]))
        (seq startIndex (n - startIndex))
  end.

(** All selections an unbounded [BalanceTeams] examines for a pool. *)
Definition all_candidates (players : list PlayerInfo) (config : BalancerConfig)
  : list (list nat) :=
  let forced := forced_top players config in
  let currentTeam0 := if forced then [0%nat] else [] in
  let startIndex := if forced then 1%nat else 0%nat in
  candidates (length players) config
             (length players / 2 - length currentTeam0)
             startIndex currentTeam0.

(** State in which [BalanceTeams] starts the search. *)
Definition initial_state : SearchState :=
  {| bestAssignment := set_objectiveValue TeamAssignment_default DBL_MAX;
     combinationsTried := 0 |}.

(** One candidate, examined only while the budget lasts. *)
Definition consider_within_budget
  (players : list PlayerInfo) (config : BalancerConfig)
  (st : SearchState) (team0 : list nat) : SearchState :=
  if limit_reached config st then st
  else consider_candidate players config team0 st.

(** The combinations cap is hit before every candidate has been examined. *)
Definition budget_exhausted
  (players : list PlayerInfo) (config : BalancerConfig) : bool :=
  (maxCombinationsToTry config
     <? Z.of_nat (length (all_candidates players config)))%Z.

(** A selection passes both top-player checks of the base case. *)
Definition honors_separation
  (players : list PlayerInfo) (config : BalancerConfig) (team0 : list nat)
  : bool :=
  negb (separateTopPlayers config
        && ViolatesTopPlayerConstraint players team0)
  && negb (separateTopPlayers config
           && ViolatesTopPlayerConstraint players
                (complement_indices (length players) team0)).

(** A strictly increasing list of indices, none below [start]. *)
Fixpoint increasing_from (start : nat) (l : list nat) : Prop :=
  match l with
  | [] => True
  | x :: l' => (start <= x)%nat /\ increasing_from (S x) l'
  end.

(** [team0] is the team-0 side of a two-way split of the pool with the
    sizes [BalanceTeams] uses: [players.size() / 2] distinct indices of the
    sorted pool, listed in increasing order, and holding index 0 when the
    top player is to go to the smaller team. *)
Definition team0_selection
  (players : list PlayerInfo) (config : BalancerConfig) (team0 : list nat)
  : Prop :=
  length team0 = (length players / 2)%nat
  /\ increasing_from 0 team0
  /\ (forall x, In x team0 -> (x < length players)%nat)
  /\ (forced_top players config = true -> In 0%nat team0).

(** The objective J of a partition given by its team-0 indices, for a
    weight [lambda]. *)
Definition objective_J
  (players : list PlayerInfo) (lambda : float) (team0 : list nat) : float :=
  ev_objective
    (EvaluateAssignment players team0
       (complement_indices (length players) team0) lambda).

(** ** Concrete pools *)

Definition player (id : Z) (rating rd : float) : PlayerInfo :=
  PlayerInfo_new id (PlayerRating_new rating rd kDefaultVolatility).

(** Two players rated 2200 (RD 100) and 2150 (RD 110) above six players
    between 1450 and 1550 with RD 150. *)
Definition pool8 : list PlayerInfo :=
  [ player 1 2200 100; player 2 2150 110;
    player 3 1450 150; player 4 1470 150; player 5 1490 150;
    player 6 1510 150; player 7 1530 150; player 8 1550 150 ].

(** Four players; the strongest and the weakest have a wide deviation. *)
Definition pool4 : list PlayerInfo :=
  [ player 1 1600 300; player 2 1590 50;
    player 3 1510 50; player 4 1500 300 ].

(** A pool of one. *)
Definition pool1 : list PlayerInfo := [ player 1 1500 100 ].

Definition config_with (lam : float) (cap : Z) : BalancerConfig :=
  {| lambda := lam; separateTopPlayers := true;
     putTopPlayerInSmallerTeam := true; maxCombinationsToTry := cap |}.

End Balancer.

(* ================================================================== *)
(** * Rating engine (TeamGlickoRating, TeamRatingAggregator,
      PerformanceWeighting, TeamGlicko2System) on the reals *)
(* ================================================================== *)

Module Engine.

Local Open Scope R_scope.

(** ** Constants of TeamGlicko2Config.h used by the engine *)

Definition kDefaultRating : R := 1400.
Definition kDefaultRD : R := 350.
Definition kDefaultVolatility : R := 6 / 100.
Definition kScale : R := 1737178 / 10000.
Definition kTau : R := 1 / 2.
Definition kConvergence : R := 1 / 1000000.
Definition kBeta : R := 2 / 10.
Definition kScaleMin : R := 1 / 2.
Definition kScaleMax : R := 3 / 2.
Definition kEpsilon : R := 1 / 1000000.
Definition kEnableRatingClamp : bool := true.
Definition kMaxRatingChange : R := 173 / 100.

(** The macro [M_PI]. *)
Definition M_PI : R := PI.

(** ** PlayerRating *)

Record PlayerRating : Type := mkPlayerRating {
  mu : R;
  phi : R;
  sigma : R;
  perfIndexEMA : R;
  perfGames : Z
}.

Definition PlayerRating_new (rating ratingDeviation volatility : R)
  : PlayerRating :=
  {| mu := (rating - kDefaultRating) / kScale;
     phi := ratingDeviation / kScale;
     sigma := volatility;
     perfIndexEMA := 0;
     perfGames := 0 |}.

Definition PlayerRating_default : PlayerRating :=
  PlayerRating_new kDefaultRating kDefaultRD kDefaultVolatility.

Definition GetMu (r : PlayerRating) : R := mu r.
Definition GetPhi (r : PlayerRating) : R := phi r.
Definition GetSigma (r : PlayerRating) : R := sigma r.

Definition SetMu (r : PlayerRating) (muValue : R) : PlayerRating :=
  {| mu := muValue; phi := phi r; sigma := sigma r;
     perfIndexEMA := perfIndexEMA r; perfGames := perfGames r |}.

Definition SetPhi (r : PlayerRating) (phiValue : R) : PlayerRating :=
  {| mu := mu r; phi := phiValue; sigma := sigma r;
     perfIndexEMA := perfIndexEMA r; perfGames := perfGames r |}.

Definition SetSigma (r : PlayerRating) (sigmaValue : R) : PlayerRating :=
  {| mu := mu r; phi := phi r; sigma := sigmaValue;
     perfIndexEMA := perfIndexEMA r; perfGames := perfGames r |}.

Definition ComputeG (r : PlayerRating) : R :=
  let phiSquared := phi r * phi r in
  1 / sqrt (1 + 3 * phiSquared / (M_PI * M_PI)).

(** The local variable [exponent] of [ComputeExpectedScore]: the value
    handed to [std::exp]. *)
Definition ComputeExpectedScore_exponent
  (r : PlayerRating) (muOpp gOpp : R) : R :=
  - gOpp * (mu r - muOpp).

Definition ComputeExpectedScore (r : PlayerRating) (muOpp gOpp : R) : R :=
  let exponent := ComputeExpectedScore_exponent r muOpp gOpp in
  1 / (1 + exp exponent).

(** ** TeamRatingAggregator *)

Record TeamRatingStats : Type := mkTeamRatingStats {
  stats_mu : R;
  stats_phi : R;
  teamSize : nat
}.

(** [TeamRatingStats()] *)
Definition TeamRatingStats_default : TeamRatingStats :=
  {| stats_mu := 0; stats_phi := 0; teamSize := 0 |}.

Definition ComputeTeamMu (team : list PlayerRating) : R :=
  match team with
  | [] => 0
  | _ =>
    let sum := fold_left (fun sum player => sum + GetMu player) team 0 in
    sum / INR (length team)
  end.

Definition ComputeTeamPhi (team : list PlayerRating) : R :=
  match team with
  | [] => 0
  | _ =>
    let sumSquares :=
      fold_left (fun sumSquares player =>
                   let phi := GetPhi player in sumSquares + phi * phi)
                team 0 in
    let teamSize := INR (length team) in
    sqrt (sumSquares / (teamSize * teamSize))
  end.

Definition ComputeTeamStats (team : list PlayerRating) : TeamRatingStats :=
  if (length team =? 0)%nat then
    {| stats_mu := 0; stats_phi := 0; teamSize := length team |}
  else
    {| stats_mu := ComputeTeamMu team;
       stats_phi := ComputeTeamPhi team;
       teamSize := length team |}.

(** ** PerformanceWeighting *)

Record PlayerWeight : Type := mkPlayerWeight {
  playerIndex : Z;
  weight_performanceScore : R;
  zScore : R
}.

(** [PlayerWeight()] *)
Definition PlayerWeight_default : PlayerWeight :=
  {| playerIndex := 0; weight_performanceScore := 0; zScore := 0 |}.

Definition ComputeMean (scores : list R) : R :=
  match scores with
  | [] => 0
  | _ =>
    let sum := fold_left (fun sum score => sum + score) scores 0 in
    sum / INR (length scores)
  end.

Definition ComputeStdDev (scores : list R) (mean : R) : R :=
  match scores with
  | [] => kEpsilon
  | _ =>
    let sumSquares :=
      fold_left (fun sumSquares score =>
                   let diff := score - mean in sumSquares + diff * diff)
                scores 0 in
    let variance := sumSquares / INR (length scores) in
    sqrt variance + kEpsilon
  end.

Definition ComputeZScore (score mean stddev : R) : R :=
  (score - mean) / stddev.

Definition ComputeZScores (performanceScores : list R) : list PlayerWeight :=
  match performanceScores with
  | [] => []
  | _ =>
    let mean := ComputeMean performanceScores in
    let stddev := ComputeStdDev performanceScores mean in
    map (fun ip : nat * R =>
           {| playerIndex := Z.of_nat (fst ip);
              weight_performanceScore := snd ip;
              zScore := ComputeZScore (snd ip) mean stddev |})
        (combine (seq 0 (length performanceScores)) performanceScores)
  end.

(** [(deltaMu >= 0.0) ? 1.0 : -1.0] *)
Definition signDeltaMu (deltaMu : R) : R :=
  if Rge_dec deltaMu 0 then 1 else -1.

Definition ComputeScalingFactor (zScore deltaMu beta fMin fMax : R) : R :=
  let f := 1 + beta * signDeltaMu deltaMu * zScore in
  Rmin fMax (Rmax fMin f).

(** ** TeamGlicko2System *)

Definition ComputeVariance (g expectedScore : R) : R :=
  let denominator := g * g * expectedScore * (1 - expectedScore) in
  1 / denominator.

Definition ComputeDelta (v g score expectedScore : R) : R :=
  v * g * (score - expectedScore).

Definition VolatilityFunction (x deltaSquared phiSquared v a tauSquared : R)
  : R :=
  let eX := exp x in
  let numerator := eX * (deltaSquared - phiSquared - v - eX) in
  let denominator := 2 * (phiSquared + v + eX) * (phiSquared + v + eX) in
  (numerator / denominator) - ((x - a) / tauSquared).

(** First loop of [UpdateVolatility]:
    [while (f(B) < 0) B -= kTau;] *)
Fixpoint UpdateVolatility_findB
  (fuel : nat) (B deltaSquared phiSquared v a tauSquared : R) : option R :=
  if Rlt_dec (VolatilityFunction B deltaSquared phiSquared v a tauSquared) 0
  then
    match fuel with
    | O => None
    | S fuel' =>
      UpdateVolatility_findB fuel' (B - kTau) deltaSquared phiSquared v a
                             tauSquared
    end
  else Some B.

(** Second loop of [UpdateVolatility]:
    [while (abs(B - A) > kConvergence) { ... }]; yields the final [A]. *)
Fixpoint UpdateVolatility_illinois
  (fuel : nat) (A B fA fB deltaSquared phiSquared v a tauSquared : R)
  : option R :=
  if Rgt_dec (Rabs (B - A)) kConvergence then
    match fuel with
    | O => None
    | S fuel' =>
      let C := A + (A - B) * fA / (fB - fA) in
      let fC := VolatilityFunction C deltaSquared phiSquared v a tauSquared in
      if Rlt_dec (fC * fB) 0 then
        UpdateVolatility_illinois fuel' B C fB fC
                                  deltaSquared phiSquared v a tauSquared
      else
        UpdateVolatility_illinois fuel' A C (fA / 2) fC
                                  deltaSquared phiSquared v a tauSquared
    end
  else Some A.

Definition UpdateVolatility (fuel : nat) (sigma phi delta v : R) : option R :=
  let deltaSquared := delta * delta in
  let phiSquared := phi * phi in
  let tauSquared := kTau * kTau in
  let a := ln (sigma * sigma) in
  let A := a in
  let B0 :=
    if Rgt_dec deltaSquared (phiSquared + v) then
      Some (ln (deltaSquared - phiSquared - v))
    else
      UpdateVolatility_findB fuel (a - kTau) deltaSquared phiSquared v a
                             tauSquared in
  match B0 with
  | None => None
  | Some B =>
    let fA := VolatilityFunction A deltaSquared phiSquared v a tauSquared in
    let fB := VolatilityFunction B deltaSquared phiSquared v a tauSquared in
    match UpdateVolatility_illinois fuel A B fA fB
            deltaSquared phiSquared v a tauSquared with
    | None => None
    | Some A' => Some (exp (A' / 2))
    end
  end.

Definition UpdateRatingDeviation (phi sigmaPrime v : R) : R :=
  let phiStar := sqrt (phi * phi + sigmaPrime * sigmaPrime) in
  let phiStarSquared := phiStar * phiStar in
  let phiPrime := 1 / sqrt (1 / phiStarSquared + 1 / v) in
  phiPrime.

Definition UpdateRatingMean (mu phiPrime g score expectedScore : R) : R :=
  mu + phiPrime * phiPrime * g * (score - expectedScore).

Definition ClampRatingChange (mu muPrime : R) : R :=
  let deltaMu := muPrime - mu in
  if Rgt_dec (Rabs deltaMu) kMaxRatingChange then
    if Rgt_dec deltaMu 0 then mu + kMaxRatingChange
    else mu - kMaxRatingChange
  else muPrime.

(** [g] as computed at the head of [UpdatePlayerRating]. *)
Definition opponent_g (opponentPhi : R) : R :=
  let phiOppSquared := opponentPhi * opponentPhi in
  1 / sqrt (1 + 3 * phiOppSquared / (M_PI * M_PI)).

(** The part of [UpdatePlayerRating] that follows the volatility update. *)
Definition UpdatePlayerRating_finish
  (player : PlayerRating) (g expectedScore v score zScore sigmaPrime : R)
  : PlayerRating :=
  let mu := GetMu player in
  let phi := GetPhi player in
  let phiPrime := UpdateRatingDeviation phi sigmaPrime v in
  let muStar := UpdateRatingMean mu phiPrime g score expectedScore in
  let deltaMu := muStar - mu in
  let scalingFactor :=
    ComputeScalingFactor zScore deltaMu kBeta kScaleMin kScaleMax in
  let muPrime := mu + scalingFactor * deltaMu in
  let muPrime :=
    if kEnableRatingClamp then ClampRatingChange mu muPrime else muPrime in
  SetSigma (SetPhi (SetMu PlayerRating_default muPrime) phiPrime) sigmaPrime.

Definition UpdatePlayerRating
  (fuel : nat) (player : PlayerRating)
  (opponentMu opponentPhi score zScore : R) : option PlayerRating :=
  let mu := GetMu player in
  let phi := GetPhi player in
  let sigma := GetSigma player in
  let g := opponent_g opponentPhi in
  let expectedScore := ComputeExpectedScore player opponentMu g in
  let v := ComputeVariance g expectedScore in
  let delta := ComputeDelta v g score expectedScore in
  match UpdateVolatility fuel sigma phi delta v with
  | None => None
  | Some sigmaPrime =>
    Some (UpdatePlayerRating_finish player g expectedScore v score zScore
                                    sigmaPrime)
  end.

(** ** Match processing *)

Record MatchPlayer : Type := mkMatchPlayer {
  rating : PlayerRating;
  performanceScore : R
}.

(** [MatchPlayer()] *)
Definition MatchPlayer_default : MatchPlayer :=
  {| rating := PlayerRating_default; performanceScore := 0 |}.

Record MatchResult : Type := mkMatchResult {
  teamA : list MatchPlayer;
  teamB : list MatchPlayer;
  scoreA : R;
  scoreB : R
}.

(** [v[i] = x] on a vector; [i] is below the size wherever it is used. *)
Fixpoint vector_set {T : Type} (i : nat) (x : T) (l : list T) : list T :=
  match l, i with
  | [], _ => []
  | _ :: t, O => x :: t
  | h :: t, S j => h :: vector_set j x t
  end.

(** [match.teamA[i].rating = r] and [match.teamB[i].rating = r]. *)
Definition assign_ratingA (m : MatchResult) (i : nat) (r : PlayerRating)
  : MatchResult :=
  let old := nth i (teamA m) MatchPlayer_default in
  {| teamA := vector_set i {| rating := r;
                              performanceScore := performanceScore old |}
                         (teamA m);
     teamB := teamB m; scoreA := scoreA m; scoreB := scoreB m |}.

Definition assign_ratingB (m : MatchResult) (i : nat) (r : PlayerRating)
  : MatchResult :=
  let old := nth i (teamB m) MatchPlayer_default in
  {| teamA := teamA m;
     teamB := vector_set i {| rating := r;
                              performanceScore := performanceScore old |}
                         (teamB m);
     scoreA := scoreA m; scoreB := scoreB m |}.

(** Step 4: the loop over [match.teamA], [count] iterations from index [i],
    reading and writing the match object [m]. *)
Fixpoint ProcessMatch_updateA
  (fuel count i : nat) (statsB : TeamRatingStats)
  (weightsA : list PlayerWeight) (m : MatchResult) : option MatchResult :=
  match count with
  | O => Some m
  | S count' =>
    match UpdatePlayerRating fuel
            (rating (nth i (teamA m) MatchPlayer_default))
            (stats_mu statsB) (stats_phi statsB) (scoreA m)
            (zScore (nth i weightsA PlayerWeight_default)) with
    | None => None
    | Some r =>
      ProcessMatch_updateA fuel count' (S i) statsB weightsA
                           (assign_ratingA m i r)
    end
  end.

(** Step 5: the loop over [match.teamB]. *)
Fixpoint ProcessMatch_updateB
  (fuel count i : nat) (statsA : TeamRatingStats)
  (weightsB : list PlayerWeight) (m : MatchResult) : option MatchResult :=
  match count with
  | O => Some m
  | S count' =>
    match UpdatePlayerRating fuel
            (rating (nth i (teamB m) MatchPlayer_default))
            (stats_mu statsA) (stats_phi statsA) (scoreB m)
            (zScore (nth i weightsB PlayerWeight_default)) with
    | None => None
    | Some r =>
      ProcessMatch_updateB fuel count' (S i) statsA weightsB
                           (assign_ratingB m i r)
    end
  end.

Definition ProcessMatch (fuel : nat) (m : MatchResult) : option MatchResult :=
  let teamARatings := map rating (teamA m) in
  let teamBRatings := map rating (teamB m) in
  let teamAPerformance := map performanceScore (teamA m) in
  let teamBPerformance := map performanceScore (teamB m) in
  let statsA := ComputeTeamStats teamARatings in
  let statsB := ComputeTeamStats teamBRatings in
  let weightsA := ComputeZScores teamAPerformance in
  let weightsB := ComputeZScores teamBPerformance in
  match ProcessMatch_updateA fuel (length (teamA m)) 0 statsB weightsA m with
  | None => None
  | Some m1 =>
    ProcessMatch_updateB fuel (length (teamB m1)) 0 statsA weightsB m1
  end.

(** ** Reference definitions for the engine

    These do not come from the source; the theorems below relate the engine
    to them. *)

(** [clamp(x, lo, hi)]: [x] limited to the interval from [lo] to [hi]. *)
Definition clamp (x lo hi : R) : R :=
  if Rlt_dec x lo then lo else if Rlt_dec hi x then hi else x.

(** Sign of a pending rating change: [-1] for a loss, [+1] for a gain.  A
    change of exactly 0 counts as a gain, which is the reading the source
    takes. *)
Definition sign (pendingChange : R) : R :=
  if Rlt_dec pendingChange 0 then -1 else 1.

(** [mapM] for [option]. *)
Fixpoint all_some {T : Type} (l : list (option T)) : option (list T) :=
  match l with
  | [] => Some []
  | None :: _ => None
  | Some x :: l' =>
    match all_some l' with
    | None => None
    | Some xs => Some (x :: xs)
    end
  end.

(** The update of the players [rest], which sit at indices [first],
    [first+1], ... of their team, against fixed opponent statistics and
    fixed z-scores: the player at index [i] meets
    [(stats_mu opp, stats_phi opp)] with z-score
    [zScore (nth i weights _)]. *)
Definition updated_from
  (fuel first : nat) (rest : list MatchPlayer) (opp : TeamRatingStats)
  (score : R) (weights : list PlayerWeight) : option (list MatchPlayer) :=
  all_some
    (map (fun ip : nat * MatchPlayer =>
            match UpdatePlayerRating fuel (rating (snd ip))
                    (stats_mu opp) (stats_phi opp) score
                    (zScore (nth (fst ip) weights PlayerWeight_default)) with
            | None => None
            | Some r =>
              Some {| rating := r;
                      performanceScore := performanceScore (snd ip) |}
            end)
         (combine (seq first (length rest)) rest)).

(** A whole team updated against fixed opponent statistics. *)
Definition updated_team
  (fuel : nat) (team : list MatchPlayer) (opp : TeamRatingStats)
  (score : R) (weights : list PlayerWeight) : option (list MatchPlayer) :=
  updated_from fuel 0 team opp score weights.

(** Match processing from the pre-match snapshot alone: both aggregates and
    both z-score lists are taken from [m] as it was handed in, and each team
    is updated against the other team's aggregate. *)
Definition ProcessMatch_snapshot (fuel : nat) (m : MatchResult)
  : option MatchResult :=
  let statsA := ComputeTeamStats (map rating (teamA m)) in
  let statsB := ComputeTeamStats (map rating (teamB m)) in
  let weightsA := ComputeZScores (map performanceScore (teamA m)) in
  let weightsB := ComputeZScores (map performanceScore (teamB m)) in
  match updated_team fuel (teamA m) statsB (scoreA m) weightsA,
        updated_team fuel (teamB m) statsA (scoreB m) weightsB with
  | Some a', Some b' =>
    Some {| teamA := a'; teamB := b'; scoreA := scoreA m; scoreB := scoreB m |}
  | _, _ => None
  end.

(** [ProcessMatch] with steps 4 and 5 exchanged: team B is written first. *)
Definition ProcessMatch_B_first (fuel : nat) (m : MatchResult)
  : option MatchResult :=
  let teamARatings := map rating (teamA m) in
  let teamBRatings := map rating (teamB m) in
  let teamAPerformance := map performanceScore (teamA m) in
  let teamBPerformance := map performanceScore (teamB m) in
  let statsA := ComputeTeamStats teamARatings in
  let statsB := ComputeTeamStats teamBRatings in
  let weightsA := ComputeZScores teamAPerformance in
  let weightsB := ComputeZScores teamBPerformance in
  match ProcessMatch_updateB fuel (length (teamB m)) 0 statsA weightsB m with
  | None => None
  | Some m1 =>
    ProcessMatch_updateA fuel (length (teamA m1)) 0 statsB weightsA m1
  end.

(** ** Concrete players *)

(** A player a few points below the opponent (expected score 0.49) with
    volatility 0.1 and a rating deviation of about 68. *)
Definition close_winner : PlayerRating :=
  {| mu := - ln ((1 - 49 / 100) / (49 / 100));
     phi := sqrt (1877549 / 12245100);
     sigma := 1 / 10;
     perfIndexEMA := 0; perfGames := 0 |}.

(** An opponent for [close_winner]: rated at [mu = 0] with no deviation, and
    with the volatility that puts both brackets of the volatility update at
    the same point when this player loses to [close_winner]. *)
Definition close_loser : PlayerRating :=
  let g := opponent_g (phi close_winner) in
  let E := 1 / (1 + exp (- g * (0 - mu close_winner))) in
  let v := ComputeVariance g E in
  let delta := ComputeDelta v g 0 E in
  {| mu := 0; phi := 0; sigma := sqrt (delta * delta - v);
     perfIndexEMA := 0; perfGames := 0 |}.

(** [close_winner] beats [close_loser], one against one. *)
Definition close_match : MatchResult :=
  {| teamA := [ {| rating := close_winner; performanceScore := 3 |} ];
     teamB := [ {| rating := close_loser; performanceScore := 1 |} ];
     scoreA := 1;
     scoreB := 0 |}.

(** A match of [close_winner] (score 1) against an empty team B. *)
Definition match_against_nobody : MatchResult :=
  {| teamA := [ {| rating := close_winner; performanceScore := 0 |} ];
     teamB := [];
     scoreA := 1;
     scoreB := 0 |}.


End Engine.

(* ================================================================== *)
(** * Expected score and variance on binary64, outside the range of exp *)
(* ================================================================== *)

Module EngineBinary64.

Import Floats.
Local Open Scope float_scope.

(** [std::exp] on binary64, for arguments whose result leaves the double
    range and nowhere else: below -746 the value [e^x] is less than half the
    smallest subnormal and rounds to [+0]; above 710 it exceeds [DBL_MAX]
    and the result is [+infinity]. *)
Definition exp_out_of_range (x : float) : option float :=
  if x <? -746 then Some 0
  else if 710 <? x then Some infinity
  else None.

(** [PlayerRating::ComputeExpectedScore] on binary64, where the model of
    [std::exp] has a value. *)
Definition ComputeExpectedScore (mu muOpp gOpp : float) : option float :=
  let exponent := - gOpp * (mu - muOpp) in
  match exp_out_of_range exponent with
  | Some e => Some (1 / (1 + e))
  | None => None
  end.

(** [TeamGlicko2System::ComputeVariance] on binary64. *)
Definition ComputeVariance (g expectedScore : float) : float :=
  let denominator := g * g * expectedScore * (1 - expectedScore) in
  1 / denominator.

End EngineBinary64.

(* ================================================================== *)
(** * PlayerRating: scale conversion, inactivity decay and recent
      performance (TeamGlickoRating.h / .cpp) on the reals *)
(* ================================================================== *)

Module RatingState.

Import Engine.
Local Open Scope R_scope.

(** ** Further constants of TeamGlicko2Config.h *)

Definition kMinRD : R := 30.
Definition kMaxRD : R := kDefaultRD.
Definition kDaysPerRatingPeriod : R := 7.
Definition kMinRoundsForActivity : Z := 3.
Definition kPerfTargetWindow : R := 10.
Definition kPerfToRating : R := 80.
Definition kRDScaleConstant : R := 80.
Definition kMaxPerfZScore : R := 3.

(** ** Glicko-1 scale accessors *)

Definition GetRating (r : PlayerRating) : R := mu r * kScale + kDefaultRating.
Definition GetRD (r : PlayerRating) : R := phi r * kScale.
Definition GetVolatility (r : PlayerRating) : R := sigma r.

Definition SetRating (r : PlayerRating) (rating : R) : PlayerRating :=
  {| mu := (rating - kDefaultRating) / kScale; phi := phi r; sigma := sigma r;
     perfIndexEMA := perfIndexEMA r; perfGames := perfGames r |}.

Definition SetRD (r : PlayerRating) (rd : R) : PlayerRating :=
  {| mu := mu r; phi := rd / kScale; sigma := sigma r;
     perfIndexEMA := perfIndexEMA r; perfGames := perfGames r |}.

Definition SetVolatility (r : PlayerRating) (vol : R) : PlayerRating :=
  {| mu := mu r; phi := phi r; sigma := vol;
     perfIndexEMA := perfIndexEMA r; perfGames := perfGames r |}.

Definition GetPerfIndexEMA (r : PlayerRating) : R := perfIndexEMA r.
Definition GetPerfGames (r : PlayerRating) : Z := perfGames r.

Definition SetPerfIndexEMA (r : PlayerRating) (value : R) : PlayerRating :=
  {| mu := mu r; phi := phi r; sigma := sigma r;
     perfIndexEMA := value; perfGames := perfGames r |}.

Definition SetPerfGames (r : PlayerRating) (count : Z) : PlayerRating :=
  {| mu := mu r; phi := phi r; sigma := sigma r;
     perfIndexEMA := perfIndexEMA r; perfGames := count |}.

(** [static_cast<int>(x)]: the fractional part is discarded (rounding
    towards zero).  The conversion is undefined in the source when the
    result does not fit an [int]; no such bound is modelled. *)
Definition static_cast_int (x : R) : Z :=
  if Rle_dec 0 x then Int_part x else (- Int_part (- x))%Z.

(** ** Inactivity decay *)

(** The [for] loop of [DecayForInactivity], [count] iterations left, on the
    member [phi]; the [break] leaves the loop with [phi = maxPhi]. *)
Fixpoint DecayForInactivity_loop (count : nat) (phi sigma : R) : R :=
  match count with
  | O => phi
  | S count' =>
    let phiSquared := phi * phi in
    let sigmaSquared := sigma * sigma in
    let phi := sqrt (phiSquared + sigmaSquared) in
    let maxPhi := kMaxRD / kScale in
    if Rgt_dec phi maxPhi then maxPhi
    else DecayForInactivity_loop count' phi sigma
  end.

Definition DecayForInactivity
  (r : PlayerRating) (roundsInPastDays : Z) (deltaDays : R)
  (minRoundsForActivity : Z) (daysPerPeriod : R) : PlayerRating :=
  if (minRoundsForActivity <=? roundsInPastDays)%Z then r
  else
    let inactivePeriods := deltaDays / daysPerPeriod in
    if Rlt_dec inactivePeriods 1 then r
    else
      SetPhi r
        (DecayForInactivity_loop
           (Z.to_nat (static_cast_int inactivePeriods)) (phi r) (sigma r)).

(** ** Recent performance *)

(** [perfGames++] is on an [int]; its overflow is not modelled. *)
Definition UpdateRecentPerformance
  (r : PlayerRating) (matchPerfIndex targetWindow : R) : PlayerRating :=
  let matchPerfIndex :=
    Rmax (- kMaxPerfZScore) (Rmin matchPerfIndex kMaxPerfZScore) in
  let alpha :=
    if (perfGames r <=? 0)%Z then 1
    else if (perfGames r <? static_cast_int targetWindow)%Z
         then 1 / (IZR (perfGames r) + 1)
         else 2 / (targetWindow + 1) in
  {| mu := mu r; phi := phi r; sigma := sigma r;
     perfIndexEMA := (1 - alpha) * perfIndexEMA r + alpha * matchPerfIndex;
     perfGames := (perfGames r + 1)%Z |}.

Definition ComputeRecentRating (r : PlayerRating) (perfToRating : R) : R :=
  let boost := perfIndexEMA r * perfToRating in
  let rd := GetRD r in
  let maxBoost := Rmin (2 * rd) 200 in
  let boost := Rmax (- maxBoost) (Rmin boost maxBoost) in
  GetRating r + boost.

Definition ComputeEffectiveRating
  (r : PlayerRating) (perfToRating rdScale : R) : R :=
  let r_g := GetRating r in
  let r_rec := ComputeRecentRating r perfToRating in
  let rd := GetRD r in
  let rdSquared := rd * rd in
  let cSquared := rdScale * rdScale in
  let w_RD := rdSquared / (rdSquared + cSquared) in
  let w := (1 / 2) * w_RD in
  let r_true := r_g + w * (r_rec - r_g) in
  r_true.

(** ** Reference definitions

    These do not come from the source; the theorems relate the code to
    them. *)

(** A z-score limited to the interval from [-kMaxPerfZScore] to
    [kMaxPerfZScore]. *)
Definition clipped (z : R) : R :=
  if Rlt_dec z (- kMaxPerfZScore) then - kMaxPerfZScore
  else if Rlt_dec kMaxPerfZScore z then kMaxPerfZScore else z.

(** Sum of a list of reals. *)
Definition total (l : list R) : R := fold_right Rplus 0 l.

(** The rating after the matches of [l], oldest first, have each been
    reported through [UpdateRecentPerformance]. *)
Definition after_matches
  (r : PlayerRating) (l : list R) (targetWindow : R) : PlayerRating :=
  fold_left (fun r z => UpdateRecentPerformance r z targetWindow) l r.

End RatingState.

(** ** Reference definitions for match processing *)

Module MatchReference.

Import Engine.
Local Open Scope R_scope.

(** The same match with the two sides exchanged. *)
Definition swap_sides (m : MatchResult) : MatchResult :=
  {| teamA := teamB m; teamB := teamA m;
     scoreA := scoreB m; scoreB := scoreA m |}.

End MatchReference.

(* ================================================================== *)
(** * Performance weights with normalisation (the PerformanceWeighting
      with [ComputeWeights]) on the reals *)
(* ================================================================== *)

Module NormalizedWeighting.

Import Engine.
Local Open Scope R_scope.

(** Constants of the TeamGlicko2Config.h that declares [kAlpha]. *)
Definition kAlpha : R := 2 / 10.
Definition kWeightMin : R := 1 / 2.
Definition kWeightMax : R := 3 / 2.

Record PlayerWeight : Type := mkPlayerWeight {
  playerIndex : Z;
  performanceScore : R;
  zScore : R;
  rawWeight : R;
  clampedWeight : R;
  normalizedWeight : R
}.

(** [PlayerWeight()] *)
Definition PlayerWeight_default : PlayerWeight :=
  {| playerIndex := 0; performanceScore := 0; zScore := 0;
     rawWeight := 1; clampedWeight := 1; normalizedWeight := 1 |}.

Definition ComputeRawWeight (zScore alpha : R) : R := 1 + alpha * zScore.

Definition ClampWeight (weight wMin wMax : R) : R :=
  Rmin wMax (Rmax wMin weight).

Definition NormalizeWeights (weights : list PlayerWeight)
  : list PlayerWeight :=
  match weights with
  | [] => weights
  | _ =>
    let sumWeights :=
      fold_left (fun sumWeights w => sumWeights + clampedWeight w) weights 0 in
    let teamSize := length weights in
    let normalizationFactor := INR teamSize / sumWeights in
    map (fun w =>
           {| playerIndex := playerIndex w;
              performanceScore := performanceScore w;
              zScore := zScore w;
              rawWeight := rawWeight w;
              clampedWeight := clampedWeight w;
              normalizedWeight := clampedWeight w * normalizationFactor |})
        weights
  end.

(** [ComputeMean], [ComputeStdDev] and [ComputeZScore] of this class have
    the text of those embedded in [Engine]. *)
Definition ComputeWeights (performanceScores : list R) (alpha wMin wMax : R)
  : list PlayerWeight :=
  match performanceScores with
  | [] => []
  | _ =>
    let mean := ComputeMean performanceScores in
    let stddev := ComputeStdDev performanceScores mean in
    let weights :=
      map (fun ip : nat * R =>
             let z := ComputeZScore (snd ip) mean stddev in
             let raw := ComputeRawWeight z alpha in
             {| playerIndex := Z.of_nat (fst ip);
                performanceScore := snd ip;
                zScore := z;
                rawWeight := raw;
                clampedWeight := ClampWeight raw wMin wMax;
                normalizedWeight := 1 |})
          (combine (seq 0 (length performanceScores)) performanceScores) in
    NormalizeWeights weights
  end.

End NormalizedWeighting.

(* ================================================================== *)
(** * PerformanceNormalization on the reals *)
(* ================================================================== *)

Module Normalization.

Local Open Scope R_scope.

Definition kMaxPerfZScore : R := 3.

Record TeamPerformanceStats : Type := mkTeamPerformanceStats {
  mean : R;
  stddev : R;
  teamSize : nat
}.

(** [TeamPerformanceStats()] *)
Definition TeamPerformanceStats_default : TeamPerformanceStats :=
  {| mean := 0; stddev := 1; teamSize := 0 |}.

Record PlayerPerformance : Type := mkPlayerPerformance {
  playerIndex : Z;
  rawScore : R;
  zScore : R;
  clippedZScore : R
}.

Definition ComputeTeamStats (scores : list R) : TeamPerformanceStats :=
  if (length scores =? 0)%nat then
    {| mean := 0; stddev := 1; teamSize := length scores |}
  else
    let teamSize := length scores in
    let mean := fold_left Rplus scores 0 / INR teamSize in
    let variance :=
      fold_left (fun variance score =>
                   let diff := score - mean in variance + diff * diff)
                scores 0 in
    let variance := variance / INR teamSize in
    {| mean := mean;
       stddev := if Rlt_dec variance (1 / 1000000) then 1 else sqrt variance;
       teamSize := teamSize |}.

Definition ComputeZScore (score : R) (stats : TeamPerformanceStats) : R :=
  (score - mean stats) / stddev stats.

Definition ClipZScore (zScore maxZScore : R) : R :=
  Rmax (- maxZScore) (Rmin zScore maxZScore).

Definition NormalizeTeamPerformance (scores : list R) (maxZScore : R)
  : list PlayerPerformance :=
  let stats := ComputeTeamStats scores in
  map (fun ip : nat * R =>
         let z := ComputeZScore (snd ip) stats in
         {| playerIndex := Z.of_nat (fst ip);
            rawScore := snd ip;
            zScore := z;
            clippedZScore := ClipZScore z maxZScore |})
      (combine (seq 0 (length scores)) scores).

End Normalization.

(* ================================================================== *)
(** * PerformanceNormalization on binary64 *)
(* ================================================================== *)

Module NormalizationBinary64.

Import Floats.
Import Balancer.
Local Open Scope float_scope.

Record TeamPerformanceStats : Set := mkTeamPerformanceStats {
  mean : float;
  stddev : float;
  teamSize : nat
}.

Record PlayerPerformance : Set := mkPlayerPerformance {
  playerIndex : Z;
  rawScore : float;
  zScore : float;
  clippedZScore : float
}.

(** [PlayerPerformance()] *)
Definition PlayerPerformance_default : PlayerPerformance :=
  {| playerIndex := 0; rawScore := 0; zScore := 0; clippedZScore := 0 |}.

(** [std::accumulate] adds from the left, starting at 0.0; the [int]
    [teamSize] is converted to [double] for the divisions. *)
Definition ComputeTeamStats (scores : list float) : TeamPerformanceStats :=
  if (length scores =? 0)%nat then
    {| mean := 0; stddev := 1; teamSize := length scores |}
  else
    let teamSize := length scores in
    let mean := fold_left PrimFloat.add scores 0 / double_of_nat teamSize in
    let variance :=
      fold_left (fun variance score =>
                   let diff := score - mean in variance + diff * diff)
                scores 0 in
    let variance := variance / double_of_nat teamSize in
    {| mean := mean;
       stddev := if variance <? 1e-6 then 1 else PrimFloat.sqrt variance;
       teamSize := teamSize |}.

Definition ComputeZScore (score : float) (stats : TeamPerformanceStats)
  : float :=
  (score - mean stats) / stddev stats.

Definition ClipZScore (zScore maxZScore : float) : float :=
  fmax (- maxZScore) (fmin zScore maxZScore).

Definition NormalizeTeamPerformance (scores : list float) (maxZScore : float)
  : list PlayerPerformance :=
  let stats := ComputeTeamStats scores in
  map (fun ip : nat * float =>
         let z := ComputeZScore (snd ip) stats in
         {| playerIndex := Z.of_nat (fst ip);
            rawScore := snd ip;
            zScore := z;
            clippedZScore := ClipZScore z maxZScore |})
      (combine (seq 0 (length scores)) scores).

(** Nine scores of 0 and one of 7. *)
Definition nine_and_one : list float := [0; 0; 0; 0; 0; 0; 0; 0; 0; 7].

End NormalizationBinary64.

(* ================================================================== *)
(** * The batch processor and the usage example (examples/) *)
(* ================================================================== *)

Module BatchProcessor.

Import Engine.
Import String Ascii.
Local Open Scope R_scope.

(** Constants of TeamGlicko2Config.h used by the examples. *)
Definition kWinScore : R := 1.
Definition kLossScore : R := 0.
Definition kDrawScore : R := 1 / 2.
Definition kKillWeight : R := 1.
Definition kDeathWeight : R := -1.
Definition kDamageWeight : R := 1 / 220.
Definition kObjectiveWeight : R := 0.

(** ** CSV splitting *)

(** [std::getline(stream, token, delimiter)] on the unread part [s] of the
    stream: the token read and what is left unread.  The delimiter that ends
    the token is consumed. *)
Fixpoint getline (s : string) (delimiter : ascii) : string * string :=
  match s with
  | EmptyString => (EmptyString, EmptyString)
  | String c s' =>
    if Ascii.eqb c delimiter then (EmptyString, s')
    else let (token, rest) := getline s' delimiter in (String c token, rest)
  end.

(** The [while (std::getline(...))] loop of [split]: the read fails, and the
    loop ends, exactly when nothing is left unread.  Every read consumes at
    least one character, so [fuel] iterations suffice for an input of
    [fuel] characters. *)
Fixpoint split_loop (fuel : nat) (s : string) (delimiter : ascii)
  : list string :=
  match fuel with
  | O => []
  | S fuel' =>
    match s with
    | EmptyString => []
    | _ =>
      let (token, rest) := getline s delimiter in
      token :: split_loop fuel' rest delimiter
    end
  end.

Definition split (s : string) (delimiter : ascii) : list string :=
  split_loop (String.length s) s delimiter.

(** ** Performance score *)

Record PlayerMatchData : Type := mkPlayerMatchData {
  playerId : string;
  playerName : string;
  team : string;
  kills : Z;
  deaths : Z;
  damage : R;
  score : R
}.

(** [ComputePerformanceScore] of batch_processor.cpp. *)
Definition ComputePerformanceScore (player : PlayerMatchData) : R :=
  let perfScore :=
    (IZR (kills player) * kKillWeight)
    + (IZR (deaths player) * kDeathWeight)
    + (damage player * kDamageWeight)
    + (score player * kObjectiveWeight) in
  Rmax 100 perfScore.

(** [ComputePerformanceScore] of the usage example. *)
Definition ComputePerformanceScore_example
  (kills deaths : Z) (damage objectiveScore : R) : R :=
  kKillWeight * IZR kills
  + kDeathWeight * IZR deaths
  + kDamageWeight * damage
  + kObjectiveWeight * objectiveScore.

(** ** Reference definitions *)




End BatchProcessor.

(** ** Further reference definitions for the balancer *)

Module BalancerReference.

Import Floats.
Import Balancer.

(** A candidate that takes the place of the initial assignment: it passes
    both top-player checks and its objective is below [DBL_MAX]. *)
Definition improves_on_initial
  (players : list PlayerInfo) (config : BalancerConfig) (team0 : list nat)
  : bool :=
  honors_separation players config team0
  && PrimFloat.ltb (objective_J players (lambda config) team0) DBL_MAX.

(** A number that is not NaN (the only value that differs from itself). *)
Definition is_number (x : float) : bool := PrimFloat.eqb x x.

(** No player is rated above a player listed before it (the order
    [std::sort] establishes with the comparator of [BalanceTeams]). *)
Definition descending (l : list PlayerInfo) : Prop :=
  ForallOrdPairs (fun a b => rated_above b a = false) l.

(** What [std::sort] may leave for a pool: the players of the pool, each
    with its effective rating stored, in some descending order.  Players
    that compare equal may come in any order. *)
Definition std_sort_result (players sorted : list PlayerInfo) : Prop :=
  Permutation sorted (map with_effective_rating players)
  /\ descending sorted.

(** Any two players of the list with different ids are strictly ordered by
    the comparator: the descending order of the list is unique. *)
Definition strictly_rated (l : list PlayerInfo) : bool :=
  forallb (fun a =>
             forallb (fun b =>
                        (playerId a =? playerId b)%Z
                        || rated_above a b || rated_above b a) l) l.

(** Seventeen players of equal rating, and the order in which an
    introsort that moves the median first and partitions the rest leaves
    them. *)
Definition equal_pool : list PlayerInfo :=
  map (fun id => player id 1500 100)
      [1; 2; 3; 4; 5; 6; 7; 8; 9; 10; 11; 12; 13; 14; 15; 16; 17]%Z.

Definition equal_pool_reordered : list PlayerInfo :=
  map (fun id => player id 1500 100)
      [9; 17; 16; 15; 14; 13; 12; 11; 10; 1; 8; 7; 6; 5; 4; 3; 2]%Z.

End BalancerReference.

(** ** Reference definitions for the volatility update *)

Module VolatilityReference.

Import Engine.
Local Open Scope R_scope.

(** With [c = phi^2 + v] and [q = c - delta^2], [VolatilityFunction x] is
    [- first_term c q (exp x) - (x - a) / tau^2]. *)
Definition first_term (c q t : R) : R :=
  t * (q + t) / (2 * (c + t) * (c + t)).

(** The derivative of [x |-> first_term c q (exp x)], as a function of
    [t = exp x]. *)
Definition first_term_slope (c q t : R) : R :=
  t * (q * c + (2 * c - q) * t) / (2 * (c + t) * (c + t) * (c + t)).

(** [VolatilityFunction] on unsurprising results, and its derivative. *)
Definition curve (c q a x : R) : R :=
  - first_term c q (exp x) - 4 * (x - a).

Definition slope (c q x : R) : R := - first_term_slope c q (exp x) - 4.

(** The point [C] the Illinois loop computes from the bracket ends. *)
Definition secant_point (A B fA fB : R) : R :=
  A + (A - B) * fA / (fB - fA).

End VolatilityReference.

(* ================================================================== *)
(** * The search of the balancer *)
(* ================================================================== *)

(** ** Order properties of the binary64 comparison *)

Section FloatOrder.
Import Floats.

Lemma SFcompare_Lt_trans (a b c : spec_float) :
  SFcompare a b = Some Lt -> SFcompare b c = Some Lt ->
  SFcompare a c = Some Lt.
Proof.
  destruct a as [sa|sa| |sa ma ea], b as [sb|sb| |sb mb eb],
           c as [sc|sc| |sc mc ec]; cbn;
    try discriminate; try reflexivity;
    repeat match goal with s : bool |- _ => destruct s end;
    cbn; try discriminate; try reflexivity.
  all: rewrite ?Pos.compare_cont_spec; cbn [Pos.switch_Eq].
  all: destruct (Z.compare_spec ea eb), (Z.compare_spec eb ec),
         (Z.compare_spec ea ec);
       try discriminate; try reflexivity; try lia; subst.
  all: destruct (Pos.compare_spec ma mb), (Pos.compare_spec mb mc),
         (Pos.compare_spec ma mc);
       cbn; try discriminate; try reflexivity; try lia.
Qed.

Lemma SFcompare_Lt_Eq_trans (a b c : spec_float) :
  SFcompare a b = Some Lt -> SFcompare b c = Some Eq ->
  SFcompare a c = Some Lt.
Proof.
  destruct a as [sa|sa| |sa ma ea], b as [sb|sb| |sb mb eb],
           c as [sc|sc| |sc mc ec]; cbn;
    try discriminate; try reflexivity;
    repeat match goal with s : bool |- _ => destruct s end;
    cbn; try discriminate; try reflexivity.
  all: rewrite ?Pos.compare_cont_spec; cbn [Pos.switch_Eq].
  all: destruct (Z.compare_spec ea eb), (Z.compare_spec eb ec),
         (Z.compare_spec ea ec);
       try discriminate; try reflexivity; try lia; subst.
  all: destruct (Pos.compare_spec ma mb), (Pos.compare_spec mb mc),
         (Pos.compare_spec ma mc);
       cbn; try discriminate; try reflexivity; try lia.
Qed.

Lemma SFcompare_not_Lt_refl (a : spec_float) : SFcompare a a <> Some Lt.
Proof.
  destruct a as [s|s| |s m e]; cbn; try discriminate;
    destruct s; try discriminate;
    rewrite Z.compare_refl, Pos.compare_cont_spec, Pos.compare_refl;
    discriminate.
Qed.

Lemma ltb_trans (a b c : float) :
  PrimFloat.ltb a b = true -> PrimFloat.ltb b c = true ->
  PrimFloat.ltb a c = true.
Proof.
  rewrite !ltb_spec. unfold SFltb.
  destruct (SFcompare (Prim2SF a) (Prim2SF b)) as [[]|] eqn:Hab;
    try discriminate.
  destruct (SFcompare (Prim2SF b) (Prim2SF c)) as [[]|] eqn:Hbc;
    try discriminate.
  now rewrite (SFcompare_Lt_trans _ _ _ Hab Hbc).
Qed.

Lemma ltb_eqb_trans (a b c : float) :
  PrimFloat.ltb a b = true -> PrimFloat.eqb b c = true ->
  PrimFloat.ltb a c = true.
Proof.
  rewrite !ltb_spec, eqb_spec. unfold SFltb, SFeqb.
  destruct (SFcompare (Prim2SF a) (Prim2SF b)) as [[]|] eqn:Hab;
    try discriminate.
  destruct (SFcompare (Prim2SF b) (Prim2SF c)) as [[]|] eqn:Hbc;
    try discriminate.
  now rewrite (SFcompare_Lt_Eq_trans _ _ _ Hab Hbc).
Qed.

Lemma ltb_irrefl (a : float) : PrimFloat.ltb a a = false.
Proof.
  rewrite ltb_spec. unfold SFltb.
  pose proof (SFcompare_not_Lt_refl (Prim2SF a)).
  destruct (SFcompare (Prim2SF a) (Prim2SF a)) as [[]|]; congruence.
Qed.

End FloatOrder.

(** ** The search as a fold over its candidates *)

Section BalancerSearch.
Import Balancer.

Variable players : list PlayerInfo.
Variable config : BalancerConfig.

Lemma fold_budget_spent (l : list (list nat)) (st : SearchState) :
  limit_reached config st = true ->
  fold_left (consider_within_budget players config) l st = st.
Proof.
  intro Hlim. induction l as [|c l IH]; simpl; [reflexivity|].
  unfold consider_within_budget at 2. rewrite Hlim. exact IH.
Qed.

Lemma GenerateCombinations_loop_fold
  (recurse : nat -> list nat -> SearchState -> option SearchState)
  (cands : nat -> list (list nat)) (currentTeam0 : list nat) :
  (forall i st,
      recurse (S i) (currentTeam0 ++ [i]) st
      = Some (fold_left (consider_within_budget players config) (cands i) st)) ->
  forall count i st,
    GenerateCombinations_loop recurse config currentTeam0 count i st
    = Some (fold_left (consider_within_budget players config)
              (flat_map (fun i => if skip_player config currentTeam0 i
                                  then [] else cands i)
                        (seq i count)) st).
Proof.
  intros Hrec. induction count as [|count IH]; intros i st; simpl.
  - reflexivity.
  - destruct (skip_player config currentTeam0 i); simpl.
    + apply IH.
    + rewrite Hrec, fold_left_app.
      destruct (limit_reached config _) eqn:Hlim.
      * now rewrite (fold_budget_spent _ _ Hlim).
      * apply IH.
Qed.

Lemma GenerateCombinations_fold :
  forall needed fuel teamSize startIndex currentTeam0 st,
    (needed < fuel)%nat ->
    (length currentTeam0 + needed = teamSize)%nat ->
    GenerateCombinations fuel players config teamSize startIndex
                         currentTeam0 st
    = Some (fold_left (consider_within_budget players config)
              (candidates (length players) config needed startIndex
                          currentTeam0) st).
Proof.
  induction needed as [|needed IH];
    intros fuel teamSize startIndex currentTeam0 st Hfuel Hlen;
    (destruct fuel as [|fuel]; [lia|]); cbn [GenerateCombinations].
  - destruct (limit_reached config st) eqn:Hlim.
    + now rewrite fold_budget_spent.
    + replace (length currentTeam0 =? teamSize)%nat with true
        by (symmetry; apply Nat.eqb_eq; lia).
      cbn. unfold consider_within_budget. now rewrite Hlim.
  - destruct (limit_reached config st) eqn:Hlim.
    + now rewrite fold_budget_spent.
    + replace (length currentTeam0 =? teamSize)%nat with false
        by (symmetry; apply Nat.eqb_neq; lia).
      cbn [candidates].
      replace (Z.of_nat teamSize - Z.of_nat (length currentTeam0))%Z
        with (Z.of_nat (S needed)) by lia.
      destruct (_ <? _)%Z; [reflexivity|].
      apply GenerateCombinations_loop_fold.
      intros i st'. apply IH; [lia|].
      rewrite length_app. simpl. lia.
Qed.


Lemma consider_candidate_tried (c : list nat) (st : SearchState) :
  combinationsTried (consider_candidate players config c st)
  = (combinationsTried st + 1)%Z.
Proof.
  unfold consider_candidate.
  repeat match goal with |- context [if ?b then _ else _] => destruct b end;
    reflexivity.
Qed.

Lemma fold_consider_tried (l : list (list nat)) (st : SearchState) :
  combinationsTried
    (fold_left (fun st c => consider_candidate players config c st) l st)
  = (combinationsTried st + Z.of_nat (length l))%Z.
Proof.
  revert st. induction l as [|c l IH]; intro st; simpl fold_left.
  - simpl. lia.
  - rewrite IH, consider_candidate_tried. simpl length. lia.
Qed.

(** Examining candidates under the budget is examining the first
    [maxCombinationsToTry - combinationsTried] of them without one. *)
Lemma fold_budget_firstn (l : list (list nat)) (st : SearchState) :
  fold_left (consider_within_budget players config) l st
  = fold_left (fun st c => consider_candidate players config c st)
      (firstn (Z.to_nat (maxCombinationsToTry config - combinationsTried st))
              l) st.
Proof.
  revert st. induction l as [|c l IH]; intro st.
  - now rewrite firstn_nil.
  - destruct (limit_reached config st) eqn:Hlim.
    + rewrite (fold_budget_spent _ _ Hlim).
      unfold limit_reached in Hlim. apply Z.leb_le in Hlim.
      replace (Z.to_nat _) with 0%nat by lia. reflexivity.
    + simpl fold_left. unfold consider_within_budget at 2. rewrite Hlim.
      unfold limit_reached in Hlim. apply Z.leb_gt in Hlim.
      rewrite IH, consider_candidate_tried.
      replace (Z.to_nat (maxCombinationsToTry config - combinationsTried st))
        with (S (Z.to_nat (maxCombinationsToTry config
                           - (combinationsTried st + 1)))) by lia.
      reflexivity.
Qed.

Lemma consider_candidate_best (c : list nat) (st : SearchState) :
  bestAssignment (consider_candidate players config c st) = bestAssignment st
  \/ (honors_separation players config c = true
      /\ bestAssignment (consider_candidate players config c st)
         = CreateAssignment players c).
Proof.
  unfold consider_candidate, honors_separation.
  destruct (separateTopPlayers config && ViolatesTopPlayerConstraint players c);
    [now left|].
  destruct (separateTopPlayers config && ViolatesTopPlayerConstraint players _);
    [now left|].
  destruct (isBetter _ _); [right|left]; auto.
Qed.

Lemma fold_consider_best (l : list (list nat)) (st : SearchState) :
  let st' := fold_left (fun st c => consider_candidate players config c st)
                       l st in
  bestAssignment st' = bestAssignment st
  \/ exists c, In c l /\ honors_separation players config c = true
               /\ bestAssignment st' = CreateAssignment players c.
Proof.
  revert st. induction l as [|c l IH]; intro st; simpl.
  - now left.
  - destruct (IH (consider_candidate players config c st))
      as [Hsame | (c' & Hin & Hok & Hbest)].
    + rewrite Hsame.
      destruct (consider_candidate_best c st) as [H | [Hok H]].
      * now left.
      * right. exists c. auto.
    + right. exists c'. auto.
Qed.

End BalancerSearch.

Section DefaultLambda.
Import Floats.
Import Balancer.

Variable players : list PlayerInfo.
Variable config : BalancerConfig.
Hypothesis config_lambda : lambda config = kLambda.

Lemma CreateAssignment_objective (c : list nat) :
  objectiveValue (CreateAssignment players c) = objective_J players kLambda c.
Proof. reflexivity. Qed.

Lemma isBetter_improves (ev : Evaluation) (best : TeamAssignment) :
  isBetter ev best = true ->
  PrimFloat.ltb (ev_objective ev) (objectiveValue best) = true
  \/ PrimFloat.eqb (ev_objective ev) (objectiveValue best) = true.
Proof.
  unfold isBetter.
  destruct (PrimFloat.ltb (ev_objective ev) (objectiveValue best));
    [now left|].
  destruct (PrimFloat.eqb (ev_objective ev) (objectiveValue best));
    [now right | discriminate].
Qed.

Lemma isBetter_not_below (ev : Evaluation) (best : TeamAssignment) :
  isBetter ev best = false ->
  PrimFloat.ltb (ev_objective ev) (objectiveValue best) = false.
Proof.
  unfold isBetter.
  destruct (PrimFloat.ltb (ev_objective ev) (objectiveValue best));
    [discriminate | reflexivity].
Qed.

(** What is not below the running best stays not below it. *)
Lemma consider_candidate_keeps_bound (c : list nat) (st : SearchState)
      (y : float) :
  PrimFloat.ltb y (objectiveValue (bestAssignment st)) = false ->
  PrimFloat.ltb y (objectiveValue
                     (bestAssignment (consider_candidate players config c st)))
  = false.
Proof.
  intro Hy. unfold consider_candidate.
  destruct (separateTopPlayers config && ViolatesTopPlayerConstraint players c);
    [exact Hy|].
  destruct (separateTopPlayers config && ViolatesTopPlayerConstraint players _);
    [exact Hy|].
  destruct (isBetter _ _) eqn:Hb; [|exact Hy].
  cbn [bestAssignment]. rewrite CreateAssignment_objective.
  apply isBetter_improves in Hb. rewrite config_lambda in Hb.
  change (ev_objective (EvaluateAssignment players c _ kLambda))
    with (objective_J players kLambda c) in Hb.
  apply not_true_is_false. intro Hlt.
  destruct Hb as [Hb | Hb].
  - rewrite (ltb_trans _ _ _ Hlt Hb) in Hy. discriminate.
  - rewrite (ltb_eqb_trans _ _ _ Hlt Hb) in Hy. discriminate.
Qed.

(** An examined candidate that passes the checks is not below the running
    best afterwards. *)
Lemma consider_candidate_bounds_it (c : list nat) (st : SearchState) :
  honors_separation players config c = true ->
  PrimFloat.ltb (objective_J players kLambda c)
    (objectiveValue
       (bestAssignment (consider_candidate players config c st)))
  = false.
Proof.
  unfold honors_separation, consider_candidate. intro Hok.
  apply andb_true_iff in Hok. destruct Hok as [H0 H1].
  apply negb_true_iff in H0, H1. rewrite H0, H1.
  rewrite config_lambda.
  destruct (isBetter _ _) eqn:Hb.
  - cbn [bestAssignment]. rewrite CreateAssignment_objective.
    apply ltb_irrefl.
  - now apply isBetter_not_below in Hb.
Qed.

Lemma fold_consider_keeps_bound (l : list (list nat)) (st : SearchState)
      (y : float) :
  PrimFloat.ltb y (objectiveValue (bestAssignment st)) = false ->
  PrimFloat.ltb y
    (objectiveValue
       (bestAssignment
          (fold_left (fun st c => consider_candidate players config c st)
                     l st))) = false.
Proof.
  revert st. induction l as [|c l IH]; intros st Hy; [exact Hy|].
  cbn [fold_left]. apply IH. now apply consider_candidate_keeps_bound.
Qed.

Lemma fold_consider_minimal (l : list (list nat)) (st : SearchState) :
  forall c,
    In c l -> honors_separation players config c = true ->
    PrimFloat.ltb (objective_J players kLambda c)
      (objectiveValue
         (bestAssignment
            (fold_left (fun st c => consider_candidate players config c st)
                       l st))) = false.
Proof.
  revert st. induction l as [|x l IH]; intros st c Hin Hok; [contradiction|].
  cbn [fold_left]. destruct Hin as [<- | Hin].
  - apply fold_consider_keeps_bound. now apply consider_candidate_bounds_it.
  - now apply IH.
Qed.

End DefaultLambda.

Section BalancerCandidates.
Import Balancer.

Lemma candidates_members (n : nat) (config : BalancerConfig) :
  forall needed startIndex currentTeam0 c,
    In c (candidates n config needed startIndex currentTeam0) ->
    forall x, In x c -> In x currentTeam0 \/ (x < n)%nat.
Proof.
  induction needed as [|needed IH]; intros startIndex currentTeam0 c Hin x Hx;
    cbn [candidates] in Hin.
  - destruct Hin as [<- | []]. now left.
  - destruct (_ <? _)%Z; [contradiction|].
    apply in_flat_map in Hin. destruct Hin as (i & Hi & Hc).
    apply in_seq in Hi.
    destruct (skip_player config currentTeam0 i); [contradiction|].
    destruct (IH _ _ _ Hc x Hx) as [H | H]; [|now right].
    apply in_app_or in H. destruct H as [H | [<- | []]]; [now left|right; lia].
Qed.

Lemma sorted_insert_perm (x : PlayerInfo) (l : list PlayerInfo) :
  Permutation (insert_sorted x l) (x :: l).
Proof.
  induction l as [|y l IH]; simpl; [reflexivity|].
  destruct (rated_above y x); [|reflexivity].
  rewrite IH. apply perm_swap.
Qed.

Lemma sort_perm (l : list PlayerInfo) :
  Permutation (sort_by_effective_rating l) l.
Proof.
  induction l as [|x l IH]; simpl; [reflexivity|].
  rewrite sorted_insert_perm. now constructor.
Qed.

Lemma sortedPlayers_length (players : list PlayerInfo) :
  length (sortedPlayers_of players) = length players.
Proof.
  unfold sortedPlayers_of.
  rewrite (Permutation_length (sort_perm _)). apply length_map.
Qed.

Lemma sortedPlayers_ids (players : list PlayerInfo) :
  Permutation (map playerId (sortedPlayers_of players))
              (map playerId players).
Proof.
  unfold sortedPlayers_of.
  rewrite (Permutation_map playerId (sort_perm _)), map_map. reflexivity.
Qed.

(** The search never runs out of fuel: it is the budgeted fold over all
    candidates, on whatever vector the sort left. *)
Lemma BalanceTeams_search_sorted_fold (players sorted : list PlayerInfo)
      (config : BalancerConfig) :
  (2 <= length players)%nat ->
  length sorted = length players ->
  BalanceTeams_search_sorted players sorted config
  = Some (fold_left (consider_within_budget sorted config)
            (all_candidates players config) initial_state).
Proof.
  intros Hn Hlen. unfold BalanceTeams_search_sorted, all_candidates.
  rewrite (GenerateCombinations_fold _ _
             (length players / 2
              - length (if forced_top players config then [0%nat] else []))).
  - now rewrite Hlen.
  - assert (length players / 2 <= length players)%nat
      by (apply Nat.Div0.div_le_upper_bound; lia).
    destruct (forced_top players config); cbn [length]; lia.
  - assert (1 <= length players / 2)%nat
      by (apply Nat.div_le_lower_bound; lia).
    destruct (forced_top players config); cbn [length]; lia.
Qed.

Lemma BalanceTeams_search_fold (players : list PlayerInfo)
      (config : BalancerConfig) :
  (2 <= length players)%nat ->
  BalanceTeams_search players config
  = Some (fold_left
            (consider_within_budget (sortedPlayers_of players) config)
            (all_candidates players config) initial_state).
Proof.
  intro Hn. apply BalanceTeams_search_sorted_fold; [assumption|].
  apply sortedPlayers_length.
Qed.

(** [BalanceTeams] on a pool of at least two players is the search. *)
Lemma BalanceTeams_sorted_search (players sorted : list PlayerInfo)
      (config : BalancerConfig) :
  (2 <= length players)%nat ->
  BalanceTeams_sorted players sorted config
  = option_map bestAssignment
      (BalanceTeams_search_sorted players sorted config).
Proof.
  intro Hn. unfold BalanceTeams_sorted.
  replace (length players <? 2)%nat with false
    by (symmetry; apply Nat.ltb_ge; lia).
  now destruct (BalanceTeams_search_sorted players sorted config).
Qed.

Lemma BalanceTeams_is_search (players : list PlayerInfo)
      (config : BalancerConfig) :
  (2 <= length players)%nat ->
  BalanceTeams players config
  = option_map bestAssignment (BalanceTeams_search players config).
Proof. intro Hn. now apply BalanceTeams_sorted_search. Qed.

End BalancerCandidates.

Section BalancerResults.
Import Balancer.

Lemma has_index_In (k : nat) (l : list nat) :
  has_index k l = true <-> In k l.
Proof.
  unfold has_index. rewrite existsb_exists. split.
  - intros (x & Hx & He). apply Nat.eqb_eq in He. now subst.
  - intro H. exists k. split; [assumption|apply Nat.eqb_refl].
Qed.

Lemma complement_indices_In (n : nat) (team0 : list nat) (x : nat) :
  In x (complement_indices n team0) <-> (x < n)%nat /\ ~ In x team0.
Proof.
  unfold complement_indices. rewrite filter_In, in_seq, negb_true_iff.
  rewrite <- not_true_iff_false, has_index_In. intuition lia.
Qed.

Lemma all_candidates_members (players : list PlayerInfo)
      (config : BalancerConfig) (c : list nat) :
  (2 <= length players)%nat ->
  In c (all_candidates players config) ->
  forall x, In x c -> (x < length players)%nat.
Proof.
  intros Hn Hin x Hx. unfold all_candidates in Hin.
  destruct (candidates_members _ _ _ _ _ _ Hin x Hx) as [H | H];
    [|assumption].
  destruct (forced_top players config); simpl in H; [|contradiction].
  destruct H as [<- | []]. lia.
Qed.

(** Where the returned assignment comes from: the initial one, or
    [CreateAssignment] on one of the candidates examined within the budget
    that passed both top-player checks. *)
Lemma BalanceTeams_sorted_origin (players sorted : list PlayerInfo)
      (config : BalancerConfig) :
  (2 <= length players)%nat ->
  length sorted = length players ->
  exists a, BalanceTeams_sorted players sorted config = Some a
    /\ (a = bestAssignment initial_state
        \/ exists c,
             In c (firstn (Z.to_nat (maxCombinationsToTry config))
                          (all_candidates players config))
             /\ honors_separation sorted config c = true
             /\ a = CreateAssignment sorted c).
Proof.
  intros Hn Hlen. rewrite BalanceTeams_sorted_search by assumption.
  rewrite BalanceTeams_search_sorted_fold by assumption.
  eexists; split; [reflexivity|].
  rewrite fold_budget_firstn.
  cbn [combinationsTried initial_state]. rewrite Z.sub_0_r.
  destruct (fold_consider_best sorted config
              (firstn (Z.to_nat (maxCombinationsToTry config))
                      (all_candidates players config)) initial_state)
    as [H | (c & Hin & Hok & H)].
  - now left.
  - right. exists c. auto.
Qed.

Lemma firstn_In_all (A : Type) (n : nat) (l : list A) (x : A) :
  In x (firstn n l) -> In x l.
Proof.
  intro H. rewrite <- (firstn_skipn n l). apply in_or_app. now left.
Qed.

Lemma BalanceTeams_origin (players : list PlayerInfo)
      (config : BalancerConfig) :
  (2 <= length players)%nat ->
  exists a, BalanceTeams players config = Some a
    /\ (a = bestAssignment initial_state
        \/ exists c, In c (all_candidates players config)
             /\ honors_separation (sortedPlayers_of players) config c = true
             /\ a = CreateAssignment (sortedPlayers_of players) c).
Proof.
  intro Hn.
  destruct (BalanceTeams_sorted_origin players (sortedPlayers_of players)
              config Hn (sortedPlayers_length players))
    as (a & Hret & [Hinit | (c & Hin & Hok & Hc)]).
  - exists a. split; [exact Hret | now left].
  - exists a. split; [exact Hret|]. right. exists c.
    split; [now apply firstn_In_all in Hin | now split].
Qed.

Lemma id_of_index (sorted : list PlayerInfo) (indices : list nat) (k : nat) :
  NoDup (map playerId sorted) ->
  (k < length sorted)%nat ->
  (forall x, In x indices -> (x < length sorted)%nat) ->
  In (playerId (player_at sorted k))
     (map (fun idx => playerId (player_at sorted idx)) indices) ->
  In k indices.
Proof.
  intros Hnd Hk Hrange Hin. apply in_map_iff in Hin.
  destruct Hin as (idx & Heq & Hidx).
  replace k with idx; [assumption|].
  rewrite (NoDup_nth _ (playerId PlayerInfo_default)) in Hnd.
  apply Hnd.
  - rewrite length_map. now apply Hrange.
  - now rewrite length_map.
  - rewrite !map_nth. exact Heq.
Qed.

Lemma CreateAssignment_separates (sorted : list PlayerInfo)
      (config : BalancerConfig) (c : list nat) :
  separateTopPlayers config = true ->
  (2 <= length sorted)%nat ->
  NoDup (map playerId sorted) ->
  (forall x, In x c -> (x < length sorted)%nat) ->
  honors_separation sorted config c = true ->
  let a := CreateAssignment sorted c in
  let top1 := playerId (player_at sorted 0) in
  let top2 := playerId (player_at sorted 1) in
  ~ (In top1 (team0PlayerIds a) /\ In top2 (team0PlayerIds a))
  /\ ~ (In top1 (team1PlayerIds a) /\ In top2 (team1PlayerIds a)).
Proof.
  intros Hsep Hn Hnd Hrange Hok. cbn zeta.
  unfold honors_separation in Hok. rewrite Hsep in Hok. cbn [andb] in Hok.
  apply andb_true_iff in Hok. destruct Hok as [Hok0 Hok1].
  apply negb_true_iff in Hok0, Hok1.
  unfold ViolatesTopPlayerConstraint in Hok0, Hok1.
  replace (length sorted <? 2)%nat with false in Hok0, Hok1
    by (symmetry; apply Nat.ltb_ge; lia).
  unfold CreateAssignment; cbn [team0PlayerIds team1PlayerIds].
  split; intros [H0 H1].
  - apply id_of_index in H0; [|assumption|lia|assumption].
    apply id_of_index in H1; [|assumption|lia|assumption].
    apply has_index_In in H0, H1. rewrite H0, H1 in Hok0. discriminate.
  - assert (Hr : forall x, In x (complement_indices (length sorted) c) ->
                           (x < length sorted)%nat)
      by (intros x Hx; now apply complement_indices_In in Hx).
    apply id_of_index in H0; [|assumption|lia|assumption].
    apply id_of_index in H1; [|assumption|lia|assumption].
    apply has_index_In in H0, H1. rewrite H0, H1 in Hok1. discriminate.
Qed.

End BalancerResults.

Section CandidateEnumeration.
Import Balancer.

Variable n : nat.
Variable config : BalancerConfig.

Lemma increasing_from_members (l : list nat) :
  forall start x, increasing_from start l -> In x l -> (start <= x)%nat.
Proof.
  induction l as [|y l IH]; intros start x Hinc Hin; [contradiction|].
  destruct Hinc as [Hle Hinc]. destruct Hin as [<- | Hin]; [assumption|].
  specialize (IH _ _ Hinc Hin). lia.
Qed.

Lemma increasing_from_room (l : list nat) :
  forall start,
    l <> [] ->
    increasing_from start l -> (forall x, In x l -> (x < n)%nat) ->
    (start + length l <= n)%nat.
Proof.
  induction l as [|y l IH]; intros start Hne Hinc Hlt; [contradiction|].
  destruct Hinc as [Hle Hinc]. cbn [length].
  destruct l as [|z l].
  - specialize (Hlt y (or_introl eq_refl)). cbn. lia.
  - specialize (IH (S y) ltac:(discriminate) Hinc
                   (fun x Hx => Hlt x (or_intror Hx))).
    cbn [length] in *. lia.
Qed.

(** Every selection the search reaches extends [currentTeam0] by [needed]
    increasing indices from [startIndex] on, all below [n]. *)
Lemma candidates_sound :
  forall needed startIndex currentTeam0 c,
    In c (candidates n config needed startIndex currentTeam0) ->
    exists rest,
      c = currentTeam0 ++ rest /\ length rest = needed
      /\ increasing_from startIndex rest
      /\ forall x, In x rest -> (x < n)%nat.
Proof.
  induction needed as [|needed IH]; intros startIndex currentTeam0 c Hin;
    cbn [candidates] in Hin.
  - destruct Hin as [<- | []]. exists []. rewrite app_nil_r. cbn. tauto.
  - destruct (_ <? _)%Z; [contradiction|].
    apply in_flat_map in Hin. destruct Hin as (i & Hi & Hc).
    apply in_seq in Hi.
    destruct (skip_player config currentTeam0 i); [contradiction|].
    destruct (IH _ _ _ Hc) as (rest & -> & Hlen & Hinc & Hlt).
    exists (i :: rest). rewrite <- app_assoc. cbn. repeat split.
    + now rewrite Hlen.
    + lia.
    + assumption.
    + intros x [<- | Hx]; [lia | now apply Hlt].
Qed.

(** Conversely the search reaches every such extension that does not put
    indices 0 and 1 together while [separateTopPlayers] is set. *)
Lemma candidates_complete :
  forall rest startIndex currentTeam0,
    increasing_from startIndex rest ->
    (forall x, In x rest -> (x < n)%nat) ->
    (forall x, In x currentTeam0 -> (x < startIndex)%nat) ->
    ~ (separateTopPlayers config = true
       /\ In 0%nat (currentTeam0 ++ rest) /\ In 1%nat (currentTeam0 ++ rest)) ->
    In (currentTeam0 ++ rest)
       (candidates n config (length rest) startIndex currentTeam0).
Proof.
  induction rest as [|i rest IH]; intros startIndex currentTeam0 Hinc Hlt Hcur Hsep.
  - cbn. left. now rewrite app_nil_r.
  - cbn [length candidates].
    pose proof (increasing_from_room (i :: rest) startIndex
                  ltac:(discriminate) Hinc Hlt) as Hroom.
    cbn [length] in Hroom.
    replace (_ <? _)%Z with false by (symmetry; apply Z.ltb_ge; lia).
    destruct Hinc as [Hle Hinc].
    apply in_flat_map. exists i. split.
    + apply in_seq. specialize (Hlt i (or_introl eq_refl)). lia.
    + replace (skip_player config currentTeam0 i) with false.
      * replace (currentTeam0 ++ i :: rest)
          with ((currentTeam0 ++ [i]) ++ rest)
          by (now rewrite <- app_assoc).
        apply IH.
        -- assumption.
        -- intros x Hx. apply Hlt. now right.
        -- intros x Hx. apply in_app_or in Hx.
           destruct Hx as [Hx | [<- | []]]; [specialize (Hcur x Hx)|]; lia.
        -- now rewrite <- app_assoc.
      * symmetry. apply not_true_is_false. intro Hskip.
        unfold skip_player in Hskip.
        apply andb_true_iff in Hskip. destruct Hskip as [Hskip Hor].
        apply andb_true_iff in Hskip. destruct Hskip as [Hs _].
        apply orb_true_iff in Hor.
        destruct Hor as [Hor | Hor]; apply andb_true_iff in Hor;
          destruct Hor as [Hhas Hi]; apply Nat.eqb_eq in Hi;
          apply has_index_In in Hhas.
        -- apply Hsep. split; [assumption|]. subst i. split.
           ++ apply in_or_app. now left.
           ++ apply in_or_app. right. now left.
        -- specialize (Hcur _ Hhas). lia.
Qed.

End CandidateEnumeration.

Section AllCandidates.
Import Balancer.

Lemma forced_top_odd (players : list PlayerInfo) (config : BalancerConfig) :
  forced_top players config = true -> (length players mod 2 <> 0)%nat.
Proof.
  unfold forced_top. intro H. apply andb_true_iff in H. destruct H as [H _].
  apply negb_true_iff, Nat.eqb_neq in H. exact H.
Qed.

(** The selections an unbounded [BalanceTeams] examines are team-0
    selections of the pool. *)
Lemma all_candidates_sound (players : list PlayerInfo)
      (config : BalancerConfig) (c : list nat) :
  (2 <= length players)%nat ->
  In c (all_candidates players config) ->
  team0_selection players config c.
Proof.
  intros Hn Hin. unfold all_candidates in Hin.
  assert (Hhalf : (1 <= length players / 2)%nat)
    by (apply Nat.div_le_lower_bound; lia).
  destruct (candidates_sound _ _ _ _ _ _ Hin)
    as (rest & -> & Hlen & Hinc & Hlt).
  unfold team0_selection.
  destruct (forced_top players config) eqn:Hf; cbn [app length] in *.
  - repeat split.
    + lia.
    + lia.
    + assumption.
    + intros x [<- | Hx]; [lia | now apply Hlt].
    + intros _. now left.
  - repeat split.
    + lia.
    + assumption.
    + assumption.
    + discriminate.
Qed.

(** Every team-0 selection that passes the top-player checks is examined. *)
Lemma all_candidates_complete (players : list PlayerInfo)
      (config : BalancerConfig) (c : list nat) :
  (2 <= length players)%nat ->
  team0_selection players config c ->
  honors_separation (sortedPlayers_of players) config c = true ->
  In c (all_candidates players config).
Proof.
  intros Hn (Hlen & Hinc & Hlt & Hforced) Hok.
  assert (Hsep : ~ (separateTopPlayers config = true
                    /\ In 0%nat c /\ In 1%nat c)).
  { intros (Hs & H0 & H1). unfold honors_separation in Hok.
    rewrite Hs in Hok. cbn [andb] in Hok.
    apply andb_true_iff in Hok. destruct Hok as [Hok _].
    apply negb_true_iff in Hok. unfold ViolatesTopPlayerConstraint in Hok.
    rewrite sortedPlayers_length in Hok.
    replace (length players <? 2)%nat with false in Hok
      by (symmetry; apply Nat.ltb_ge; lia).
    apply has_index_In in H0, H1. rewrite H0, H1 in Hok. discriminate. }
  unfold all_candidates.
  destruct (forced_top players config) eqn:Hf.
  - specialize (Hforced eq_refl).
    destruct c as [|x rest]; [contradiction|].
    destruct Hinc as [_ Hinc].
    assert (x = 0%nat) as ->.
    { destruct Hforced as [-> | H0]; [reflexivity|].
      pose proof (increasing_from_members _ _ _ Hinc H0). lia. }
    cbn [length] in *.
    replace (length players / 2 - 1)%nat with (length rest) by lia.
    apply (candidates_complete (length players) config rest 1 [0%nat]).
    + assumption.
    + intros y Hy. apply Hlt. now right.
    + intros y [<- | []]. lia.
    + exact Hsep.
  - cbn [length]. rewrite Nat.sub_0_r, <- Hlen.
    apply (candidates_complete (length players) config c 0 []).
    + assumption.
    + assumption.
    + intros y [].
    + exact Hsep.
Qed.

End AllCandidates.

Section BalancerOptimality.
Import Floats.
Import Balancer.

(** With the default weight [lambda = kLambda] and a budget that covers
    every candidate, no team-0 selection that passes the top-player checks
    has an objective below the returned one, and the returned objective is
    the objective of the returned partition (unless no candidate improved
    on the initial [DBL_MAX]). *)
Lemma BalanceTeams_minimal_for_default_lambda
      (players : list PlayerInfo) (config : BalancerConfig) :
  (2 <= length players)%nat ->
  lambda config = kLambda ->
  budget_exhausted players config = false ->
  let sorted := sortedPlayers_of players in
  exists a,
    BalanceTeams players config = Some a
    /\ (forall team0,
          team0_selection players config team0 ->
          honors_separation sorted config team0 = true ->
          PrimFloat.ltb (objective_J sorted (lambda config) team0)
                        (objectiveValue a) = false)
    /\ (a = bestAssignment initial_state
        \/ exists team0,
            team0_selection players config team0
            /\ honors_separation sorted config team0 = true
            /\ a = CreateAssignment sorted team0
            /\ objectiveValue a = objective_J sorted (lambda config) team0).
Proof.
  intros Hn Hlam Hbudget sorted.
  assert (Hall : firstn (Z.to_nat (maxCombinationsToTry config
                                   - combinationsTried initial_state))
                        (all_candidates players config)
                 = all_candidates players config).
  { apply firstn_all2. unfold budget_exhausted in Hbudget.
    apply Z.ltb_ge in Hbudget. cbn [combinationsTried initial_state]. lia. }
  rewrite BalanceTeams_is_search by assumption.
  rewrite BalanceTeams_search_fold by assumption. cbn [option_map].
  rewrite fold_budget_firstn, Hall. fold sorted.
  eexists. split; [reflexivity|]. split.
  - intros team0 Hsel Hok. rewrite Hlam.
    apply (fold_consider_minimal sorted config Hlam); [|assumption].
    now apply all_candidates_complete.
  - destruct (fold_consider_best sorted config
                (all_candidates players config) initial_state)
      as [H | (c & Hin & Hok & H)]; [now left|].
    right. exists c.
    split; [now apply all_candidates_sound|].
    split; [assumption|].
    split; [exact H|].
    rewrite H, Hlam. reflexivity.
Qed.

End BalancerOptimality.

Section BalancerClaims.
Import Floats.
Import Balancer.
Local Open Scope Z_scope.

(** C8.  The returned objective is not the minimum of J under the caller's
    weight.  On the four-player pool with [lambda = 0] and a budget that
    covers all five candidates, the partition of sorted indices
    {0,3} | {1,2} passes every configured check and has J = 0, yet
    [BalanceTeams] returns the partition with ids {2,4} | {1,3}, whose
    reported objective is 10, and whose J under the caller's weight is 10 as
    well. *)
Theorem BalanceTeams_misses_minimum_for_caller_lambda :
  let config := config_with 0 10000 in
  let sorted := sortedPlayers_of pool4 in
  budget_exhausted pool4 config = false
  /\ In [0; 3]%nat (all_candidates pool4 config)
  /\ honors_separation sorted config [0; 3]%nat = true
  /\ objective_J sorted (lambda config) [0; 3]%nat = 0%float
  /\ exists a,
       BalanceTeams pool4 config = Some a
       /\ team0PlayerIds a = [2; 4] /\ team1PlayerIds a = [1; 3]
       /\ a = CreateAssignment sorted [1; 3]%nat
       /\ objectiveValue a = 10%float
       /\ objective_J sorted (lambda config) [1; 3]%nat = 10%float
       /\ PrimFloat.ltb (objective_J sorted (lambda config) [0; 3]%nat)
                        (objectiveValue a) = true.
Proof.
  cbn zeta. split; [vm_compute; reflexivity|].
  split; [vm_compute; tauto|].
  split; [vm_compute; reflexivity|].
  split; [vm_compute; reflexivity|].
  eexists. split; [vm_compute; reflexivity|].
  repeat split; vm_compute; reflexivity.
Qed.

(** C9 (as stated, refuted).  No function of the returned [TeamAssignment]
    tells whether the combinations cap cut the search short: on the
    four-player pool the run with cap 2 (five candidates exist) and the run
    with cap 10000 return the same assignment. *)
Lemma BalanceTeams_exhaustion_unreported :
  ~ exists report : TeamAssignment -> bool,
      forall players config a,
        BalanceTeams players config = Some a ->
        report a = budget_exhausted players config.
Proof.
  intros [report Hreport].
  assert (Hsame : BalanceTeams pool4 (config_with kLambda 2)
                  = BalanceTeams pool4 (config_with kLambda 10000))
    by (vm_compute; reflexivity).
  destruct (BalanceTeams pool4 (config_with kLambda 10000)) as [a|] eqn:Hfull;
    [|vm_compute in Hfull; discriminate].
  pose proof (Hreport pool4 (config_with kLambda 2) a Hsame) as Hcut.
  pose proof (Hreport pool4 (config_with kLambda 10000) a Hfull) as Hall.
  rewrite Hcut in Hall. vm_compute in Hall. discriminate.
Qed.

End BalancerClaims.

(* ================================================================== *)
(** * The rating engine *)
(* ================================================================== *)

Section EngineBasics.
Import Engine.
Local Open Scope R_scope.

Lemma opponent_g_pos (opponentPhi : R) : 0 < opponent_g opponentPhi.
Proof.
  unfold opponent_g, M_PI.
  assert (Hpi : 0 < PI * PI) by (pose proof PI_RGT_0; nra).
  assert (0 <= 3 * (opponentPhi * opponentPhi) / (PI * PI)).
  { apply Rmult_le_pos; [nra | left; now apply Rinv_0_lt_compat]. }
  apply Rdiv_lt_0_compat; [lra|]. apply sqrt_lt_R0. lra.
Qed.

Lemma ComputeExpectedScore_bounds (player : PlayerRating) (muOpp gOpp : R) :
  0 < ComputeExpectedScore player muOpp gOpp < 1.
Proof.
  unfold ComputeExpectedScore.
  pose proof (exp_pos (ComputeExpectedScore_exponent player muOpp gOpp)) as He.
  split.
  - apply Rdiv_lt_0_compat; lra.
  - apply (Rmult_lt_reg_r (1 + exp (ComputeExpectedScore_exponent player muOpp gOpp))); [lra|].
    unfold Rdiv. rewrite Rmult_assoc, Rinv_l by lra. lra.
Qed.

Lemma ComputeVariance_pos (g expectedScore : R) :
  g <> 0 -> 0 < expectedScore < 1 -> 0 < ComputeVariance g expectedScore.
Proof.
  intros Hg [H0 H1]. unfold ComputeVariance.
  apply Rdiv_lt_0_compat; [lra|].
  assert (0 < g * g) by nra.
  assert (0 < expectedScore * (1 - expectedScore)) by nra.
  nra.
Qed.

Lemma UpdateVolatility_pos (fuel : nat) (sigma phi delta v s : R) :
  UpdateVolatility fuel sigma phi delta v = Some s -> 0 < s.
Proof.
  unfold UpdateVolatility.
  destruct (if Rgt_dec _ _ then _ else _); [|discriminate].
  destruct (UpdateVolatility_illinois _ _ _ _ _ _ _ _ _ _); [|discriminate].
  intros [= <-]. apply exp_pos.
Qed.

(** [phi'^2 = 1 / (1/(phi^2 + sigma'^2) + 1/v)] *)
Lemma UpdateRatingDeviation_square (phi sigmaPrime v : R) :
  0 < sigmaPrime -> 0 < v ->
  let phiPrime := UpdateRatingDeviation phi sigmaPrime v in
  0 < phiPrime
  /\ phiPrime * phiPrime
     = v * (phi * phi + sigmaPrime * sigmaPrime)
       / (v + phi * phi + sigmaPrime * sigmaPrime).
Proof.
  intros Hs Hv. cbn zeta. unfold UpdateRatingDeviation.
  assert (Hq : 0 < phi * phi + sigmaPrime * sigmaPrime) by nra.
  rewrite sqrt_sqrt by lra.
  set (q := phi * phi + sigmaPrime * sigmaPrime) in *.
  assert (Hsum : 0 < 1 / q + 1 / v).
  { apply Rplus_lt_0_compat; apply Rdiv_lt_0_compat; lra. }
  split.
  - apply Rdiv_lt_0_compat; [lra|]. now apply sqrt_lt_R0.
  - assert (Hsq : sqrt (1 / q + 1 / v) <> 0)
      by (apply Rgt_not_eq; now apply sqrt_lt_R0).
    replace (1 / sqrt (1 / q + 1 / v) * (1 / sqrt (1 / q + 1 / v)))
      with (1 / (sqrt (1 / q + 1 / v) * sqrt (1 / q + 1 / v)))
      by (field; assumption).
    rewrite sqrt_sqrt by lra. unfold q in *. field. lra.
Qed.


Lemma UpdateVolatility_illinois_converged
      (fuel : nat) (A B fA fB deltaSquared phiSquared v a tauSquared : R) :
  Rabs (B - A) <= kConvergence ->
  UpdateVolatility_illinois fuel A B fA fB deltaSquared phiSquared v a
                            tauSquared = Some A.
Proof.
  intro H. destruct fuel; simpl; destruct (Rgt_dec _ _); (lra || reflexivity).
Qed.

(** When [delta^2 - phi^2 - v] equals [sigma^2] both brackets start at
    [ln (sigma^2)] and neither loop body runs. *)
Lemma UpdateVolatility_brackets_coincide (fuel : nat) (sigma phi delta v : R) :
  delta * delta > phi * phi + v ->
  delta * delta - phi * phi - v = sigma * sigma ->
  UpdateVolatility fuel sigma phi delta v
  = Some (exp (ln (sigma * sigma) / 2)).
Proof.
  intros Hgt Heq. unfold UpdateVolatility.
  destruct (Rgt_dec _ _); [|contradiction].
  rewrite Heq, UpdateVolatility_illinois_converged; [reflexivity|].
  rewrite Rminus_diag, Rabs_R0. unfold kConvergence. lra.
Qed.

End EngineBasics.

Section EngineUpdates.
Import Engine.
Local Open Scope R_scope.

Lemma opponent_g_0 : opponent_g 0 = 1.
Proof.
  unfold opponent_g.
  replace (1 + 3 * (0 * 0) / (M_PI * M_PI)) with 1
    by (unfold Rdiv; ring).
  rewrite sqrt_1. lra.
Qed.

(** A winner (score 1) against a lone opponent at [mu = 0], [phi = 0] whose
    expected score is [E0 < 1/2], and whose [phi^2 + sigma^2] equals
    [delta^2 - v]: the volatility update returns [sigma] unchanged without
    entering either loop. *)
Lemma UpdatePlayerRating_brackets_coincide
      (fuel : nat) (player : PlayerRating) (E0 zScore : R) :
  0 < E0 < 1 / 2 ->
  mu player = - ln ((1 - E0) / E0) ->
  0 < sigma player ->
  phi player * phi player + sigma player * sigma player
    = (1 - 2 * E0) / (E0 * E0 * (1 - E0)) ->
  UpdatePlayerRating fuel player 0 0 1 zScore
  = Some (UpdatePlayerRating_finish player 1 E0 (1 / (E0 * (1 - E0))) 1
                                    zScore (sigma player)).
Proof.
  intros [HE0 HE1] Hmu Hsigma Hsum. unfold UpdatePlayerRating.
  rewrite opponent_g_0.
  assert (HE : ComputeExpectedScore player 0 1 = E0).
  { unfold ComputeExpectedScore, ComputeExpectedScore_exponent.
    rewrite Hmu.
    replace (- (1) * (- ln ((1 - E0) / E0) - 0)) with (ln ((1 - E0) / E0))
      by ring.
    rewrite exp_ln by (apply Rdiv_lt_0_compat; lra). field. lra. }
  rewrite HE.
  replace (ComputeVariance 1 E0) with (1 / (E0 * (1 - E0)))
    by (unfold ComputeVariance; field; lra).
  replace (ComputeDelta (1 / (E0 * (1 - E0))) 1 1 E0) with (1 / E0)
    by (unfold ComputeDelta; field; lra).
  unfold GetSigma, GetPhi.
  assert (Hd : 1 / E0 * (1 / E0) - phi player * phi player
               - 1 / (E0 * (1 - E0)) = sigma player * sigma player).
  { replace (phi player * phi player)
      with ((1 - 2 * E0) / (E0 * E0 * (1 - E0))
            - sigma player * sigma player) by lra.
    field. lra. }
  rewrite UpdateVolatility_brackets_coincide.
  - replace (ln (sigma player * sigma player) / 2) with (ln (sigma player)).
    + now rewrite exp_ln.
    + rewrite ln_mult by assumption. field.
  - assert (0 < sigma player * sigma player) by nra. lra.
  - exact Hd.
Qed.

Lemma close_winner_update (fuel : nat) (zScore : R) :
  UpdatePlayerRating fuel close_winner 0 0 1 zScore
  = Some (UpdatePlayerRating_finish close_winner 1 (49 / 100)
            (1 / (49 / 100 * (1 - 49 / 100))) 1 zScore (1 / 10)).
Proof.
  apply (UpdatePlayerRating_brackets_coincide fuel close_winner (49 / 100)).
  - lra.
  - reflexivity.
  - cbn. lra.
  - cbn [phi sigma close_winner]. rewrite sqrt_sqrt by lra. field.
Qed.

Lemma close_winner_deviation_grows (zScore : R) :
  let r := UpdatePlayerRating_finish close_winner 1 (49 / 100)
             (1 / (49 / 100 * (1 - 49 / 100))) 1 zScore (1 / 10) in
  GetPhi close_winner < GetPhi r.
Proof.
  cbn zeta. unfold UpdatePlayerRating_finish.
  cbn [GetPhi SetSigma SetPhi SetMu phi close_winner].
  destruct (UpdateRatingDeviation_square
              (sqrt (1877549 / 12245100)) (1 / 10)
              (1 / (49 / 100 * (1 - 49 / 100))) ltac:(lra) ltac:(lra))
    as [Hpos Hsq].
  rewrite sqrt_sqrt in Hsq by lra.
  set (phiPrime := UpdateRatingDeviation _ _ _) in *.
  assert (Hval : phiPrime * phiPrime = 980000 / 6245001)
    by (rewrite Hsq; field).
  assert (Hphi : sqrt (1877549 / 12245100) * sqrt (1877549 / 12245100)
                 = 1877549 / 12245100) by (apply sqrt_sqrt; lra).
  assert (Hnn : 0 <= sqrt (1877549 / 12245100)) by apply sqrt_pos.
  nra.
Qed.


Lemma ClampRatingChange_bound (mu muPrime : R) :
  Rabs (ClampRatingChange mu muPrime - mu) <= kMaxRatingChange.
Proof.
  unfold ClampRatingChange.
  destruct (Rgt_dec (Rabs (muPrime - mu)) kMaxRatingChange) as [Hbig | Hsmall].
  - destruct (Rgt_dec (muPrime - mu) 0).
    + replace (mu + kMaxRatingChange - mu) with kMaxRatingChange by ring.
      rewrite Rabs_pos_eq; unfold kMaxRatingChange; lra.
    + replace (mu - kMaxRatingChange - mu) with (- kMaxRatingChange) by ring.
      rewrite Rabs_Ropp, Rabs_pos_eq; unfold kMaxRatingChange; lra.
  - lra.
Qed.


(** The source's [min(fMax, max(fMin, f))] is [clamp] whenever the bounds
    are in order. *)
Lemma min_max_is_clamp (f fMin fMax : R) :
  fMin <= fMax -> Rmin fMax (Rmax fMin f) = clamp f fMin fMax.
Proof.
  intro H. unfold clamp, Rmin, Rmax.
  destruct (Rle_dec fMin f); destruct (Rlt_dec f fMin);
    destruct (Rlt_dec fMax f); destruct (Rle_dec fMax _); lra.
Qed.

Lemma signDeltaMu_sign (deltaMu : R) : signDeltaMu deltaMu = sign deltaMu.
Proof.
  unfold signDeltaMu, sign.
  destruct (Rge_dec deltaMu 0); destruct (Rlt_dec deltaMu 0); lra.
Qed.

Lemma ComputeScalingFactor_bounds (zScore deltaMu beta fMin fMax : R) :
  0 <= beta -> fMin <= 1 <= fMax -> 0 < zScore ->
  let f := ComputeScalingFactor zScore deltaMu beta fMin fMax in
  (0 < deltaMu -> 1 <= f) /\ (deltaMu < 0 -> f <= 1)
  /\ f = clamp (1 + beta * sign deltaMu * zScore) fMin fMax.
Proof.
  intros Hb [Hlo Hhi] Hz. cbn zeta. unfold ComputeScalingFactor.
  rewrite min_max_is_clamp by lra. rewrite signDeltaMu_sign.
  split; [|split; [|reflexivity]]; intro Hd; unfold sign, clamp;
    destruct (Rlt_dec deltaMu 0); try lra;
    assert (0 <= beta * zScore) by nra;
    repeat match goal with |- context [Rlt_dec ?a ?b] =>
                           destruct (Rlt_dec a b) end; lra.
Qed.

End EngineUpdates.

Section VolatilityLoops.
Import Engine.
Local Open Scope R_scope.

(** The first term of [VolatilityFunction] is above [-1/2]. *)
Lemma VolatilityFunction_first_term (x deltaSquared phiSquared v : R) :
  0 <= deltaSquared -> 0 < phiSquared + v ->
  - (1 / 2)
  < exp x * (deltaSquared - phiSquared - v - exp x)
    / (2 * (phiSquared + v + exp x) * (phiSquared + v + exp x)).
Proof.
  intros Hd Hp. pose proof (exp_pos x) as He.
  set (e := exp x) in *. set (P := phiSquared + v) in *.
  replace (deltaSquared - phiSquared - v - e) with (deltaSquared - P - e)
    by (unfold P; ring).
  assert (Hden : 0 < 2 * (P + e) * (P + e)) by nra.
  assert (Hnum : 0 < e * (deltaSquared - P - e) + (P + e) * (P + e)) by nra.
  assert (H : 0 < (e * (deltaSquared - P - e) + (P + e) * (P + e))
                  / (2 * (P + e) * (P + e)))
    by (apply Rdiv_lt_0_compat; assumption).
  replace ((e * (deltaSquared - P - e) + (P + e) * (P + e))
           / (2 * (P + e) * (P + e)))
    with (e * (deltaSquared - P - e) / (2 * (P + e) * (P + e)) + 1 / 2) in H
    by (field; lra).
  lra.
Qed.

(** The bracket search stops at its first test: [f (a - kTau) > 0]. *)
Lemma UpdateVolatility_findB_immediate
      (fuel : nat) (deltaSquared phiSquared v a : R) :
  0 <= deltaSquared -> 0 < phiSquared + v ->
  UpdateVolatility_findB fuel (a - kTau) deltaSquared phiSquared v a
                         (kTau * kTau) = Some (a - kTau).
Proof.
  intros Hd Hp.
  assert (H : 0 < VolatilityFunction (a - kTau) deltaSquared phiSquared v a
                                     (kTau * kTau)).
  { unfold VolatilityFunction.
    pose proof (VolatilityFunction_first_term (a - kTau) _ _ _ Hd Hp).
    replace ((a - kTau - a) / (kTau * kTau)) with (- 2)
      by (unfold kTau; field).
    lra. }
  destruct fuel; simpl; destruct (Rlt_dec _ _); (lra || reflexivity).
Qed.

(** Once the moving bracket end sits on a root, the Illinois loop repeats the
    same two ends for ever: no budget is enough. *)
Lemma UpdateVolatility_illinois_stalls
      (deltaSquared phiSquared v a tauSquared A B : R) :
  VolatilityFunction B deltaSquared phiSquared v a tauSquared = 0 ->
  Rabs (B - A) > kConvergence ->
  forall fuel fA,
    fA <> 0 ->
    UpdateVolatility_illinois fuel A B fA 0 deltaSquared phiSquared v a
                              tauSquared = None.
Proof.
  intros Hroot Hwide. induction fuel as [|fuel IH]; intros fA HfA;
    cbn [UpdateVolatility_illinois]; destruct (Rgt_dec _ _); try lra.
  - reflexivity.
  - replace (A + (A - B) * fA / (0 - fA)) with B by (field; lra).
    rewrite Hroot.
    destruct (Rlt_dec (0 * 0) 0); [lra|].
    apply IH. lra.
Qed.


(** When [delta^2 <= phi^2 + v] the bracket search of [UpdateVolatility]
    finds its sign change at the first point it tries: [f a < 0 < f (a - kTau)],
    and the Illinois loop starts from these two ends. *)
Lemma UpdateVolatility_bracket_search (fuel : nat) (sigma phi delta v : R) :
  0 < v ->
  delta * delta <= phi * phi + v ->
  let a := ln (sigma * sigma) in
  let f x :=
    VolatilityFunction x (delta * delta) (phi * phi) v a (kTau * kTau) in
  f a < 0 < f (a - kTau)
  /\ UpdateVolatility fuel sigma phi delta v
     = match UpdateVolatility_illinois fuel a (a - kTau) (f a) (f (a - kTau))
               (delta * delta) (phi * phi) v a (kTau * kTau) with
       | Some A' => Some (exp (A' / 2))
       | None => None
       end.
Proof.
  intros Hv Hle a f.
  assert (Hp : 0 < phi * phi + v) by nra.
  assert (Hd : 0 <= delta * delta) by nra.
  pose proof (UpdateVolatility_findB_immediate fuel _ _ _ a Hd Hp) as HB.
  split; [split|].
  - unfold f, VolatilityFunction.
    replace ((a - a) / (kTau * kTau)) with 0 by (unfold kTau; field).
    pose proof (exp_pos a) as He.
    assert (Hnum : exp a * (delta * delta - phi * phi - v - exp a) < 0)
      by nra.
    assert (Hden : 0 < 2 * (phi * phi + v + exp a) * (phi * phi + v + exp a))
      by nra.
    assert (0 < - (exp a * (delta * delta - phi * phi - v - exp a))
                / (2 * (phi * phi + v + exp a) * (phi * phi + v + exp a)))
      by (apply Rdiv_lt_0_compat; lra).
    unfold Rdiv in *. lra.
  - unfold f, VolatilityFunction.
    pose proof (VolatilityFunction_first_term (a - kTau) _ _ _ Hd Hp).
    replace ((a - kTau - a) / (kTau * kTau)) with (- 2)
      by (unfold kTau; field).
    lra.
  - unfold UpdateVolatility. fold a.
    destruct (Rgt_dec _ _); [lra|]. rewrite HB. reflexivity.
Qed.


(** If the first secant point of the Illinois loop is a root of
    [VolatilityFunction] (and farther than the tolerance from [a]),
    [UpdateVolatility] does not return, whatever the iteration budget. *)
Lemma UpdateVolatility_stalls (sigma phi delta v : R) :
  0 < v ->
  delta * delta <= phi * phi + v ->
  let a := ln (sigma * sigma) in
  let f x :=
    VolatilityFunction x (delta * delta) (phi * phi) v a (kTau * kTau) in
  let C := a + (a - (a - kTau)) * f a / (f (a - kTau) - f a) in
  f C = 0 ->
  Rabs (C - a) > kConvergence ->
  forall fuel, UpdateVolatility fuel sigma phi delta v = None.
Proof.
  intros Hv Hle a f C Hroot Hfar fuel.
  destruct (UpdateVolatility_bracket_search fuel sigma phi delta v Hv Hle)
    as [[HfA HfB] ->].
  change (ln (sigma * sigma)) with a.
  subst C f. cbv beta in HfA, HfB, Hroot, Hfar.
  assert (Hwide : Rabs (a - kTau - a) > kConvergence).
  { replace (a - kTau - a) with (- kTau) by ring.
    rewrite Rabs_Ropp, Rabs_pos_eq; unfold kTau, kConvergence; lra. }
  destruct fuel as [|fuel]; cbn [UpdateVolatility_illinois];
    destruct (Rgt_dec _ _); try lra; [reflexivity|].
  rewrite Hroot.
  destruct (Rlt_dec (0 * _) 0); [lra|].
  rewrite UpdateVolatility_illinois_stalls;
    [reflexivity|exact Hroot|exact Hfar|].
  change (ln (sigma * sigma)) with a in HfA. lra.
Qed.

End VolatilityLoops.

Section MatchProcessing.
Import Engine.
Local Open Scope R_scope.

Lemma vector_set_middle {T : Type} (done rest : list T) (x y : T) :
  vector_set (length done) y (done ++ x :: rest) = done ++ y :: rest.
Proof. induction done as [|d done IH]; simpl; [reflexivity | now rewrite IH]. Qed.

Lemma ProcessMatch_updateA_spec
      (fuel : nat) (statsB : TeamRatingStats) (weightsA : list PlayerWeight) :
  forall rest done m,
    teamA m = done ++ rest ->
    ProcessMatch_updateA fuel (length rest) (length done) statsB weightsA m
    = match updated_from fuel (length done) rest statsB (scoreA m) weightsA
      with
      | Some rest' =>
        Some {| teamA := done ++ rest'; teamB := teamB m;
                scoreA := scoreA m; scoreB := scoreB m |}
      | None => None
      end.
Proof.
  induction rest as [|x rest IH]; intros done m Hm.
  - cbn. rewrite app_nil_r in *. destruct m; cbn in *. now subst.
  - cbn [length ProcessMatch_updateA]. rewrite Hm, nth_middle.
    unfold updated_from. cbn [length seq combine map all_some fst snd].
    destruct (UpdatePlayerRating _ _ _ _ _ _) as [r|]; [|reflexivity].
    specialize (IH (done ++ [ {| rating := r;
                                 performanceScore := performanceScore x |} ])
                   (assign_ratingA m (length done) r)).
    rewrite length_app, Nat.add_1_r in IH. rewrite IH.
    + unfold updated_from. cbn [assign_ratingA scoreA scoreB teamB].
      destruct (all_some _); [|reflexivity]. now rewrite <- app_assoc.
    + unfold assign_ratingA. cbn [teamA]. rewrite Hm, nth_middle.
      rewrite vector_set_middle, <- app_assoc. reflexivity.
Qed.

Lemma ProcessMatch_updateB_spec
      (fuel : nat) (statsA : TeamRatingStats) (weightsB : list PlayerWeight) :
  forall rest done m,
    teamB m = done ++ rest ->
    ProcessMatch_updateB fuel (length rest) (length done) statsA weightsB m
    = match updated_from fuel (length done) rest statsA (scoreB m) weightsB
      with
      | Some rest' =>
        Some {| teamA := teamA m; teamB := done ++ rest';
                scoreA := scoreA m; scoreB := scoreB m |}
      | None => None
      end.
Proof.
  induction rest as [|x rest IH]; intros done m Hm.
  - cbn. rewrite app_nil_r in *. destruct m; cbn in *. now subst.
  - cbn [length ProcessMatch_updateB]. rewrite Hm, nth_middle.
    unfold updated_from. cbn [length seq combine map all_some fst snd].
    destruct (UpdatePlayerRating _ _ _ _ _ _) as [r|]; [|reflexivity].
    specialize (IH (done ++ [ {| rating := r;
                                 performanceScore := performanceScore x |} ])
                   (assign_ratingB m (length done) r)).
    rewrite length_app, Nat.add_1_r in IH. rewrite IH.
    + unfold updated_from. cbn [assign_ratingB scoreA scoreB teamA].
      destruct (all_some _); [|reflexivity]. now rewrite <- app_assoc.
    + unfold assign_ratingB. cbn [teamB]. rewrite Hm, nth_middle.
      rewrite vector_set_middle, <- app_assoc. reflexivity.
Qed.

Lemma ProcessMatch_is_snapshot (fuel : nat) (m : MatchResult) :
  ProcessMatch fuel m = ProcessMatch_snapshot fuel m.
Proof.
  unfold ProcessMatch, ProcessMatch_snapshot.
  rewrite (ProcessMatch_updateA_spec fuel _ _ (teamA m) [] m eq_refl).
  change (updated_from fuel (length (@nil MatchPlayer)) (teamA m))
    with (updated_team fuel (teamA m)).
  destruct (updated_team fuel (teamA m) _ _ _) as [a'|]; [|reflexivity].
  cbn [teamB app].
  rewrite (ProcessMatch_updateB_spec fuel _ _ (teamB m) []
             {| teamA := a'; teamB := teamB m;
                scoreA := scoreA m; scoreB := scoreB m |} eq_refl).
  cbn [scoreA scoreB teamA teamB app length].
  change (updated_from fuel 0 (teamB m)) with (updated_team fuel (teamB m)).
  reflexivity.
Qed.

Lemma ProcessMatch_B_first_is_snapshot (fuel : nat) (m : MatchResult) :
  ProcessMatch_B_first fuel m = ProcessMatch_snapshot fuel m.
Proof.
  unfold ProcessMatch_B_first, ProcessMatch_snapshot.
  rewrite (ProcessMatch_updateB_spec fuel _ _ (teamB m) [] m eq_refl).
  change (updated_from fuel (length (@nil MatchPlayer)) (teamB m))
    with (updated_team fuel (teamB m)).
  destruct (updated_team fuel (teamB m) _ _ _) as [b'|].
  - cbn [teamA app].
    rewrite (ProcessMatch_updateA_spec fuel _ _ (teamA m) []
               {| teamA := teamA m; teamB := b';
                  scoreA := scoreA m; scoreB := scoreB m |} eq_refl).
    cbn [scoreA scoreB teamA teamB app length].
    change (updated_from fuel 0 (teamA m)) with (updated_team fuel (teamA m)).
    reflexivity.
  - now destruct (updated_team fuel (teamA m) _ _ _).
Qed.

(** C10.  [ProcessMatch] is match processing from the pre-match snapshot:
    team A is updated against team B's aggregate and team B against the
    aggregate of team A as it was before any rating was replaced, each with
    the z-scores of the pre-match performance lists; writing team B first
    gives the same result. *)
Theorem ProcessMatch_uses_snapshot :
  forall fuel m,
    ProcessMatch fuel m = ProcessMatch_snapshot fuel m
    /\ ProcessMatch_B_first fuel m = ProcessMatch fuel m.
Proof.
  intros fuel m. split.
  - apply ProcessMatch_is_snapshot.
  - now rewrite ProcessMatch_B_first_is_snapshot, ProcessMatch_is_snapshot.
Qed.


Lemma close_winner_mu_negative : mu close_winner < 0.
Proof.
  cbn [mu close_winner].
  assert (0 < ln ((1 - 49 / 100) / (49 / 100))); [|lra].
  rewrite <- ln_1. apply ln_increasing; lra.
Qed.

Lemma close_winner_phi_nonneg : 0 <= phi close_winner.
Proof. apply sqrt_pos. Qed.

Lemma close_loser_update (fuel : nat) (zScore : R) :
  exists r,
    UpdatePlayerRating fuel close_loser (mu close_winner) (phi close_winner)
                       0 zScore = Some r
    /\ GetSigma r = GetSigma close_loser.
Proof.
  unfold UpdatePlayerRating.
  set (g := opponent_g (phi close_winner)).
  set (E := ComputeExpectedScore close_loser (mu close_winner) g).
  set (v := ComputeVariance g E).
  set (d := ComputeDelta v g 0 E).
  assert (Hsigma : GetSigma close_loser = sqrt (d * d - v)) by reflexivity.
  assert (Hg : 0 < g) by apply opponent_g_pos.
  assert (HE : 1 / 2 < E < 1).
  { split; [|apply ComputeExpectedScore_bounds].
    unfold E, ComputeExpectedScore, ComputeExpectedScore_exponent.
    cbn [mu close_loser].
    set (x := - g * (0 - mu close_winner)).
    assert (Hx : exp x < 1).
    { rewrite <- exp_0. apply exp_increasing. unfold x.
      pose proof close_winner_mu_negative. nra. }
    pose proof (exp_pos x).
    apply (Rmult_lt_reg_r (1 + exp x)); [lra|].
    unfold Rdiv at 2. rewrite Rmult_assoc, Rinv_l by lra. lra. }
  assert (Hv : v * (g * g * E * (1 - E)) = 1).
  { unfold v, ComputeVariance. field.
    repeat split; lra. }
  assert (Hvpos : 0 < v).
  { apply ComputeVariance_pos; lra. }
  assert (Hd : d * d - v > 0).
  { unfold d, ComputeDelta.
    assert (Hk : 0 < g * g * E * (1 - E)).
    { apply Rmult_lt_0_compat; [|lra].
      apply Rmult_lt_0_compat; [nra|lra]. }
    replace (v * g * (0 - E) * (v * g * (0 - E)) - v)
      with (v * (v * (g * g * E * (1 - E))) * (E / (1 - E)) - v)
      by (field; lra).
    rewrite Hv.
    assert (1 < E / (1 - E)).
    { apply (Rmult_lt_reg_r (1 - E)); [lra|].
      unfold Rdiv. rewrite Rmult_assoc, Rinv_l by lra. lra. }
    nra. }
  rewrite Hsigma.
  cbn [GetPhi phi close_loser].
  rewrite UpdateVolatility_brackets_coincide.
  - eexists. split; [reflexivity|].
    unfold UpdatePlayerRating_finish, GetSigma, SetSigma. cbn [sigma].
    rewrite sqrt_sqrt by lra.
    assert (Hs : 0 < sqrt (d * d - v)) by (apply sqrt_lt_R0; lra).
    replace (ln (d * d - v))
      with (ln (sqrt (d * d - v) * sqrt (d * d - v)))
      by (now rewrite sqrt_sqrt by lra).
    rewrite ln_mult by assumption.
    replace ((ln (sqrt (d * d - v)) + ln (sqrt (d * d - v))) / 2)
      with (ln (sqrt (d * d - v))) by field.
    now rewrite exp_ln.
  - lra.
  - rewrite sqrt_sqrt by lra. ring.
Qed.

Lemma ComputeTeamStats_single (p : PlayerRating) :
  0 <= phi p ->
  ComputeTeamStats [p]
  = {| stats_mu := mu p; stats_phi := phi p; teamSize := 1 |}.
Proof.
  intro Hphi.
  unfold ComputeTeamStats, ComputeTeamMu, ComputeTeamPhi, GetMu, GetPhi.
  cbn [length Nat.eqb fold_left INR].
  f_equal.
  - field.
  - replace ((0 + phi p * phi p) / (1 * 1)) with (phi p * phi p) by field.
    now apply sqrt_square.
Qed.

Lemma ComputeZScores_single (score : R) :
  map zScore (ComputeZScores [score]) = [0].
Proof.
  unfold ComputeZScores, ComputeMean, ComputeZScore.
  cbn [length seq combine map fold_left fst snd zScore INR].
  f_equal. unfold Rdiv.
  replace ((0 + score) * / 1) with score by field. ring.
Qed.

(** [ProcessMatch] runs to completion on [close_match], whatever the
    iteration budget, and hands both players their single-opponent update
    against the other's pre-match rating. *)
Lemma ProcessMatch_close_match (fuel : nat) :
  exists rA rB,
    ProcessMatch fuel close_match
    = Some {| teamA := [ {| rating := rA; performanceScore := 3 |} ];
              teamB := [ {| rating := rB; performanceScore := 1 |} ];
              scoreA := 1; scoreB := 0 |}
    /\ UpdatePlayerRating fuel close_winner 0 0 1 0 = Some rA
    /\ UpdatePlayerRating fuel close_loser (mu close_winner)
                          (phi close_winner) 0 0 = Some rB.
Proof.
  destruct (close_loser_update fuel 0) as (rB & HrB & _).
  eexists. exists rB. split; [|split; [apply close_winner_update|exact HrB]].
  rewrite ProcessMatch_is_snapshot.
  unfold ProcessMatch_snapshot, updated_team, updated_from, close_match.
  cbn [teamA teamB scoreA scoreB map combine seq length fst snd rating
       performanceScore].
  rewrite (ComputeTeamStats_single close_winner close_winner_phi_nonneg).
  rewrite (ComputeTeamStats_single close_loser) by (cbn; lra).
  cbn [stats_mu stats_phi].
  replace (zScore (nth 0 (ComputeZScores [3]) PlayerWeight_default)) with 0.
  2:{ pose proof (ComputeZScores_single 3) as H.
      destruct (ComputeZScores [3]) as [|w ws]; [discriminate|].
      cbn in H. injection H as H _. cbn. now rewrite H. }
  replace (zScore (nth 0 (ComputeZScores [1]) PlayerWeight_default)) with 0.
  2:{ pose proof (ComputeZScores_single 1) as H.
      destruct (ComputeZScores [1]) as [|w ws]; [discriminate|].
      cbn in H. injection H as H _. cbn. now rewrite H. }
  change (mu close_loser) with 0. change (phi close_loser) with 0.
  rewrite close_winner_update, HrB. reflexivity.
Qed.


Lemma updated_from_nth
      (fuel : nat) (opp : TeamRatingStats) (score : R)
      (weights : list PlayerWeight) :
  forall rest first rest',
    updated_from fuel first rest opp score weights = Some rest' ->
    length rest' = length rest
    /\ forall i,
        (i < length rest)%nat ->
        exists r,
          UpdatePlayerRating fuel (rating (nth i rest MatchPlayer_default))
            (stats_mu opp) (stats_phi opp) score
            (zScore (nth (first + i) weights PlayerWeight_default)) = Some r
          /\ nth i rest' MatchPlayer_default
             = {| rating := r;
                  performanceScore :=
                    performanceScore (nth i rest MatchPlayer_default) |}.
Proof.
  unfold updated_from.
  induction rest as [|x rest IH]; intros first rest' H.
  - cbn in H. injection H as <-. split; [reflexivity|]. cbn. lia.
  - cbn [length seq combine map all_some fst snd] in H.
    destruct (UpdatePlayerRating _ _ _ _ _ _) as [r|] eqn:Hr; [|discriminate].
    destruct (all_some _) as [xs|] eqn:Hxs; [|discriminate].
    injection H as <-.
    destruct (IH (S first) xs Hxs) as [Hlen Hnth].
    split; [cbn; now rewrite Hlen|].
    intros [|i] Hi.
    + exists r. rewrite Nat.add_0_r. now split.
    + cbn [length] in Hi. destruct (Hnth i ltac:(lia)) as (r' & Hr' & Hn).
      exists r'. rewrite Nat.add_succ_r. now split.
Qed.

(** Every participant of a processed match carries the result of
    [UpdatePlayerRating] on its own pre-match rating, against the aggregate
    of the opposing roster as it was before the match, with the z-score of
    its own team; rosters keep their size, performance scores and outcome
    scores are untouched. *)
Lemma ProcessMatch_participants (fuel : nat) (m m' : MatchResult) :
  ProcessMatch fuel m = Some m' ->
  let statsA := ComputeTeamStats (map rating (teamA m)) in
  let statsB := ComputeTeamStats (map rating (teamB m)) in
  let weightsA := ComputeZScores (map performanceScore (teamA m)) in
  let weightsB := ComputeZScores (map performanceScore (teamB m)) in
  scoreA m' = scoreA m /\ scoreB m' = scoreB m
  /\ length (teamA m') = length (teamA m)
  /\ length (teamB m') = length (teamB m)
  /\ (forall i,
        (i < length (teamA m))%nat ->
        exists r,
          UpdatePlayerRating fuel (rating (nth i (teamA m) MatchPlayer_default))
            (stats_mu statsB) (stats_phi statsB) (scoreA m)
            (zScore (nth i weightsA PlayerWeight_default)) = Some r
          /\ nth i (teamA m') MatchPlayer_default
             = {| rating := r;
                  performanceScore :=
                    performanceScore (nth i (teamA m) MatchPlayer_default) |})
  /\ (forall i,
        (i < length (teamB m))%nat ->
        exists r,
          UpdatePlayerRating fuel (rating (nth i (teamB m) MatchPlayer_default))
            (stats_mu statsA) (stats_phi statsA) (scoreB m)
            (zScore (nth i weightsB PlayerWeight_default)) = Some r
          /\ nth i (teamB m') MatchPlayer_default
             = {| rating := r;
                  performanceScore :=
                    performanceScore (nth i (teamB m) MatchPlayer_default) |}).
Proof.
  rewrite ProcessMatch_is_snapshot. unfold ProcessMatch_snapshot, updated_team.
  destruct (updated_from fuel 0 (teamA m) _ _ _) as [a'|] eqn:Ha;
    [|discriminate].
  destruct (updated_from fuel 0 (teamB m) _ _ _) as [b'|] eqn:Hb;
    [|discriminate].
  intros [= <-]. cbn zeta. cbn [teamA teamB scoreA scoreB].
  destruct (updated_from_nth _ _ _ _ _ _ _ Ha) as [HlenA HnthA].
  destruct (updated_from_nth _ _ _ _ _ _ _ Hb) as [HlenB HnthB].
  repeat split; try assumption.
Qed.

(** No participant's mean moves by more than [kMaxRatingChange] in a
    processed match. *)
Lemma ProcessMatch_mean_change_bounded (fuel : nat) (m m' : MatchResult) :
  ProcessMatch fuel m = Some m' ->
  (forall i,
      (i < length (teamA m))%nat ->
      Rabs (GetMu (rating (nth i (teamA m') MatchPlayer_default))
            - GetMu (rating (nth i (teamA m) MatchPlayer_default)))
      <= kMaxRatingChange)
  /\ (forall i,
        (i < length (teamB m))%nat ->
        Rabs (GetMu (rating (nth i (teamB m') MatchPlayer_default))
              - GetMu (rating (nth i (teamB m) MatchPlayer_default)))
        <= kMaxRatingChange).
Proof.
  intro H. destruct (ProcessMatch_participants fuel m m' H)
    as (_ & _ & _ & _ & HA & HB).
  split; intros i Hi;
    [destruct (HA i Hi) as (r & Hr & ->) | destruct (HB i Hi) as (r & Hr & ->)];
    cbn [rating]; unfold UpdatePlayerRating in Hr;
    destruct (UpdateVolatility _ _ _ _ _); try discriminate;
    injection Hr as <-;
    unfold UpdatePlayerRating_finish, GetMu, SetSigma, SetPhi, SetMu;
    cbn [mu kEnableRatingClamp]; apply ClampRatingChange_bound.
Qed.

End MatchProcessing.

Section EngineClaims.
Import Engine.
Local Open Scope R_scope.

(** C2.  With the configured [kBeta], [kScaleMin], [kScaleMax] and a z-score
    above 0: a positive pending change gives a factor of at least 1, a
    negative one a factor of at most 1, and the factor is
    [clamp (1 + kBeta * sign pendingChange * z) kScaleMin kScaleMax]. *)
Theorem ComputeScalingFactor_sign_aware :
  forall zScore pendingChange,
    0 < zScore ->
    let f :=
      ComputeScalingFactor zScore pendingChange kBeta kScaleMin kScaleMax in
    (0 < pendingChange -> 1 <= f)
    /\ (pendingChange < 0 -> f <= 1)
    /\ f = clamp (1 + kBeta * sign pendingChange * zScore)
                 kScaleMin kScaleMax.
Proof.
  intros zScore pendingChange Hz.
  apply ComputeScalingFactor_bounds; unfold kBeta, kScaleMin, kScaleMax; lra.
Qed.

Lemma ComputeScalingFactor_sign_aware_witness :
  1 <= ComputeScalingFactor 2 1 kBeta kScaleMin kScaleMax
  /\ ComputeScalingFactor 2 (-1) kBeta kScaleMin kScaleMax <= 1.
Proof.
  split.
  - apply (ComputeScalingFactor_sign_aware 2 1); lra.
  - apply (ComputeScalingFactor_sign_aware 2 (-1)); lra.
Defined.

(** C4 (as stated, refuted).  The exponent handed to [exp] is not clamped:
    no bound holds for it over all inputs. *)
Lemma ComputeExpectedScore_exponent_unclamped :
  ~ exists bound,
      forall player muOpp gOpp,
        Rabs (ComputeExpectedScore_exponent player muOpp gOpp) <= bound.
Proof.
  intros [bound H].
  specialize (H {| mu := Rabs bound + 1; phi := 0; sigma := 0;
                   perfIndexEMA := 0; perfGames := 0 |} 0 1).
  unfold ComputeExpectedScore_exponent in H. cbn [mu] in H.
  replace (- (1) * (Rabs bound + 1 - 0)) with (- (Rabs bound + 1)) in H
    by ring.
  rewrite Rabs_Ropp in H.
  pose proof (Rabs_pos bound). pose proof (Rle_abs bound).
  rewrite Rabs_pos_eq in H; lra.
Qed.

(** C4 (amended).  In exact arithmetic [ComputeExpectedScore] is
    [1 / (1 + exp (- gOpp * (mu - muOpp)))], with the exponent as it is, and
    lies strictly between 0 and 1; the variance that [UpdatePlayerRating]
    computes from it is positive. *)
Theorem ComputeExpectedScore_strictly_inside :
  forall player muOpp gOpp,
    ComputeExpectedScore player muOpp gOpp
      = 1 / (1 + exp (- gOpp * (GetMu player - muOpp)))
    /\ 0 < ComputeExpectedScore player muOpp gOpp < 1
    /\ forall opponentPhi,
         0 < ComputeVariance (opponent_g opponentPhi)
               (ComputeExpectedScore player muOpp (opponent_g opponentPhi)).
Proof.
  intros player muOpp gOpp. split; [reflexivity|].
  split; [apply ComputeExpectedScore_bounds|].
  intro opponentPhi. apply ComputeVariance_pos.
  - apply Rgt_not_eq, opponent_g_pos.
  - apply ComputeExpectedScore_bounds.
Qed.

(** C6 (as stated, refuted).  [close_winner] beating a lone opponent at
    [mu = 0], [phi = 0] leaves the update with a larger deviation than it
    entered with. *)
Lemma UpdatePlayerRating_deviation_can_grow :
  exists r,
    UpdatePlayerRating 0 close_winner 0 0 1 0 = Some r
    /\ GetPhi close_winner < GetPhi r.
Proof.
  eexists. split.
  - apply close_winner_update.
  - apply close_winner_deviation_grows.
Qed.

(** C6 (amended).  The emitted deviation is positive and strictly below the
    inflated deviation [sqrt (phi^2 + sigma'^2)], [sigma'] being the emitted
    volatility; for [phi >= 0] it exceeds the pre-match deviation exactly
    when [phi^2 * (phi^2 + sigma'^2) < v * sigma'^2]. *)
Theorem UpdatePlayerRating_deviation :
  forall fuel player opponentMu opponentPhi outcomeScore zScore r,
    UpdatePlayerRating fuel player opponentMu opponentPhi outcomeScore zScore
      = Some r ->
    let phi := GetPhi player in
    let sigmaPrime := GetSigma r in
    let g := opponent_g opponentPhi in
    let v := ComputeVariance g (ComputeExpectedScore player opponentMu g) in
    0 < GetPhi r
    /\ GetPhi r < sqrt (phi * phi + sigmaPrime * sigmaPrime)
    /\ (0 <= phi ->
        (phi < GetPhi r
         <-> phi * phi * (phi * phi + sigmaPrime * sigmaPrime)
             < v * (sigmaPrime * sigmaPrime))).
Proof.
  intros fuel player opponentMu opponentPhi outcomeScore zScore r Hr.
  unfold UpdatePlayerRating in Hr.
  destruct (UpdateVolatility _ _ _ _ _) as [s|] eqn:Hvol; [|discriminate].
  injection Hr as <-. cbn zeta.
  unfold UpdatePlayerRating_finish, GetPhi, GetSigma, SetSigma, SetPhi, SetMu.
  cbn [phi sigma].
  apply UpdateVolatility_pos in Hvol.
  set (g := opponent_g opponentPhi).
  set (v := ComputeVariance g (ComputeExpectedScore player opponentMu g)).
  assert (Hv : 0 < v).
  { apply ComputeVariance_pos.
    - apply Rgt_not_eq, opponent_g_pos.
    - apply ComputeExpectedScore_bounds. }
  destruct (UpdateRatingDeviation_square (Engine.phi player) s v Hvol Hv)
    as [Hpos Hsq].
  set (p := UpdateRatingDeviation (Engine.phi player) s v) in *.
  set (q := Engine.phi player * Engine.phi player + s * s) in *.
  assert (Hq : 0 < q) by (unfold q; nra).
  assert (Hpp : p * p * (v + q) = v * q).
  { rewrite Hsq. unfold q. field. unfold q in Hq. lra. }
  split; [assumption|]. split.
  - apply Rsqr_incrst_0; [|lra|apply sqrt_pos].
    unfold Rsqr. rewrite sqrt_sqrt by lra. nra.
  - intro Hphi. unfold q in *. split; intro H.
    + assert (Engine.phi player * Engine.phi player < p * p) by nra. nra.
    + assert (Engine.phi player * Engine.phi player < p * p) by nra. nra.
Qed.

Lemma UpdatePlayerRating_deviation_witness :
  exists r,
    UpdatePlayerRating 0 close_winner 0 0 1 0 = Some r
    /\ 0 < GetPhi r.
Proof.
  eexists. split.
  - apply close_winner_update.
  - apply (UpdatePlayerRating_deviation 0 close_winner 0 0 1 0).
    apply close_winner_update.
Defined.

End EngineClaims.

Section Binary64.
Import Floats.
Local Open Scope float_scope.

(** On binary64 the expected score of a finite but extreme rating gap is
    exactly 1 or exactly 0, and the variance computed from it is
    [+infinity]. *)
Lemma binary64_expected_score_saturates :
  EngineBinary64.ComputeExpectedScore 800 0 1 = Some 1
  /\ EngineBinary64.ComputeExpectedScore (-800) 0 1 = Some 0
  /\ EngineBinary64.ComputeVariance 1 1 = infinity
  /\ EngineBinary64.ComputeVariance 1 0 = infinity.
Proof. repeat split; vm_compute; reflexivity. Qed.

End Binary64.

(* ================================================================== *)
(** * Empty rosters and pools that are too small *)
(* ================================================================== *)

Section EmptyInputs.
Local Open Scope R_scope.

(** C5 (as stated, refuted).  Nothing is rejected: the aggregate of an empty
    roster is the value [(0, 0, 0)]; a match against an empty team B is
    processed, team A being updated against that aggregate; the balancer
    returns an assignment for an empty pool and for a pool of one player. *)
Lemma empty_inputs_are_processed :
  Engine.ComputeTeamStats []
    = {| Engine.stats_mu := 0; Engine.stats_phi := 0; Engine.teamSize := 0 |}
  /\ (exists r,
        Engine.ProcessMatch 0 Engine.match_against_nobody
        = Some {| Engine.teamA := [ {| Engine.rating := r;
                                       Engine.performanceScore := 0 |} ];
                  Engine.teamB := [];
                  Engine.scoreA := 1;
                  Engine.scoreB := 0 |}
        /\ Engine.UpdatePlayerRating 0 Engine.close_winner 0 0 1 0 = Some r)
  /\ (exists a,
        Balancer.BalanceTeams [] Balancer.BalancerConfig_default = Some a
        /\ Balancer.team0PlayerIds a = []
        /\ Balancer.team1PlayerIds a = [])
  /\ (exists a,
        Balancer.BalanceTeams Balancer.pool1
                              Balancer.BalancerConfig_default = Some a
        /\ Balancer.team0PlayerIds a = []
        /\ Balancer.team1PlayerIds a = []).
Proof.
  split; [reflexivity|]. split.
  - eexists. split; [|apply close_winner_update].
    rewrite ProcessMatch_is_snapshot.
    unfold Engine.ProcessMatch_snapshot, Engine.updated_team,
      Engine.updated_from, Engine.match_against_nobody.
    cbn [Engine.teamA Engine.teamB Engine.scoreA Engine.scoreB
         map combine seq length fst snd Engine.rating
         Engine.performanceScore Engine.all_some].
    replace (Engine.ComputeTeamStats [])
      with {| Engine.stats_mu := 0; Engine.stats_phi := 0;
              Engine.teamSize := 0 |} by reflexivity.
    cbn [Engine.stats_mu Engine.stats_phi].
    replace (Engine.zScore _) with 0.
    + rewrite close_winner_update. reflexivity.
    + cbn. unfold Engine.ComputeZScore. cbn. unfold Rdiv. ring.
  - split; eexists; (split; [vm_compute; reflexivity|]); split; reflexivity.
Qed.

(** C5 (amended).  An empty roster is aggregated to the sentinel
    [TeamRatingStats()], i.e. [(0, 0)] with size 0; [ProcessMatch] makes no
    emptiness check, so with an empty team B team A is updated against that
    sentinel (and the other way round); for fewer than two players
    [BalanceTeams] returns a default [TeamAssignment] with no ids and
    objective value 0. *)
Theorem empty_inputs_yield_sentinels :
  Engine.ComputeTeamStats [] = Engine.TeamRatingStats_default
  /\ (forall fuel m,
        Engine.teamB m = [] ->
        Engine.ProcessMatch fuel m
        = match Engine.updated_team fuel (Engine.teamA m)
                  Engine.TeamRatingStats_default (Engine.scoreA m)
                  (Engine.ComputeZScores
                     (map Engine.performanceScore (Engine.teamA m))) with
          | Some a' =>
            Some {| Engine.teamA := a'; Engine.teamB := [];
                    Engine.scoreA := Engine.scoreA m;
                    Engine.scoreB := Engine.scoreB m |}
          | None => None
          end)
  /\ (forall fuel m,
        Engine.teamA m = [] ->
        Engine.ProcessMatch fuel m
        = match Engine.updated_team fuel (Engine.teamB m)
                  Engine.TeamRatingStats_default (Engine.scoreB m)
                  (Engine.ComputeZScores
                     (map Engine.performanceScore (Engine.teamB m))) with
          | Some b' =>
            Some {| Engine.teamA := []; Engine.teamB := b';
                    Engine.scoreA := Engine.scoreA m;
                    Engine.scoreB := Engine.scoreB m |}
          | None => None
          end)
  /\ (forall players config,
        (length players < 2)%nat ->
        Balancer.BalanceTeams players config
        = Some (Balancer.set_objectiveValue
                  Balancer.TeamAssignment_default PrimFloat.zero)).
Proof.
  split; [reflexivity|]. split; [|split].
  - intros fuel m Hb. rewrite ProcessMatch_is_snapshot.
    unfold Engine.ProcessMatch_snapshot. rewrite Hb.
    destruct (Engine.updated_team fuel (Engine.teamA m) _ _ _); reflexivity.
  - intros fuel m Ha. rewrite ProcessMatch_is_snapshot.
    unfold Engine.ProcessMatch_snapshot. rewrite Ha.
    change (Engine.updated_team fuel [] _ _ _) with (Some (@nil Engine.MatchPlayer)).
    destruct (Engine.updated_team fuel (Engine.teamB m) _ _ _); reflexivity.
  - intros players config Hn.
    unfold Balancer.BalanceTeams, Balancer.BalanceTeams_sorted.
    apply Nat.ltb_lt in Hn. now rewrite Hn.
Qed.

Lemma empty_inputs_yield_sentinels_witness :
  Engine.ProcessMatch 0 Engine.match_against_nobody
  = match Engine.updated_team 0 (Engine.teamA Engine.match_against_nobody)
            Engine.TeamRatingStats_default 1
            (Engine.ComputeZScores [0]) with
    | Some a' =>
      Some {| Engine.teamA := a'; Engine.teamB := [];
              Engine.scoreA := 1; Engine.scoreB := 0 |}
    | None => None
    end
  /\ Balancer.BalanceTeams [] Balancer.BalancerConfig_default
     = Some (Balancer.set_objectiveValue
               Balancer.TeamAssignment_default PrimFloat.zero).
Proof.
  split.
  - apply (proj1 (proj2 empty_inputs_yield_sentinels) 0%nat
                 Engine.match_against_nobody).
    reflexivity.
  - apply (proj2 (proj2 (proj2 empty_inputs_yield_sentinels)) []
                 Balancer.BalancerConfig_default).
    simpl. lia.
Defined.

End EmptyInputs.

(* ================================================================== *)
(** * PlayerRating: scales, inactivity decay, recent performance *)
(* ================================================================== *)

Section RatingScales.
Import Floats.
Import Engine.
Import RatingState.
Local Open Scope R_scope.

Lemma kScale_pos : 0 < kScale.
Proof. unfold kScale. lra. Qed.

(** X1.  In exact arithmetic the Glicko-1 accessors invert the Glicko-1
    setters and the constructor, and the setters invert the accessors.  In
    binary64 the round trip is not exact: a rating deviation of 30 and a
    rating of 500 given to the constructor are not read back as 30 and
    500. *)
Theorem scale_round_trip :
  forall (r : PlayerRating) (rating rd vol : R),
    GetRating (SetRating r rating) = rating
    /\ GetRD (SetRD r rd) = rd
    /\ GetVolatility (SetVolatility r vol) = vol
    /\ SetRating r (GetRating r) = r
    /\ SetRD r (GetRD r) = r
    /\ GetRating (PlayerRating_new rating rd vol) = rating
    /\ GetRD (PlayerRating_new rating rd vol) = rd
    /\ GetVolatility (PlayerRating_new rating rd vol) = vol
    /\ PrimFloat.eqb
         (Balancer.GetRD
            (Balancer.PlayerRating_new 1500%float 30%float 0.06%float))
         30%float = false
    /\ PrimFloat.eqb
         (Balancer.GetRating
            (Balancer.PlayerRating_new 500%float 350%float 0.06%float))
         500%float = false.
Proof.
  intros r rating rd vol. pose proof kScale_pos as Hk.
  unfold GetRating, GetRD, GetVolatility, SetRating, SetRD, SetVolatility,
    PlayerRating_new; cbn [mu phi sigma].
  repeat split; try (field; lra); try (vm_compute; reflexivity).
  - destruct r as [m p s e g]; cbn [mu phi sigma perfIndexEMA perfGames].
    f_equal. field. lra.
  - destruct r as [m p s e g]; cbn [mu phi sigma perfIndexEMA perfGames].
    f_equal. field. lra.
Qed.

End RatingScales.

Section InactivityDecay.
Import Engine.
Import RatingState.
Local Open Scope R_scope.

Lemma maxPhi_pos : 0 < kMaxRD / kScale.
Proof. unfold kMaxRD, kDefaultRD, kScale. lra. Qed.

Lemma Int_part_ge_1 (x : R) : 1 <= x -> (1 <= Int_part x)%Z.
Proof.
  intro H. destruct (base_Int_part x) as [_ Hlow].
  assert (0 < IZR (Int_part x)) by lra.
  apply lt_IZR in H0. lia.
Qed.

Lemma static_cast_int_ge_1 (x : R) : 1 <= x -> (1 <= static_cast_int x)%Z.
Proof.
  intro H. unfold static_cast_int. destruct (Rle_dec 0 x); [|lra].
  now apply Int_part_ge_1.
Qed.

Lemma Int_part_IZR (n : Z) : Int_part (IZR n) = n.
Proof.
  symmetry. apply Int_part_spec. split; [|lra].
  assert (IZR (n - 1) < IZR n) by (apply IZR_lt; lia).
  rewrite minus_IZR in H. lra.
Qed.

Lemma static_cast_int_IZR (n : Z) : static_cast_int (IZR n) = n.
Proof.
  unfold static_cast_int. destruct (Rle_dec 0 (IZR n)) as [H | H].
  - apply Int_part_IZR.
  - rewrite <- opp_IZR, Int_part_IZR. lia.
Qed.

Lemma DecayForInactivity_loop_step (n : nat) (phi sigma : R) :
  DecayForInactivity_loop (S n) phi sigma
  = if Rgt_dec (sqrt (phi * phi + sigma * sigma)) (kMaxRD / kScale)
    then kMaxRD / kScale
    else DecayForInactivity_loop n (sqrt (phi * phi + sigma * sigma)) sigma.
Proof. reflexivity. Qed.

(** The decay loop in closed form: [n >= 1] periods widen the deviation to
    [sqrt (phi^2 + n * sigma^2)], capped at [kMaxRD / kScale]. *)
Lemma DecayForInactivity_loop_closed (n : nat) :
  forall phi sigma,
    DecayForInactivity_loop (S n) phi sigma
    = Rmin (kMaxRD / kScale)
           (sqrt (phi * phi + INR (S n) * (sigma * sigma))).
Proof.
  induction n as [|n IH]; intros phi sigma; rewrite DecayForInactivity_loop_step.
  - cbn [DecayForInactivity_loop INR].
    replace (phi * phi + 1 * (sigma * sigma))
      with (phi * phi + sigma * sigma) by ring.
    unfold Rmin. destruct (Rgt_dec _ _); destruct (Rle_dec _ _); lra.
  - assert (Hmono : sqrt (phi * phi + sigma * sigma)
                    <= sqrt (phi * phi + INR (S (S n)) * (sigma * sigma))).
    { apply sqrt_le_1_alt. rewrite S_INR.
      pose proof (pos_INR (S n)). nra. }
    destruct (Rgt_dec _ _) as [Hcap | Hfree].
    + unfold Rmin. destruct (Rle_dec _ _); lra.
    + rewrite IH. rewrite sqrt_sqrt by nra.
      f_equal. f_equal. rewrite (S_INR (S n)). ring.
Qed.

(** What [DecayForInactivity] does to an inactive player. *)
Lemma DecayForInactivity_inactive
      (r : PlayerRating) (rounds : Z) (deltaDays : R) (minRounds : Z)
      (daysPerPeriod : R) :
  (rounds < minRounds)%Z ->
  1 <= deltaDays / daysPerPeriod ->
  DecayForInactivity r rounds deltaDays minRounds daysPerPeriod
  = SetPhi r (Rmin (kMaxRD / kScale)
                   (sqrt (phi r * phi r
                          + IZR (Int_part (deltaDays / daysPerPeriod))
                            * (sigma r * sigma r)))).
Proof.
  intros Hinact Hone. unfold DecayForInactivity.
  destruct (Z.leb_spec minRounds rounds); [lia|].
  destruct (Rlt_dec _ _); [lra|].
  pose proof (static_cast_int_ge_1 _ Hone) as Hn.
  destruct (Z.to_nat (static_cast_int (deltaDays / daysPerPeriod)))
    as [|k] eqn:Hcount; [lia|].
  rewrite DecayForInactivity_loop_closed, <- Hcount.
  rewrite INR_IZR_INZ, Z2Nat.id by lia.
  unfold static_cast_int. destruct (Rle_dec _ _); [reflexivity | lra].
Qed.

(** X2.  [DecayForInactivity] changes nothing but the deviation.  It leaves
    an active player, and a player inactive for less than one period,
    untouched; otherwise the new deviation is
    [min (kMaxRD / kScale) (sqrt (phi^2 + n * sigma^2))], where [n] is the
    number of whole periods in [deltaDays]. *)
Theorem DecayForInactivity_closed_form :
  forall r roundsInPastDays deltaDays minRoundsForActivity daysPerPeriod,
    let r' := DecayForInactivity r roundsInPastDays deltaDays
                                 minRoundsForActivity daysPerPeriod in
    let inactivePeriods := deltaDays / daysPerPeriod in
    (GetMu r' = GetMu r /\ GetSigma r' = GetSigma r
     /\ perfIndexEMA r' = perfIndexEMA r /\ perfGames r' = perfGames r)
    /\ ((minRoundsForActivity <= roundsInPastDays)%Z \/ inactivePeriods < 1 ->
        r' = r)
    /\ ((roundsInPastDays < minRoundsForActivity)%Z ->
        1 <= inactivePeriods ->
        GetPhi r'
        = Rmin (kMaxRD / kScale)
               (sqrt (GetPhi r * GetPhi r
                      + IZR (Int_part inactivePeriods)
                        * (GetSigma r * GetSigma r)))).
Proof.
  intros r rounds deltaDays minRounds daysPerPeriod. cbn zeta.
  split; [|split].
  - unfold DecayForInactivity.
    destruct (_ <=? _)%Z; [tauto|]. destruct (Rlt_dec _ _); tauto.
  - unfold DecayForInactivity. intros [H | H].
    + destruct (Z.leb_spec minRounds rounds); [reflexivity | lia].
    + destruct (_ <=? _)%Z; [reflexivity|].
      destruct (Rlt_dec _ _); [reflexivity | lra].
  - intros Hinact Hone. now rewrite DecayForInactivity_inactive.
Qed.

Lemma DecayForInactivity_closed_form_witness :
  GetPhi (DecayForInactivity PlayerRating_default 0 14 3 7)
  = Rmin (kMaxRD / kScale)
         (sqrt (GetPhi PlayerRating_default * GetPhi PlayerRating_default
                + IZR (Int_part (14 / 7))
                  * (GetSigma PlayerRating_default
                     * GetSigma PlayerRating_default)))
  /\ DecayForInactivity PlayerRating_default 5 14 3 7 = PlayerRating_default.
Proof.
  split.
  - apply (DecayForInactivity_closed_form PlayerRating_default 0 14 3 7);
      [lia | lra].
  - apply (DecayForInactivity_closed_form PlayerRating_default 5 14 3 7).
    left. lia.
Defined.

(** X3.  When the decay applies, the deviation ends at or below the ceiling
    [kMaxRD]; a deviation that started between 0 and the ceiling does not
    shrink, and one that started above the ceiling is lowered to it. *)
Theorem DecayForInactivity_deviation_range :
  forall r roundsInPastDays deltaDays minRoundsForActivity daysPerPeriod,
    (roundsInPastDays < minRoundsForActivity)%Z ->
    1 <= deltaDays / daysPerPeriod ->
    let r' := DecayForInactivity r roundsInPastDays deltaDays
                                 minRoundsForActivity daysPerPeriod in
    GetRD r' <= kMaxRD
    /\ (0 <= GetRD r <= kMaxRD -> GetRD r <= GetRD r')
    /\ (kMaxRD < GetRD r -> GetRD r' = kMaxRD).
Proof.
  intros r rounds deltaDays minRounds daysPerPeriod Hinact Hone. cbn zeta.
  rewrite DecayForInactivity_inactive by assumption.
  pose proof kScale_pos as Hk. pose proof maxPhi_pos as HM.
  pose proof (Int_part_ge_1 _ Hone) as Hn. apply IZR_le in Hn.
  set (n := IZR (Int_part (deltaDays / daysPerPeriod))) in *.
  set (s := sqrt (phi r * phi r + n * (sigma r * sigma r))) in *.
  assert (Hsq : phi r * phi r <= phi r * phi r + n * (sigma r * sigma r))
    by nra.
  assert (Hs : sqrt (phi r * phi r) <= s) by (now apply sqrt_le_1_alt).
  assert (HM' : kMaxRD = kMaxRD / kScale * kScale) by (field; lra).
  unfold GetRD, SetPhi; cbn [phi].
  split; [|split].
  - rewrite HM' at 2. apply Rmult_le_compat_r; [lra | apply Rmin_l].
  - intros [H0 H1].
    assert (Hp : 0 <= phi r) by nra.
    rewrite sqrt_square in Hs by assumption.
    assert (phi r <= kMaxRD / kScale).
    { apply (Rmult_le_reg_r kScale); [lra|]. now rewrite <- HM'. }
    apply Rmult_le_compat_r; [lra|].
    unfold Rmin. destruct (Rle_dec _ _); lra.
  - intro Hbig.
    assert (Hp : kMaxRD / kScale < phi r).
    { apply (Rmult_lt_reg_r kScale); [lra|]. now rewrite <- HM'. }
    rewrite sqrt_square in Hs by lra.
    rewrite Rmin_left by lra. lra.
Qed.

Lemma DecayForInactivity_deviation_range_witness :
  GetRD (DecayForInactivity (PlayerRating_new 1500 100 (6 / 100)) 0 30 3 7)
  <= kMaxRD
  /\ GetRD (PlayerRating_new 1500 100 (6 / 100))
     <= GetRD (DecayForInactivity (PlayerRating_new 1500 100 (6 / 100))
                                  0 30 3 7).
Proof.
  pose proof (DecayForInactivity_deviation_range
                (PlayerRating_new 1500 100 (6 / 100)) 0 30 3 7
                ltac:(lia) ltac:(lra)) as (Hcap & Hgrow & _).
  split; [exact Hcap|]. apply Hgrow.
  replace (GetRD (PlayerRating_new 1500 100 (6 / 100))) with 100
    by (unfold GetRD, PlayerRating_new, kScale; cbn [phi]; field).
  unfold kMaxRD, kDefaultRD. lra.
Defined.

(** X4.  Two spells of inactivity of [n1] and [n2] whole periods decay the
    rating exactly like one spell of [n1 + n2] periods. *)
Theorem DecayForInactivity_additive :
  forall r roundsInPastDays minRoundsForActivity daysPerPeriod (n1 n2 : Z),
    (roundsInPastDays < minRoundsForActivity)%Z ->
    0 < daysPerPeriod ->
    (1 <= n1)%Z -> (1 <= n2)%Z ->
    DecayForInactivity
      (DecayForInactivity r roundsInPastDays (IZR n1 * daysPerPeriod)
                          minRoundsForActivity daysPerPeriod)
      roundsInPastDays (IZR n2 * daysPerPeriod)
      minRoundsForActivity daysPerPeriod
    = DecayForInactivity r roundsInPastDays (IZR (n1 + n2) * daysPerPeriod)
                         minRoundsForActivity daysPerPeriod.
Proof.
  intros r rounds minRounds P n1 n2 Hinact HP H1 H2.
  assert (Hper : forall n, IZR n * P / P = IZR n) by (intro; field; lra).
  assert (Hdecay : forall q n, (1 <= n)%Z ->
            DecayForInactivity q rounds (IZR n * P) minRounds P
            = SetPhi q (Rmin (kMaxRD / kScale)
                             (sqrt (phi q * phi q
                                    + IZR n * (sigma q * sigma q))))).
  { intros q n Hn. apply IZR_le in Hn as Hn'.
    rewrite DecayForInactivity_inactive;
      [rewrite Hper; now rewrite Int_part_IZR | assumption
      | rewrite Hper; assumption]. }
  rewrite !Hdecay by lia.
  unfold SetPhi; cbn [mu phi sigma perfIndexEMA perfGames].
  f_equal.
  pose proof maxPhi_pos as HM.
  apply IZR_le in H1, H2. rewrite plus_IZR.
  set (M := kMaxRD / kScale) in *.
  set (p2 := phi r * phi r) in *. set (s2 := sigma r * sigma r) in *.
  assert (Hp2 : 0 <= p2) by (unfold p2; nra).
  assert (Hs2 : 0 <= s2) by (unfold s2; nra).
  assert (Hmono : sqrt (p2 + IZR n1 * s2)
                  <= sqrt (p2 + (IZR n1 + IZR n2) * s2))
    by (apply sqrt_le_1_alt; nra).
  destruct (Rle_dec M (sqrt (p2 + IZR n1 * s2))) as [Hc | Hf].
  - rewrite (Rmin_left M (sqrt (p2 + IZR n1 * s2))) by lra.
    rewrite (Rmin_left M (sqrt (p2 + (IZR n1 + IZR n2) * s2))) by lra.
    apply Rmin_left.
    rewrite <- (sqrt_square M) at 1 by lra.
    apply sqrt_le_1_alt. nra.
  - rewrite (Rmin_right M (sqrt (p2 + IZR n1 * s2))) by lra.
    rewrite sqrt_sqrt by nra.
    f_equal. f_equal. ring.
Qed.

Lemma DecayForInactivity_additive_witness :
  DecayForInactivity
    (DecayForInactivity PlayerRating_default 0 (IZR 2 * 7) 3 7)
    0 (IZR 3 * 7) 3 7
  = DecayForInactivity PlayerRating_default 0 (IZR (2 + 3) * 7) 3 7.
Proof.
  apply (DecayForInactivity_additive PlayerRating_default 0 3 7 2 3);
    (lia || lra).
Defined.

End InactivityDecay.

Section RecentPerformance.
Import Engine.
Import RatingState.
Local Open Scope R_scope.

Lemma clip_is_clipped (z : R) :
  Rmax (- kMaxPerfZScore) (Rmin z kMaxPerfZScore) = clipped z.
Proof.
  unfold clipped, Rmax, Rmin, kMaxPerfZScore.
  destruct (Rle_dec z 3); destruct (Rle_dec (- (3)) _);
    destruct (Rlt_dec z (- (3))); destruct (Rlt_dec 3 z); lra.
Qed.

Lemma clipped_range (z : R) : - kMaxPerfZScore <= clipped z <= kMaxPerfZScore.
Proof.
  unfold clipped, kMaxPerfZScore.
  destruct (Rlt_dec z (- (3))); [lra|]. destruct (Rlt_dec 3 z); lra.
Qed.

(** X5.  With a target window of at least one game, a recent-performance
    index within [-kMaxPerfZScore, kMaxPerfZScore] stays within that range
    after any reported match, and the game counter grows by one. *)
Theorem UpdateRecentPerformance_bounded :
  forall r matchPerfIndex targetWindow,
    1 <= targetWindow ->
    Rabs (GetPerfIndexEMA r) <= kMaxPerfZScore ->
    let r' := UpdateRecentPerformance r matchPerfIndex targetWindow in
    Rabs (GetPerfIndexEMA r') <= kMaxPerfZScore
    /\ GetPerfGames r' = (GetPerfGames r + 1)%Z.
Proof.
  intros r z tw Htw Hold. cbn zeta.
  unfold GetPerfIndexEMA, GetPerfGames in *.
  unfold UpdateRecentPerformance; cbn [perfIndexEMA perfGames].
  split; [|reflexivity].
  rewrite clip_is_clipped. pose proof (clipped_range z) as Hc.
  assert (Hold' : - kMaxPerfZScore <= perfIndexEMA r <= kMaxPerfZScore)
    by (revert Hold; unfold Rabs; destruct (Rcase_abs _); lra).
  clear Hold. rename Hold' into Hold. apply Rabs_le.
  set (c := clipped z) in *. set (e := perfIndexEMA r) in *.
  assert (Halpha : forall alpha, 0 <= alpha <= 1 ->
            - kMaxPerfZScore <= (1 - alpha) * e + alpha * c <= kMaxPerfZScore).
  { intros alpha [Ha0 Ha1]. unfold kMaxPerfZScore in *. nra. }
  apply Halpha.
  destruct (Z.leb_spec (perfGames r) 0) as [Hfirst | Hlater]; [lra|].
  destruct (Z.ltb_spec (perfGames r) (static_cast_int tw)).
  - apply IZR_lt in Hlater.
    assert (Hpos : 0 < IZR (perfGames r) + 1) by lra.
    split.
    + apply Rlt_le, Rdiv_lt_0_compat; lra.
    + apply (Rmult_le_reg_r (IZR (perfGames r) + 1)); [lra|].
      unfold Rdiv. rewrite Rmult_assoc, Rinv_l by lra. lra.
  - assert (Hpos : 0 < tw + 1) by lra.
    split.
    + apply Rlt_le, Rdiv_lt_0_compat; lra.
    + apply (Rmult_le_reg_r (tw + 1)); [lra|].
      unfold Rdiv. rewrite Rmult_assoc, Rinv_l by lra. lra.
Qed.

Lemma UpdateRecentPerformance_bounded_witness :
  Rabs (GetPerfIndexEMA
          (UpdateRecentPerformance PlayerRating_default 5 kPerfTargetWindow))
  <= kMaxPerfZScore.
Proof.
  apply (UpdateRecentPerformance_bounded PlayerRating_default 5
           kPerfTargetWindow).
  - unfold kPerfTargetWindow. lra.
  - unfold GetPerfIndexEMA, PlayerRating_default, PlayerRating_new,
      kMaxPerfZScore; cbn [perfIndexEMA].
    rewrite Rabs_R0. lra.
Defined.

Lemma after_matches_weighted (targetWindow : R) :
  forall l r,
    (0 <= perfGames r)%Z ->
    (perfGames r + Z.of_nat (length l) <= static_cast_int targetWindow)%Z ->
    let r' := after_matches r l targetWindow in
    perfGames r' = (perfGames r + Z.of_nat (length l))%Z
    /\ (l <> [] ->
        perfIndexEMA r' * IZR (perfGames r')
        = perfIndexEMA r * IZR (perfGames r) + total (map clipped l)).
Proof.
  induction l as [|z l IH]; intros r Hg Hw; cbn zeta.
  - cbn. split; [lia | congruence].
  - cbn [after_matches fold_left length] in *.
    set (r1 := UpdateRecentPerformance r z targetWindow).
    assert (Hg1 : perfGames r1 = (perfGames r + 1)%Z) by reflexivity.
    assert (He1 : perfIndexEMA r1 * IZR (perfGames r1)
                  = perfIndexEMA r * IZR (perfGames r) + clipped z).
    { rewrite Hg1, plus_IZR. unfold r1, UpdateRecentPerformance;
        cbn [perfIndexEMA perfGames]. rewrite clip_is_clipped.
      destruct (Z.leb_spec (perfGames r) 0) as [H0 | Hpos].
      - replace (perfGames r) with 0%Z by lia. cbn. ring.
      - destruct (Z.ltb_spec (perfGames r) (static_cast_int targetWindow));
          [|lia].
        apply IZR_lt in Hpos. field. lra. }
    specialize (IH r1). fold (after_matches r1 l targetWindow) in *.
    destruct IH as [IHg IHe]; [lia | lia |].
    split; [lia|]. intros _.
    destruct l as [|z' l'].
    + cbn [after_matches fold_left map total fold_right]. rewrite He1. ring.
    + rewrite IHe by discriminate. rewrite He1.
      cbn [map total fold_right]. ring.
Qed.

(** X6.  Bootstrap phase.  For a rating with no game recorded, after the
    first [n] reported matches, [n] not above the whole part of the target
    window, the recent-performance index is the arithmetic mean of the [n]
    clipped match indices, and [n] games are recorded. *)
Theorem UpdateRecentPerformance_bootstrap_mean :
  forall r l targetWindow,
    GetPerfGames r = 0%Z ->
    l <> [] ->
    (Z.of_nat (length l) <= static_cast_int targetWindow)%Z ->
    let r' := after_matches r l targetWindow in
    GetPerfIndexEMA r' = total (map clipped l) / INR (length l)
    /\ GetPerfGames r' = Z.of_nat (length l).
Proof.
  intros r l tw Hg Hne Hlen. cbn zeta. unfold GetPerfIndexEMA, GetPerfGames in *.
  destruct (after_matches_weighted tw l r) as [Hgames Hmean]; [lia | lia |].
  specialize (Hmean Hne). rewrite Hg in *. cbn [Z.add] in Hgames.
  split; [|exact Hgames].
  rewrite Hgames, <- INR_IZR_INZ in Hmean.
  assert (Hn : 0 < INR (length l)).
  { apply lt_0_INR. destruct l; [congruence | cbn; lia]. }
  apply (Rmult_eq_reg_r (INR (length l))); [|lra].
  rewrite Hmean. cbn. field. lra.
Qed.

Lemma UpdateRecentPerformance_bootstrap_mean_witness :
  GetPerfIndexEMA (after_matches PlayerRating_default [1; 5; -1] (IZR 10))
  = total (map clipped [1; 5; -1]) / INR (length [1; 5; -1]).
Proof.
  apply (UpdateRecentPerformance_bootstrap_mean PlayerRating_default
           [1; 5; -1] (IZR 10)).
  - reflexivity.
  - discriminate.
  - rewrite static_cast_int_IZR. cbn. lia.
Defined.

(** X7.  For a non-negative deviation the recent rating differs from the
    Glicko rating by at most [min (2 RD) 200], and the effective rating lies
    between the Glicko rating and the recent rating, within
    [min RD 100] of the former.  A rating whose recent-performance index is
    0 has all three equal. *)
Theorem ComputeEffectiveRating_range :
  forall r perfToRating rdScale,
    0 <= GetPhi r ->
    rdScale <> 0 ->
    let r_g := GetRating r in
    let r_rec := ComputeRecentRating r perfToRating in
    let r_eff := ComputeEffectiveRating r perfToRating rdScale in
    Rabs (r_rec - r_g) <= Rmin (2 * GetRD r) 200
    /\ Rabs (r_eff - r_g) <= Rmin (GetRD r) 100
    /\ Rmin r_g r_rec <= r_eff <= Rmax r_g r_rec
    /\ (GetPerfIndexEMA r = 0 -> r_rec = r_g /\ r_eff = r_g).
Proof.
  intros r p c Hphi Hc. cbn zeta.
  unfold ComputeEffectiveRating, ComputeRecentRating, GetPerfIndexEMA.
  pose proof kScale_pos as Hk. unfold GetPhi in Hphi.
  assert (Hrd : 0 <= GetRD r) by (unfold GetRD; nra).
  set (rd := GetRD r) in *. set (g := GetRating r).
  set (maxBoost := Rmin (2 * rd) 200).
  assert (HmB : 0 <= maxBoost)
    by (unfold maxBoost, Rmin; destruct (Rle_dec _ _); lra).
  set (boost := Rmax (- maxBoost) (Rmin (perfIndexEMA r * p) maxBoost)).
  assert (Hboost : - maxBoost <= boost <= maxBoost).
  { unfold boost, Rmax, Rmin.
    destruct (Rle_dec (perfIndexEMA r * p) maxBoost);
      destruct (Rle_dec (- maxBoost) _); lra. }
  assert (Hcc : 0 < c * c) by nra.
  assert (Hden : 0 < rd * rd + c * c) by nra.
  set (w := 1 / 2 * (rd * rd / (rd * rd + c * c))).
  assert (Hw : 0 <= w <= 1 / 2).
  { assert (0 <= rd * rd / (rd * rd + c * c) <= 1).
    { split.
      - apply Rmult_le_pos; [nra | left; now apply Rinv_0_lt_compat].
      - apply (Rmult_le_reg_r (rd * rd + c * c)); [lra|].
        unfold Rdiv. rewrite Rmult_assoc, Rinv_l by lra. nra. }
    unfold w. lra. }
  replace (g + boost - g) with boost by ring.
  replace (g + w * boost - g) with (w * boost) by ring.
  assert (Hhalf : Rmin rd 100 = maxBoost / 2).
  { unfold maxBoost, Rmin.
    destruct (Rle_dec rd 100); destruct (Rle_dec (2 * rd) 200); lra. }
  split; [|split; [|split]].
  - apply Rabs_le. lra.
  - rewrite Hhalf. apply Rabs_le. nra.
  - unfold Rmin, Rmax. destruct (Rle_dec g (g + boost)); nra.
  - intro Hzero. unfold boost. rewrite Hzero, Rmult_0_l.
    assert (Hb0 : Rmax (- maxBoost) (Rmin 0 maxBoost) = 0).
    { unfold Rmax, Rmin. destruct (Rle_dec 0 maxBoost);
        destruct (Rle_dec (- maxBoost) _); lra. }
    rewrite Hb0. split; ring.
Qed.

Lemma ComputeEffectiveRating_range_witness :
  Rabs (ComputeEffectiveRating PlayerRating_default kPerfToRating
                               kRDScaleConstant
        - GetRating PlayerRating_default)
  <= Rmin (GetRD PlayerRating_default) 100.
Proof.
  apply (ComputeEffectiveRating_range PlayerRating_default kPerfToRating
           kRDScaleConstant).
  - unfold GetPhi, PlayerRating_default, PlayerRating_new, kDefaultRD, kScale;
      cbn [phi]. lra.
  - unfold kRDScaleConstant. lra.
Defined.

End RecentPerformance.

(* ================================================================== *)
(** * Team aggregates and z-scores *)
(* ================================================================== *)

Section Sums.
Import RatingState.
Local Open Scope R_scope.

Lemma fold_left_total {A : Type} (f : A -> R) (l : list A) (a : R) :
  fold_left (fun s x => s + f x) l a = a + total (map f l).
Proof.
  unfold total. revert a.
  induction l as [|x l IH]; intro a; cbn [fold_left map fold_right].
  - ring.
  - rewrite IH. ring.
Qed.

Lemma total_cons (x : R) (l : list R) : total (x :: l) = x + total l.
Proof. reflexivity. Qed.

Lemma total_app (l1 l2 : list R) : total (l1 ++ l2) = total l1 + total l2.
Proof.
  induction l1 as [|x l1 IH]; cbn [app].
  - unfold total at 2. cbn. ring.
  - rewrite !total_cons, IH. ring.
Qed.

Lemma total_between {A : Type} (f : A -> R) (l : list A) (lo hi : R) :
  (forall x, In x l -> lo <= f x <= hi) ->
  INR (length l) * lo <= total (map f l) <= INR (length l) * hi.
Proof.
  induction l as [|x l IH]; intro H.
  - cbn. lra.
  - cbn [length map]. rewrite total_cons, S_INR.
    specialize (H x (or_introl eq_refl)) as Hx.
    assert (Hl : forall y, In y l -> lo <= f y <= hi)
      by (intros y Hy; apply H; now right).
    specialize (IH Hl). lra.
Qed.

Lemma total_shift (l : list R) (c s : R) :
  total (map (fun x => (x - c) / s) l)
  = (total l - INR (length l) * c) / s.
Proof.
  induction l as [|x l IH].
  - cbn. unfold Rdiv. ring.
  - cbn [length map]. rewrite !total_cons, IH, S_INR. unfold Rdiv. ring.
Qed.

Lemma total_minus (l : list R) (c : R) :
  total (map (fun y => y - c) l) = total l - INR (length l) * c.
Proof.
  induction l as [|y l IH].
  - cbn. ring.
  - cbn [length map]. rewrite !total_cons, IH, S_INR. ring.
Qed.

Lemma total_squares_nonneg {A : Type} (f : A -> R) (l : list A) :
  0 <= total (map (fun x => f x * f x) l).
Proof.
  induction l as [|x l IH]; [cbn; lra|].
  cbn [map]. rewrite total_cons. nra.
Qed.

(** Cauchy-Schwarz against the constant vector. *)
Lemma total_square_le (l : list R) :
  total l * total l <= INR (length l) * total (map (fun x => x * x) l).
Proof.
  induction l as [|a l IH].
  - cbn. lra.
  - cbn [length map]. rewrite !total_cons, S_INR.
    pose proof (total_squares_nonneg (fun x : R => x) l) as HQ.
    set (S := total l) in *. set (Q := total (map (fun x => x * x) l)) in *.
    set (k := INR (length l)) in *.
    assert (Hk : 0 <= k) by apply pos_INR.
    assert (Hcross : 2 * a * S <= k * (a * a) + Q).
    { destruct (Req_dec k 0) as [Hz | Hnz].
      - assert (S * S <= 0) by (rewrite Hz in IH; lra).
        assert (HS : S = 0) by nra. rewrite HS, Hz. lra.
      - assert (0 < k) by lra.
        apply (Rmult_le_reg_l k); [assumption|].
        pose proof (Rle_0_sqr (k * a - S)) as Hsqr. unfold Rsqr in Hsqr.
        nra. }
    nra.
Qed.

(** No element lies further from the mean than [sqrt (n - 1)] standard
    deviations (Samuelson's inequality), in the form free of divisions. *)
Lemma deviation_from_mean (l : list R) (x : R) :
  In x l ->
  let n := INR (length l) in
  let m := total l / n in
  n * ((x - m) * (x - m))
  <= (n - 1) * total (map (fun y => (y - m) * (y - m)) l).
Proof.
  intros Hin n m.
  assert (Hn : 0 < n).
  { unfold n. apply lt_0_INR. destruct l; [contradiction | cbn; lia]. }
  apply in_split in Hin. destruct Hin as (l1 & l2 & Hl).
  set (rest := map (fun y => y - m) (l1 ++ l2)).
  assert (Hlen : n = INR (length rest) + 1).
  { unfold n, rest. rewrite Hl, length_map, !length_app. cbn [length].
    rewrite <- S_INR. f_equal. lia. }
  assert (Hsum : total rest = - (x - m)).
  { assert (Hall : total (map (fun y => y - m) l) = 0).
    { rewrite total_minus. fold n. unfold m. field. lra. }
    rewrite Hl, map_app, total_app in Hall. cbn [map] in Hall.
    rewrite total_cons in Hall.
    unfold rest. rewrite map_app, total_app. lra. }
  assert (Hsq : total (map (fun y => (y - m) * (y - m)) l)
                = (x - m) * (x - m) + total (map (fun y => y * y) rest)).
  { rewrite Hl, map_app, total_app. cbn [map]. rewrite total_cons.
    unfold rest. rewrite map_map, map_app, total_app. ring. }
  pose proof (total_square_le rest) as Hcs.
  rewrite Hsum in Hcs. rewrite Hsq.
  set (d := x - m) in *. set (Q := total (map (fun y => y * y) rest)) in *.
  rewrite Hlen. set (k := INR (length rest)) in *.
  assert (Hk : 0 <= k) by apply pos_INR.
  replace (- d * - d) with (d * d) in Hcs by ring.
  nra.
Qed.

End Sums.

Section TeamAggregates.
Import Engine.
Import RatingState.
Local Open Scope R_scope.

(** X8.  For a non-empty roster the aggregated mean lies between the
    smallest and the largest member mean, the aggregated deviation is
    non-negative and at most the largest member deviation divided by
    [sqrt (team size)], and [teamSize] is the roster size. *)
Theorem ComputeTeamStats_range :
  forall team lo hi bound,
    team <> [] ->
    (forall p, In p team -> lo <= GetMu p <= hi) ->
    (forall p, In p team -> Rabs (GetPhi p) <= bound) ->
    let stats := ComputeTeamStats team in
    lo <= stats_mu stats <= hi
    /\ 0 <= stats_phi stats <= bound / sqrt (INR (length team))
    /\ teamSize stats = length team.
Proof.
  intros team lo hi bound Hne Hmu Hphi. cbn zeta.
  assert (Hn : 0 < INR (length team)).
  { apply lt_0_INR. destruct team; [congruence | cbn; lia]. }
  unfold ComputeTeamStats.
  replace (length team =? 0)%nat with false
    by (symmetry; apply Nat.eqb_neq; destruct team; [congruence | discriminate]).
  cbn [stats_mu stats_phi teamSize].
  split; [|split; [|reflexivity]].
  - unfold ComputeTeamMu. destruct team as [|p0 t] eqn:Ht; [congruence|].
    rewrite <- Ht in *. rewrite fold_left_total, Rplus_0_l.
    pose proof (total_between GetMu team lo hi Hmu) as [Hlo Hhi].
    split.
    + apply (Rmult_le_reg_r (INR (length team))); [assumption|].
      unfold Rdiv. rewrite Rmult_assoc, Rinv_l by lra. lra.
    + apply (Rmult_le_reg_r (INR (length team))); [assumption|].
      unfold Rdiv. rewrite Rmult_assoc, Rinv_l by lra. lra.
  - unfold ComputeTeamPhi. destruct team as [|p0 t] eqn:Ht; [congruence|].
    rewrite <- Ht in *.
    rewrite (fold_left_total (fun player => GetPhi player * GetPhi player)),
      Rplus_0_l.
    assert (Hb : 0 <= bound).
    { specialize (Hphi p0). rewrite Ht in Hphi.
      specialize (Hphi (or_introl eq_refl)).
      pose proof (Rabs_pos (GetPhi p0)). lra. }
    assert (Hsq : forall p, In p team ->
                    0 <= GetPhi p * GetPhi p <= bound * bound).
    { intros p Hp. specialize (Hphi p Hp).
      assert (- bound <= GetPhi p <= bound)
        by (revert Hphi; unfold Rabs; destruct (Rcase_abs _); lra).
      nra. }
    pose proof (total_between (fun p => GetPhi p * GetPhi p) team _ _ Hsq)
      as [Hlo Hhi].
    set (n := INR (length team)) in *.
    set (Q := total (map (fun p => GetPhi p * GetPhi p) team)) in *.
    split; [apply sqrt_pos|].
    replace (bound / sqrt n) with (sqrt (bound * bound / n)).
    + apply sqrt_le_1_alt.
      apply (Rmult_le_reg_r (n * n)); [nra|].
      replace (Q / (n * n) * (n * n)) with Q by (field; lra).
      replace (bound * bound / n * (n * n)) with (n * (bound * bound))
        by (field; lra).
      assumption.
    + rewrite sqrt_div_alt by assumption. now rewrite sqrt_square.
Qed.

Lemma ComputeTeamStats_range_witness :
  mu close_winner
  <= stats_mu (ComputeTeamStats [PlayerRating_default; close_winner])
  <= 0.
Proof.
  apply (ComputeTeamStats_range [PlayerRating_default; close_winner]
           (mu close_winner) 0 (350 / kScale + phi close_winner)).
  - discriminate.
  - pose proof close_winner_mu_negative as Hneg.
    intros p [<- | [<- | []]]; unfold GetMu.
    + cbn [mu PlayerRating_default PlayerRating_new].
      unfold kDefaultRating, Rdiv, Rminus.
      rewrite Rplus_opp_r, Rmult_0_l. lra.
    + lra.
  - pose proof close_winner_phi_nonneg as Hphi.
    assert (Hd : 0 <= 350 / kScale) by (unfold kScale; lra).
    intros p [<- | [<- | []]]; unfold GetPhi; rewrite Rabs_pos_eq.
    + cbn [phi PlayerRating_default PlayerRating_new]. unfold kDefaultRD. lra.
    + cbn [phi PlayerRating_default PlayerRating_new]. unfold kDefaultRD. lra.
    + lra.
    + assumption.
Defined.

End TeamAggregates.

Section ZScores.
Import Engine.
Import RatingState.
Local Open Scope R_scope.

Lemma map_snd_combine {A B : Type} (l : list A) (l' : list B) :
  length l = length l' -> map snd (combine l l') = l'.
Proof.
  revert l'. induction l as [|x l IH]; intros [|y l'] H; cbn in *;
    try discriminate; [reflexivity|].
  f_equal. apply IH. lia.
Qed.

Lemma ComputeZScores_zScores (scores : list R) :
  map zScore (ComputeZScores scores)
  = map (fun p => ComputeZScore p (ComputeMean scores)
                    (ComputeStdDev scores (ComputeMean scores))) scores.
Proof.
  unfold ComputeZScores. destruct scores as [|p0 t] eqn:Hs; [reflexivity|].
  rewrite <- Hs. rewrite map_map. cbn [zScore].
  rewrite <- (map_map snd (fun p => ComputeZScore p _ _)).
  now rewrite map_snd_combine by (now rewrite length_seq).
Qed.

Lemma ComputeMean_total (scores : list R) :
  scores <> [] -> ComputeMean scores = total scores / INR (length scores).
Proof.
  intro H. unfold ComputeMean. destruct scores as [|p0 t] eqn:Hs; [congruence|].
  rewrite <- Hs.
  rewrite (fold_left_total (fun x => x)), map_id. now rewrite Rplus_0_l.
Qed.

Lemma ComputeStdDev_total (scores : list R) (mean : R) :
  scores <> [] ->
  ComputeStdDev scores mean
  = sqrt (total (map (fun s => (s - mean) * (s - mean)) scores)
          / INR (length scores)) + kEpsilon.
Proof.
  intro H. unfold ComputeStdDev.
  destruct scores as [|p0 t] eqn:Hs; [congruence|].
  rewrite <- Hs.
  rewrite (fold_left_total (fun s => (s - mean) * (s - mean))).
  now rewrite Rplus_0_l.
Qed.

Lemma ComputeStdDev_pos (scores : list R) (mean : R) :
  kEpsilon <= ComputeStdDev scores mean.
Proof.
  unfold ComputeStdDev. destruct scores; [lra|].
  pose proof (sqrt_pos
    (fold_left (fun sumSquares score =>
                  let diff := score - mean in sumSquares + diff * diff)
               (r :: scores) 0 / INR (length (r :: scores)))).
  lra.
Qed.

(** X9.  [ComputeZScores] returns one entry per score, entry [i] carrying
    index [i], the raw score and its z-score against the team mean and the
    team deviation; the deviation is at least [kEpsilon], so no division by
    zero occurs, and the z-scores of a team sum to zero. *)
Theorem ComputeZScores_shape :
  forall scores,
    let weights := ComputeZScores scores in
    let mean := ComputeMean scores in
    let stddev := ComputeStdDev scores mean in
    length weights = length scores
    /\ kEpsilon <= stddev
    /\ (forall i,
          (i < length scores)%nat ->
          let w := nth i weights PlayerWeight_default in
          playerIndex w = Z.of_nat i
          /\ weight_performanceScore w = nth i scores 0
          /\ zScore w = (nth i scores 0 - mean) / stddev)
    /\ total (map zScore weights) = 0.
Proof.
  intro scores. cbn zeta.
  split; [|split; [apply ComputeStdDev_pos|split]].
  - unfold ComputeZScores. destruct scores as [|p0 t] eqn:Hs; [reflexivity|].
    rewrite <- Hs. rewrite length_map, length_combine, length_seq.
    apply Nat.min_id.
  - intros i Hi. unfold ComputeZScores.
    destruct scores as [|p0 t] eqn:Hs; [cbn in Hi; lia|]. rewrite <- Hs in *.
    set (f := fun ip : nat * R => _).
    rewrite (nth_indep _ PlayerWeight_default (f (0%nat, 0)))
      by (now rewrite length_map, length_combine, length_seq, Nat.min_id).
    rewrite map_nth, combine_nth by (now rewrite length_seq).
    rewrite seq_nth by assumption.
    unfold f. cbn [fst snd playerIndex weight_performanceScore zScore].
    repeat split.
  - rewrite ComputeZScores_zScores. unfold ComputeZScore.
    rewrite total_shift.
    destruct scores as [|p0 t] eqn:Hs.
    + cbn. unfold Rdiv. ring.
    + rewrite <- Hs in *.
      rewrite ComputeMean_total by (rewrite Hs; discriminate).
      assert (Hn : 0 < INR (length scores))
        by (apply lt_0_INR; rewrite Hs; cbn; lia).
      replace (total scores
               - INR (length scores) * (total scores / INR (length scores)))
        with 0 by (field; lra).
      unfold Rdiv. ring.
Qed.

Lemma ComputeZScore_square_le (scores : list R) (p : R) :
  In p scores ->
  let z := ComputeZScore p (ComputeMean scores)
             (ComputeStdDev scores (ComputeMean scores)) in
  z * z <= INR (length scores) - 1.
Proof.
  intros Hin. cbn zeta.
  assert (Hne : scores <> []) by (destruct scores; [contradiction | discriminate]).
  assert (Hn : 0 < INR (length scores)).
  { apply lt_0_INR. destruct scores; [congruence | cbn; lia]. }
  pose proof (deviation_from_mean scores p Hin) as Hdev. cbn zeta in Hdev.
  rewrite ComputeStdDev_total, ComputeMean_total by assumption.
  set (n := INR (length scores)) in *. set (m := total scores / n) in *.
  set (Q := total (map (fun s => (s - m) * (s - m)) scores)) in *.
  assert (HQ : 0 <= Q) by apply (total_squares_nonneg (fun s => s - m)).
  assert (HV : 0 <= Q / n).
  { apply Rmult_le_pos; [assumption | left; now apply Rinv_0_lt_compat]. }
  pose proof (sqrt_pos (Q / n)) as Hs.
  pose proof (sqrt_sqrt (Q / n) HV) as Hss.
  set (s := sqrt (Q / n)) in *.
  assert (Heps : 0 < kEpsilon) by (unfold kEpsilon; lra).
  assert (Hsd : 0 < s + kEpsilon) by lra.
  unfold ComputeZScore. set (d := p - m) in *.
  replace (d / (s + kEpsilon) * (d / (s + kEpsilon)))
    with (d * d / ((s + kEpsilon) * (s + kEpsilon))) by (field; lra).
  assert (Hn1 : 0 <= n - 1).
  { assert (1 <= n); [|lra]. unfold n.
    change 1 with (INR 1). apply le_INR.
    destruct scores; [congruence | cbn; lia]. }
  apply (Rmult_le_reg_r ((s + kEpsilon) * (s + kEpsilon))); [nra|].
  unfold Rdiv at 1. rewrite Rmult_assoc, Rinv_l by nra. rewrite Rmult_1_r.
  assert (HnV : n * (Q / n) = Q) by (field; lra).
  assert (Hdd : d * d <= (n - 1) * (Q / n)).
  { apply (Rmult_le_reg_l n); [assumption|].
    replace (n * ((n - 1) * (Q / n))) with ((n - 1) * Q) by (field; lra).
    exact Hdev. }
  assert (s * s <= (s + kEpsilon) * (s + kEpsilon)) by nra.
  nra.
Qed.

Lemma ComputeZScores_members (scores : list R) (w : PlayerWeight) :
  In w (ComputeZScores scores) ->
  exists p, In p scores
    /\ zScore w = ComputeZScore p (ComputeMean scores)
                    (ComputeStdDev scores (ComputeMean scores)).
Proof.
  intro Hin. apply (in_map zScore) in Hin.
  rewrite ComputeZScores_zScores in Hin. apply in_map_iff in Hin.
  destruct Hin as (p & Hp & Hin). exists p. now split.
Qed.

(** X10.  The square of every z-score of a team of [n] players is at most
    [n - 1].  Hence in a team of at most seven players the bounds
    [kScaleMin], [kScaleMax] never cut the scaling factor: it is exactly
    [1 + kBeta * sign(deltaMu) * z]. *)
Theorem ComputeZScores_within_team_size :
  forall scores w,
    In w (ComputeZScores scores) ->
    zScore w * zScore w <= INR (length scores) - 1
    /\ ((length scores <= 7)%nat ->
        forall deltaMu,
          ComputeScalingFactor (zScore w) deltaMu kBeta kScaleMin kScaleMax
          = 1 + kBeta * sign deltaMu * zScore w).
Proof.
  intros scores w Hin.
  destruct (ComputeZScores_members scores w Hin) as (p & Hp & Hz).
  pose proof (ComputeZScore_square_le scores p Hp) as Hsq. cbn zeta in Hsq.
  rewrite <- Hz in Hsq. split; [assumption|].
  intros Hlen deltaMu.
  assert (Hn : INR (length scores) <= 7).
  { replace 7 with (INR 7) by (cbn; lra). now apply le_INR. }
  set (z := zScore w) in *.
  assert (Hz2 : - (5 / 2) < z < 5 / 2) by (split; nra).
  unfold ComputeScalingFactor. rewrite signDeltaMu_sign.
  unfold sign, kBeta, kScaleMin, kScaleMax, Rmin, Rmax.
  destruct (Rlt_dec deltaMu 0);
    destruct (Rle_dec (1 / 2) _); destruct (Rle_dec (3 / 2) _); lra.
Qed.

Lemma ComputeZScores_within_team_size_witness :
  let w := nth 0 (ComputeZScores [3; 1; 2]) PlayerWeight_default in
  zScore w * zScore w <= INR (length [3; 1; 2]) - 1.
Proof.
  apply (ComputeZScores_within_team_size [3; 1; 2]).
  left. reflexivity.
Defined.

End ZScores.

(* ================================================================== *)
(** * Single-player update and match processing: further properties *)
(* ================================================================== *)

Section PlayerUpdate.
Import Engine.
Import RatingState.
Local Open Scope R_scope.

Lemma ComputeScalingFactor_range (zScore deltaMu : R) :
  kScaleMin
  <= ComputeScalingFactor zScore deltaMu kBeta kScaleMin kScaleMax
  <= kScaleMax.
Proof.
  unfold ComputeScalingFactor, kScaleMin, kScaleMax, Rmin, Rmax.
  destruct (Rle_dec (1 / 2) _); destruct (Rle_dec (3 / 2) _); lra.
Qed.

Lemma ComputeScalingFactor_monotone (z1 z2 deltaMu : R) :
  z1 <= z2 ->
  ComputeScalingFactor z1 deltaMu kBeta kScaleMin kScaleMax * deltaMu
  <= ComputeScalingFactor z2 deltaMu kBeta kScaleMin kScaleMax * deltaMu.
Proof.
  intro Hz. unfold ComputeScalingFactor.
  rewrite !min_max_is_clamp by (unfold kScaleMin, kScaleMax; lra).
  rewrite signDeltaMu_sign.
  unfold clamp, sign, kBeta, kScaleMin, kScaleMax.
  destruct (Rlt_dec deltaMu 0);
    repeat match goal with
           | |- context [Rlt_dec ?a ?b] => destruct (Rlt_dec a b)
           end; nra.
Qed.

Lemma ClampRatingChange_monotone (mu x y : R) :
  x <= y -> ClampRatingChange mu x <= ClampRatingChange mu y.
Proof.
  intro H. unfold ClampRatingChange, kMaxRatingChange.
  destruct (Rgt_dec (Rabs (x - mu)) _) as [Hx | Hx];
    destruct (Rgt_dec (Rabs (y - mu)) _) as [Hy | Hy];
    revert Hx Hy; unfold Rabs;
    destruct (Rcase_abs (x - mu)); destruct (Rcase_abs (y - mu));
    destruct (Rgt_dec (x - mu) 0); destruct (Rgt_dec (y - mu) 0); lra.
Qed.

Lemma ClampRatingChange_side (mu x : R) :
  (mu < x -> mu < ClampRatingChange mu x)
  /\ (x < mu -> ClampRatingChange mu x < mu)
  /\ (x = mu -> ClampRatingChange mu x = mu).
Proof.
  unfold ClampRatingChange, kMaxRatingChange.
  destruct (Rgt_dec (Rabs (x - mu)) _) as [Hx | Hx];
    revert Hx; unfold Rabs; destruct (Rcase_abs (x - mu));
    destruct (Rgt_dec (x - mu) 0); lra.
Qed.

(** The quantities [UpdatePlayerRating] works with, and their signs. *)
Lemma UpdatePlayerRating_parts
      (fuel : nat) (player : PlayerRating)
      (opponentMu opponentPhi score zScore : R) (r : PlayerRating) :
  UpdatePlayerRating fuel player opponentMu opponentPhi score zScore = Some r ->
  let g := opponent_g opponentPhi in
  let E := ComputeExpectedScore player opponentMu g in
  let v := ComputeVariance g E in
  exists sigmaPrime,
    UpdateVolatility fuel (GetSigma player) (GetPhi player)
                     (ComputeDelta v g score E) v = Some sigmaPrime
    /\ r = UpdatePlayerRating_finish player g E v score zScore sigmaPrime
    /\ 0 < g /\ 0 < E < 1 /\ 0 < v /\ 0 < sigmaPrime
    /\ 0 < UpdateRatingDeviation (GetPhi player) sigmaPrime v.
Proof.
  intro H. cbn zeta. unfold UpdatePlayerRating in H.
  destruct (UpdateVolatility _ _ _ _ _) as [sigmaPrime|] eqn:Hvol;
    [|discriminate].
  injection H as <-. exists sigmaPrime.
  pose proof (opponent_g_pos opponentPhi) as Hg.
  pose proof (ComputeExpectedScore_bounds player opponentMu
                (opponent_g opponentPhi)) as HE.
  assert (Hv : 0 < ComputeVariance (opponent_g opponentPhi)
                     (ComputeExpectedScore player opponentMu
                        (opponent_g opponentPhi)))
    by (apply ComputeVariance_pos; [lra | assumption]).
  pose proof (UpdateVolatility_pos _ _ _ _ _ _ Hvol) as Hs.
  repeat split; try assumption; try apply HE.
  now apply UpdateRatingDeviation_square.
Qed.

(** X11.  The direction of a rating change is decided by the outcome alone:
    a score above the expected score raises the mean, a score below it
    lowers the mean, whatever the z-score; in particular a win (score 1)
    always raises it and a loss (score 0) always lowers it. *)
Theorem UpdatePlayerRating_direction :
  forall fuel player opponentMu opponentPhi score zScore r,
    UpdatePlayerRating fuel player opponentMu opponentPhi score zScore
      = Some r ->
    let E := ComputeExpectedScore player opponentMu (opponent_g opponentPhi) in
    (E < score -> GetMu player < GetMu r)
    /\ (score < E -> GetMu r < GetMu player)
    /\ (score = E -> GetMu r = GetMu player)
    /\ (score = 1 -> GetMu player < GetMu r)
    /\ (score = 0 -> GetMu r < GetMu player).
Proof.
  intros fuel player opponentMu opponentPhi score zScore r Hr. cbn zeta.
  destruct (UpdatePlayerRating_parts _ _ _ _ _ _ _ Hr)
    as (sigmaPrime & _ & -> & Hg & HE & Hv & Hs & Hphi).
  unfold UpdatePlayerRating_finish, UpdateRatingMean.
  cbn [GetMu SetSigma SetPhi SetMu mu kEnableRatingClamp].
  set (g := opponent_g opponentPhi) in *.
  set (E := ComputeExpectedScore player opponentMu g) in *.
  set (phiPrime := UpdateRatingDeviation _ _ _) in *.
  set (m := Engine.mu player).
  set (deltaMu := m + phiPrime * phiPrime * g * (score - E) - m).
  pose proof (ComputeScalingFactor_range zScore deltaMu) as Hf.
  set (f := ComputeScalingFactor _ _ _ _ _) in *.
  unfold kScaleMin, kScaleMax in Hf.
  assert (Hk : 0 < phiPrime * phiPrime * g) by (apply Rmult_lt_0_compat; nra).
  assert (Hd : deltaMu = phiPrime * phiPrime * g * (score - E))
    by (unfold deltaMu; ring).
  destruct (ClampRatingChange_side m (m + f * deltaMu))
    as (Hup & Hdown & Hsame).
  assert (Hgain : E < score -> m < ClampRatingChange m (m + f * deltaMu)).
  { intro H. apply Hup. assert (0 < deltaMu) by (rewrite Hd; nra). nra. }
  assert (Hloss : score < E -> ClampRatingChange m (m + f * deltaMu) < m).
  { intro H. apply Hdown. assert (deltaMu < 0) by (rewrite Hd; nra). nra. }
  repeat split.
  - exact Hgain.
  - exact Hloss.
  - intro H. apply Hsame. rewrite Hd, H. ring.
  - intro H. apply Hgain. lra.
  - intro H. apply Hloss. lra.
Qed.

Lemma UpdatePlayerRating_direction_witness :
  exists r,
    UpdatePlayerRating 0 close_winner 0 0 1 0 = Some r
    /\ GetMu close_winner < GetMu r.
Proof.
  eexists. split.
  - apply close_winner_update.
  - apply (UpdatePlayerRating_direction 0 close_winner 0 0 1 0).
    + apply close_winner_update.
    + reflexivity.
Defined.

(** X12.  Of two updates that differ only in the z-score, the one with the
    higher z-score ends on the higher (or equal) mean; deviation and
    volatility do not depend on the z-score. *)
Theorem UpdatePlayerRating_performance_monotone :
  forall fuel player opponentMu opponentPhi score z1 z2 r1 r2,
    UpdatePlayerRating fuel player opponentMu opponentPhi score z1 = Some r1 ->
    UpdatePlayerRating fuel player opponentMu opponentPhi score z2 = Some r2 ->
    z1 <= z2 ->
    GetMu r1 <= GetMu r2
    /\ GetPhi r1 = GetPhi r2
    /\ GetSigma r1 = GetSigma r2.
Proof.
  intros fuel player opponentMu opponentPhi score z1 z2 r1 r2 H1 H2 Hz.
  unfold UpdatePlayerRating in H1, H2.
  destruct (UpdateVolatility _ _ _ _ _) as [sigmaPrime|]; [|discriminate].
  injection H1 as <-. injection H2 as <-.
  unfold UpdatePlayerRating_finish.
  cbn [GetMu GetPhi GetSigma SetSigma SetPhi SetMu mu phi sigma
       kEnableRatingClamp].
  split; [|split; reflexivity].
  apply ClampRatingChange_monotone.
  apply Rplus_le_compat_l. now apply ComputeScalingFactor_monotone.
Qed.

Lemma UpdatePlayerRating_performance_monotone_witness :
  exists r1 r2,
    UpdatePlayerRating 0 close_winner 0 0 1 (-1) = Some r1
    /\ UpdatePlayerRating 0 close_winner 0 0 1 2 = Some r2
    /\ GetMu r1 <= GetMu r2.
Proof.
  eexists. eexists. split; [apply close_winner_update|].
  split; [apply close_winner_update|].
  apply (UpdatePlayerRating_performance_monotone 0 close_winner 0 0 1 (-1) 2).
  - apply close_winner_update.
  - apply close_winner_update.
  - lra.
Defined.

(** X13.  Inside [UpdatePlayerRating] the bracket search of the volatility
    update never runs its loop body: whenever it is reached
    ([delta^2 <= phi^2 + v]) the function is already positive at
    [a - kTau], so the search returns that point without any iteration. *)
Theorem UpdateVolatility_bracket_loop_idle :
  forall player opponentMu opponentPhi score,
    let g := opponent_g opponentPhi in
    let E := ComputeExpectedScore player opponentMu g in
    let v := ComputeVariance g E in
    let delta := ComputeDelta v g score E in
    let phi := GetPhi player in
    let a := ln (GetSigma player * GetSigma player) in
    delta * delta <= phi * phi + v ->
    0 < VolatilityFunction (a - kTau) (delta * delta) (phi * phi) v a
                           (kTau * kTau)
    /\ UpdateVolatility_findB 0 (a - kTau) (delta * delta) (phi * phi) v a
                              (kTau * kTau)
       = Some (a - kTau).
Proof.
  intros player opponentMu opponentPhi score g E v delta phi a Hle.
  assert (Hv : 0 < v).
  { apply ComputeVariance_pos.
    - pose proof (opponent_g_pos opponentPhi). unfold g. lra.
    - apply ComputeExpectedScore_bounds. }
  destruct (UpdateVolatility_bracket_search 0 (GetSigma player) phi delta v
              Hv Hle) as [[_ Hpos] _].
  split; [exact Hpos|].
  apply UpdateVolatility_findB_immediate; nra.
Qed.

Lemma UpdateVolatility_bracket_loop_idle_witness :
  let v := ComputeVariance (opponent_g 0)
             (ComputeExpectedScore PlayerRating_default 0 (opponent_g 0)) in
  let a := ln (GetSigma PlayerRating_default * GetSigma PlayerRating_default)
  in
  UpdateVolatility_findB 0 (a - kTau) (0 * 0)
    (GetPhi PlayerRating_default * GetPhi PlayerRating_default) v a
    (kTau * kTau)
  = Some (a - kTau).
Proof.
  cbn zeta.
  assert (HE : ComputeExpectedScore PlayerRating_default 0 (opponent_g 0)
               = 1 / 2).
  { unfold ComputeExpectedScore, ComputeExpectedScore_exponent.
    cbn [mu PlayerRating_default PlayerRating_new].
    replace (- opponent_g 0 * ((kDefaultRating - kDefaultRating) / kScale - 0))
      with 0 by (unfold Rdiv; ring).
    rewrite exp_0. lra. }
  assert (Hd : ComputeDelta
                 (ComputeVariance (opponent_g 0)
                    (ComputeExpectedScore PlayerRating_default 0
                       (opponent_g 0)))
                 (opponent_g 0) (1 / 2)
                 (ComputeExpectedScore PlayerRating_default 0 (opponent_g 0))
               = 0).
  { rewrite HE. unfold ComputeDelta. ring. }
  rewrite <- Hd at 1 2.
  apply (UpdateVolatility_bracket_loop_idle PlayerRating_default 0 0 (1 / 2)).
  rewrite Hd.
  pose proof (ComputeVariance_pos (opponent_g 0)
                (ComputeExpectedScore PlayerRating_default 0 (opponent_g 0))).
  pose proof (opponent_g_pos 0).
  pose proof (ComputeExpectedScore_bounds PlayerRating_default 0
                (opponent_g 0)).
  assert (0 <= GetPhi PlayerRating_default * GetPhi PlayerRating_default)
    by nra.
  assert (0 < ComputeVariance (opponent_g 0)
                (ComputeExpectedScore PlayerRating_default 0 (opponent_g 0)))
    by (apply H; [lra | assumption]).
  lra.
Defined.

End PlayerUpdate.

Section MatchSides.
Import Engine.
Import RatingState.
Import MatchReference.
Local Open Scope R_scope.

Lemma ComputeEffectiveRating_fresh (r : PlayerRating) (perfToRating rdScale : R) :
  perfIndexEMA r = 0 -> 0 <= phi r ->
  ComputeEffectiveRating r perfToRating rdScale = GetRating r.
Proof.
  intros He Hphi. unfold ComputeEffectiveRating, ComputeRecentRating.
  rewrite He, Rmult_0_l.
  assert (Hrd : 0 <= GetRD r)
    by (unfold GetRD; pose proof kScale_pos; nra).
  assert (Hb : Rmax (- Rmin (2 * GetRD r) 200)
                    (Rmin 0 (Rmin (2 * GetRD r) 200)) = 0).
  { unfold Rmax, Rmin. destruct (Rle_dec (2 * GetRD r) 200);
      destruct (Rle_dec 0 _); destruct (Rle_dec _ _); lra. }
  rewrite Hb. ring.
Qed.

Lemma UpdatePlayerRating_resets
      (fuel : nat) (player : PlayerRating)
      (opponentMu opponentPhi score zScore : R) (r : PlayerRating) :
  UpdatePlayerRating fuel player opponentMu opponentPhi score zScore = Some r ->
  perfIndexEMA r = 0 /\ perfGames r = 0%Z /\ 0 < phi r.
Proof.
  intro Hr.
  destruct (UpdatePlayerRating_parts _ _ _ _ _ _ _ Hr)
    as (sigmaPrime & _ & -> & _ & _ & _ & _ & Hphi).
  unfold UpdatePlayerRating_finish.
  cbn [SetSigma SetPhi SetMu perfIndexEMA perfGames phi PlayerRating_default
       PlayerRating_new].
  repeat split. exact Hphi.
Qed.

(** X14.  A processed match differs from the match handed in by its ratings
    only: rosters, performance scores and outcome scores are as before.
    Every rating it emits has the recent-performance index and the game
    counter back at 0, whatever they were before the match, so that its
    effective rating is its Glicko rating. *)
Theorem ProcessMatch_changes_ratings_only :
  forall fuel m m',
    ProcessMatch fuel m = Some m' ->
    map performanceScore (teamA m') = map performanceScore (teamA m)
    /\ map performanceScore (teamB m') = map performanceScore (teamB m)
    /\ scoreA m' = scoreA m /\ scoreB m' = scoreB m
    /\ forall p,
         In p (teamA m' ++ teamB m') ->
         GetPerfIndexEMA (rating p) = 0
         /\ GetPerfGames (rating p) = 0%Z
         /\ ComputeEffectiveRating (rating p) kPerfToRating kRDScaleConstant
            = GetRating (rating p).
Proof.
  intros fuel m m' H.
  destruct (ProcessMatch_participants fuel m m' H)
    as (HsA & HsB & HlA & HlB & HA & HB).
  assert (Hscores : forall (t t' : list MatchPlayer),
            length t' = length t ->
            (forall i, (i < length t)%nat ->
               performanceScore (nth i t' MatchPlayer_default)
               = performanceScore (nth i t MatchPlayer_default)) ->
            map performanceScore t' = map performanceScore t).
  { intros t t' Hlen Hnth.
    apply (nth_ext _ _ (performanceScore MatchPlayer_default)
                   (performanceScore MatchPlayer_default)).
    - now rewrite !length_map.
    - intros i Hi. rewrite length_map, Hlen in Hi.
      rewrite !map_nth. now apply Hnth. }
  split; [|split; [|split; [|split]]]; try assumption.
  - apply Hscores; [assumption|]. intros i Hi.
    destruct (HA i Hi) as (r & _ & ->). reflexivity.
  - apply Hscores; [assumption|]. intros i Hi.
    destruct (HB i Hi) as (r & _ & ->). reflexivity.
  - intros p Hp.
    assert (Hfrom : exists fuel' player oMu oPhi score z,
              UpdatePlayerRating fuel' player oMu oPhi score z
              = Some (rating p)).
    { apply in_app_or in Hp. destruct Hp as [Hp | Hp];
        apply (In_nth _ _ MatchPlayer_default) in Hp;
        destruct Hp as (i & Hi & <-).
      - rewrite HlA in Hi. destruct (HA i Hi) as (r & Hr & ->).
        repeat eexists. exact Hr.
      - rewrite HlB in Hi. destruct (HB i Hi) as (r & Hr & ->).
        repeat eexists. exact Hr. }
    destruct Hfrom as (fuel' & player & oMu & oPhi & score & z & Hr).
    destruct (UpdatePlayerRating_resets _ _ _ _ _ _ _ Hr) as (He & Hg & Hphi).
    unfold GetPerfIndexEMA, GetPerfGames.
    repeat split; try assumption.
    apply ComputeEffectiveRating_fresh; [assumption | lra].
Qed.

Lemma ProcessMatch_changes_ratings_only_witness :
  exists m',
    ProcessMatch 0 close_match = Some m'
    /\ map performanceScore (teamA m') = map performanceScore (teamA close_match).
Proof.
  destruct (ProcessMatch_close_match 0) as (rA & rB & H & _).
  eexists. split; [exact H|].
  apply (ProcessMatch_changes_ratings_only 0 close_match _ H).
Defined.

(** X15.  Which side is called A and which B does not matter: processing
    the match with the sides exchanged gives the processed match with the
    sides exchanged. *)
Theorem ProcessMatch_swap_sides :
  forall fuel m,
    ProcessMatch fuel (swap_sides m)
    = option_map swap_sides (ProcessMatch fuel m).
Proof.
  intros fuel m. rewrite !ProcessMatch_is_snapshot.
  unfold ProcessMatch_snapshot, swap_sides.
  cbn [teamA teamB scoreA scoreB].
  destruct (updated_team fuel (teamA m) _ _ _) as [a'|];
    destruct (updated_team fuel (teamB m) _ _ _) as [b'|]; reflexivity.
Qed.

End MatchSides.

(* ================================================================== *)
(** * Normalised performance weights *)
(* ================================================================== *)

Section NormalizedWeights.
Import Engine.
Import RatingState.
Import NormalizedWeighting.
Local Open Scope R_scope.

Lemma ClampWeight_range (weight wMin wMax : R) :
  wMin <= wMax -> wMin <= ClampWeight weight wMin wMax <= wMax.
Proof.
  intro H. unfold ClampWeight, Rmin, Rmax.
  destruct (Rle_dec wMin weight); destruct (Rle_dec wMax _); lra.
Qed.

Lemma NormalizeWeights_clamped (weights : list PlayerWeight) :
  map clampedWeight (NormalizeWeights weights) = map clampedWeight weights.
Proof.
  unfold NormalizeWeights. destruct weights as [|w ws]; [reflexivity|].
  rewrite map_map. reflexivity.
Qed.

Lemma NormalizeWeights_normalized (weights : list PlayerWeight) :
  weights <> [] ->
  map normalizedWeight (NormalizeWeights weights)
  = map (fun w => clampedWeight w
                  * (INR (length weights)
                     / total (map clampedWeight weights)))
        weights.
Proof.
  intro Hne. unfold NormalizeWeights.
  destruct weights as [|w ws] eqn:Hw; [congruence|]. rewrite <- Hw.
  rewrite map_map. cbn [normalizedWeight].
  now rewrite (fold_left_total clampedWeight), Rplus_0_l.
Qed.

Lemma NormalizeWeights_members (weights : list PlayerWeight) (w : PlayerWeight) :
  In w (NormalizeWeights weights) ->
  normalizedWeight w
  = clampedWeight w
    * (INR (length weights) / total (map clampedWeight weights)).
Proof.
  unfold NormalizeWeights.
  destruct weights as [|w0 ws] eqn:Hw; [contradiction|]. rewrite <- Hw.
  intro Hin. apply in_map_iff in Hin. destruct Hin as (w1 & <- & _).
  cbn [normalizedWeight clampedWeight].
  now rewrite (fold_left_total clampedWeight), Rplus_0_l.
Qed.

Lemma total_scale (l : list R) (c : R) :
  total (map (fun x => x * c) l) = total l * c.
Proof.
  induction l as [|x l IH]; [cbn; ring|].
  cbn [map]. rewrite !total_cons, IH. ring.
Qed.

(** X16.  For bounds [0 < wMin <= wMax], [ComputeWeights] returns one
    weight per score; the normalised weights are positive, lie between
    [wMin / wMax] and [wMax / wMin], and sum to the team size: their
    average is exactly 1. *)
Theorem ComputeWeights_average_one :
  forall scores alpha wMin wMax,
    0 < wMin -> wMin <= wMax ->
    let weights := ComputeWeights scores alpha wMin wMax in
    length weights = length scores
    /\ total (map normalizedWeight weights) = INR (length scores)
    /\ forall w, In w weights ->
         wMin <= clampedWeight w <= wMax
         /\ wMin / wMax <= normalizedWeight w <= wMax / wMin.
Proof.
  intros scores alpha wMin wMax Hmin Hle. cbn zeta.
  unfold ComputeWeights. destruct scores as [|p0 t] eqn:Hs.
  { cbn. split; [reflexivity|]. split; [reflexivity|]. intros w []. }
  rewrite <- Hs.
  set (raw := map _ (combine _ scores)).
  assert (Hlen : length raw = length scores).
  { unfold raw. rewrite length_map, length_combine, length_seq.
    apply Nat.min_id. }
  assert (Hne : raw <> []).
  { intro H. rewrite H in Hlen. rewrite Hs in Hlen. discriminate. }
  assert (Hn : 0 < INR (length raw)).
  { rewrite Hlen, Hs. apply lt_0_INR. cbn. lia. }
  assert (Hcl : forall w, In w raw -> wMin <= clampedWeight w <= wMax).
  { intros w Hw. unfold raw in Hw. apply in_map_iff in Hw.
    destruct Hw as (ip & <- & _). cbn [clampedWeight].
    now apply ClampWeight_range. }
  pose proof (total_between clampedWeight raw wMin wMax Hcl) as [Hlo Hhi].
  set (S := total (map clampedWeight raw)) in *.
  assert (HS : 0 < S) by nra.
  split; [|split].
  - unfold NormalizeWeights. destruct raw; [congruence|].
    now rewrite length_map.
  - rewrite NormalizeWeights_normalized by assumption. fold S.
    rewrite <- (map_map clampedWeight (fun c => c * (INR (length raw) / S))).
    rewrite total_scale. fold S. rewrite <- Hlen. field. lra.
  - intros w Hw.
    assert (Hc : In (clampedWeight w) (map clampedWeight raw)).
    { rewrite <- NormalizeWeights_clamped. now apply in_map. }
    apply in_map_iff in Hc. destruct Hc as (w0 & Hw0 & Hin0).
    specialize (Hcl w0 Hin0). rewrite Hw0 in Hcl.
    split; [assumption|].
    rewrite (NormalizeWeights_members raw w Hw). fold S.
    set (n := INR (length raw)) in *. set (c := clampedWeight w) in *.
    assert (HwM : 0 < wMax) by lra.
    split.
    + apply (Rmult_le_reg_r (wMax * S)); [nra|].
      replace (wMin / wMax * (wMax * S)) with (wMin * S) by (field; lra).
      replace (c * (n / S) * (wMax * S)) with (c * n * wMax) by (field; lra).
      nra.
    + apply (Rmult_le_reg_r (wMin * S)); [nra|].
      replace (wMax / wMin * (wMin * S)) with (wMax * S) by (field; lra).
      replace (c * (n / S) * (wMin * S)) with (c * n * wMin) by (field; lra).
      nra.
Qed.

Lemma ComputeWeights_average_one_witness :
  total (map normalizedWeight
             (ComputeWeights [3; 1; 2] kAlpha kWeightMin kWeightMax))
  = INR (length [3; 1; 2]).
Proof.
  apply (ComputeWeights_average_one [3; 1; 2] kAlpha kWeightMin kWeightMax);
    unfold kWeightMin, kWeightMax; lra.
Defined.

End NormalizedWeights.

(* ================================================================== *)
(** * Performance normalisation *)
(* ================================================================== *)

Section PerformanceNormalization.
Import RatingState.
Import Normalization.
Local Open Scope R_scope.

Lemma fold_left_Rplus (l : list R) (a : R) : fold_left Rplus l a = a + total l.
Proof.
  rewrite <- (map_id l) at 2. apply (fold_left_total (fun x => x)).
Qed.

Lemma ComputeTeamStats_nonempty (scores : list R) :
  scores <> [] ->
  let n := INR (length scores) in
  let m := total scores / n in
  let variance := total (map (fun s => (s - m) * (s - m)) scores) / n in
  ComputeTeamStats scores
  = {| mean := m;
       stddev := if Rlt_dec variance (1 / 1000000) then 1 else sqrt variance;
       teamSize := length scores |}.
Proof.
  intro Hne. cbn zeta. unfold ComputeTeamStats.
  replace (length scores =? 0)%nat with false
    by (symmetry; apply Nat.eqb_neq; destruct scores; [congruence | discriminate]).
  rewrite fold_left_Rplus, Rplus_0_l.
  rewrite (fold_left_total
             (fun s => (s - total scores / INR (length scores))
                       * (s - total scores / INR (length scores)))).
  now rewrite Rplus_0_l.
Qed.

Lemma ComputeTeamStats_stddev (scores : list R) :
  1 / 1000 <= stddev (ComputeTeamStats scores).
Proof.
  unfold ComputeTeamStats. destruct (length scores =? 0)%nat; cbn [stddev].
  - lra.
  - destruct (Rlt_dec _ _) as [Hsmall | Hbig]; [lra|].
    apply Rnot_lt_le in Hbig.
    replace (1 / 1000) with (sqrt (1 / 1000000)).
    + now apply sqrt_le_1_alt.
    + replace (1 / 1000000) with ((1 / 1000) * (1 / 1000)) by field.
      apply sqrt_square. lra.
Qed.

Lemma ClipZScore_range (z maxZScore : R) :
  0 <= maxZScore ->
  - maxZScore <= ClipZScore z maxZScore <= maxZScore
  /\ (Rabs z <= maxZScore -> ClipZScore z maxZScore = z).
Proof.
  intro H. unfold ClipZScore, Rmax, Rmin.
  split.
  - destruct (Rle_dec z maxZScore); destruct (Rle_dec (- maxZScore) _); lra.
  - intro Hz.
    assert (- maxZScore <= z <= maxZScore)
      by (revert Hz; unfold Rabs; destruct (Rcase_abs z); lra).
    destruct (Rle_dec z maxZScore); destruct (Rle_dec (- maxZScore) _); lra.
Qed.

Lemma NormalizeTeamPerformance_zScores (scores : list R) (maxZScore : R) :
  map zScore (NormalizeTeamPerformance scores maxZScore)
  = map (fun p => ComputeZScore p (ComputeTeamStats scores)) scores.
Proof.
  unfold NormalizeTeamPerformance. rewrite map_map. cbn [zScore].
  rewrite <- (map_map snd (fun p => ComputeZScore p _)).
  now rewrite map_snd_combine by (now rewrite length_seq).
Qed.

Lemma NormalizeTeamPerformance_members
      (scores : list R) (maxZScore : R) (perf : PlayerPerformance) :
  In perf (NormalizeTeamPerformance scores maxZScore) ->
  exists p, In p scores
    /\ rawScore perf = p
    /\ zScore perf = ComputeZScore p (ComputeTeamStats scores)
    /\ clippedZScore perf = ClipZScore (zScore perf) maxZScore.
Proof.
  unfold NormalizeTeamPerformance. intro H. apply in_map_iff in H.
  destruct H as ((i & p) & <- & Hin). apply in_combine_r in Hin.
  exists p. cbn. auto.
Qed.

Lemma Normalization_zScore_square_le (scores : list R) (p : R) :
  In p scores ->
  let z := ComputeZScore p (ComputeTeamStats scores) in
  z * z <= INR (length scores) - 1.
Proof.
  intros Hin. cbn zeta.
  assert (Hne : scores <> []) by (destruct scores; [contradiction | discriminate]).
  assert (Hn : 1 <= INR (length scores)).
  { replace 1 with (INR 1) by reflexivity. apply le_INR.
    destruct scores; [congruence | cbn; lia]. }
  pose proof (deviation_from_mean scores p Hin) as Hdev. cbn zeta in Hdev.
  rewrite (ComputeTeamStats_nonempty scores Hne). unfold ComputeZScore.
  cbn [mean stddev].
  set (n := INR (length scores)) in *. set (m := total scores / n) in *.
  set (Q := total (map (fun s => (s - m) * (s - m)) scores)) in *.
  set (d := p - m) in *.
  assert (HQ : 0 <= Q) by apply (total_squares_nonneg (fun s => s - m)).
  assert (Hdd : d * d <= (n - 1) * (Q / n)).
  { apply (Rmult_le_reg_l n); [lra|].
    replace (n * ((n - 1) * (Q / n))) with ((n - 1) * Q) by (field; lra).
    exact Hdev. }
  destruct (Rlt_dec (Q / n) (1 / 1000000)) as [Hsmall | Hbig].
  - replace (d / 1 * (d / 1)) with (d * d) by field.
    assert (0 <= Q / n)
      by (apply Rmult_le_pos; [assumption | left; apply Rinv_0_lt_compat; lra]).
    nra.
  - apply Rnot_lt_le in Hbig.
    assert (HV : 0 < Q / n) by lra.
    assert (Hs : 0 < sqrt (Q / n)) by (now apply sqrt_lt_R0).
    replace (d / sqrt (Q / n) * (d / sqrt (Q / n)))
      with (d * d / (sqrt (Q / n) * sqrt (Q / n))) by (field; lra).
    rewrite sqrt_sqrt by lra.
    apply (Rmult_le_reg_r (Q / n)); [assumption|].
    unfold Rdiv at 1. rewrite Rmult_assoc, Rinv_l by lra. lra.
Qed.

(** X17.  [NormalizeTeamPerformance] returns one entry per score, in order;
    the deviation it divides by is at least 0.001; the z-scores of a team
    sum to zero; for a non-negative limit every clipped z-score lies within
    the limit and equals the z-score when that is within it. *)
Theorem NormalizeTeamPerformance_shape :
  forall scores maxZScore,
    0 <= maxZScore ->
    let results := NormalizeTeamPerformance scores maxZScore in
    map rawScore results = scores
    /\ map playerIndex results
       = map Z.of_nat (seq 0 (length scores))
    /\ 1 / 1000 <= stddev (ComputeTeamStats scores)
    /\ total (map zScore results) = 0
    /\ forall perf, In perf results ->
         - maxZScore <= clippedZScore perf <= maxZScore
         /\ (Rabs (zScore perf) <= maxZScore ->
             clippedZScore perf = zScore perf).
Proof.
  intros scores maxZScore Hmax. cbn zeta.
  split; [|split; [|split; [apply ComputeTeamStats_stddev|split]]].
  - unfold NormalizeTeamPerformance. rewrite map_map. cbn [rawScore].
    apply map_snd_combine. now rewrite length_seq.
  - unfold NormalizeTeamPerformance. rewrite map_map. cbn [playerIndex].
    rewrite <- (map_map fst Z.of_nat). f_equal.
    assert (H : forall (l : list nat) (l' : list R),
              length l = length l' -> map fst (combine l l') = l).
    { induction l as [|x l IH]; intros [|y l'] H; cbn in *;
        try discriminate; [reflexivity|]. f_equal. apply IH. lia. }
    apply H. now rewrite length_seq.
  - rewrite NormalizeTeamPerformance_zScores. unfold ComputeZScore.
    rewrite total_shift.
    destruct scores as [|p0 t] eqn:Hs; [cbn; unfold Rdiv; ring|].
    rewrite <- Hs in *.
    rewrite ComputeTeamStats_nonempty by (rewrite Hs; discriminate).
    cbn [mean].
    assert (Hn : 0 < INR (length scores))
      by (apply lt_0_INR; rewrite Hs; cbn; lia).
    replace (total scores
             - INR (length scores) * (total scores / INR (length scores)))
      with 0 by (field; lra).
    unfold Rdiv. ring.
  - intros perf Hperf.
    destruct (NormalizeTeamPerformance_members _ _ _ Hperf)
      as (p & _ & _ & _ & ->).
    now apply ClipZScore_range.
Qed.

Lemma NormalizeTeamPerformance_shape_witness :
  total (map zScore (NormalizeTeamPerformance [3; 1; 2] kMaxPerfZScore)) = 0.
Proof.
  apply (NormalizeTeamPerformance_shape [3; 1; 2] kMaxPerfZScore).
  unfold kMaxPerfZScore. lra.
Defined.

End PerformanceNormalization.

Section PerformanceNormalizationLimit.
Import Engine.
Import RatingState.
Import Normalization.
Local Open Scope R_scope.

(** Nine scores of 0 and one of 7 in exact arithmetic: mean 0.7, deviation
    2.1, and the z-score of the 7 is exactly 3. *)
Lemma nine_and_one_exact :
  let scores := [0; 0; 0; 0; 0; 0; 0; 0; 0; 7] in
  let perf := nth 9 (NormalizeTeamPerformance scores kMaxPerfZScore)
                  {| playerIndex := 0; rawScore := 0; zScore := 0;
                     clippedZScore := 0 |} in
  stddev (ComputeTeamStats scores) = 21 / 10
  /\ zScore perf = 3 /\ clippedZScore perf = 3.
Proof.
  cbn zeta.
  assert (Hvar : sqrt (441 / 100) = 21 / 10).
  { replace (441 / 100) with ((21 / 10) * (21 / 10)) by field.
    apply sqrt_square. lra. }
  assert (Hstats : ComputeTeamStats [0; 0; 0; 0; 0; 0; 0; 0; 0; 7]
                   = {| mean := 7 / 10; stddev := 21 / 10; teamSize := 10 |}).
  { unfold ComputeTeamStats.
    cbn [length Nat.eqb fold_left].
    replace (INR 10) with 10 by (cbn; lra).
    replace ((0 + 0 + 0 + 0 + 0 + 0 + 0 + 0 + 0 + 0 + 7) / 10)
      with (7 / 10) by field.
    match goal with
    | |- context [Rlt_dec ?x _] =>
      replace x with (441 / 100) by field
    end.
    destruct (Rlt_dec (441 / 100) (1 / 1000000)) as [H | _]; [lra|].
    now rewrite Hvar. }
  split; [now rewrite Hstats|].
  unfold NormalizeTeamPerformance. rewrite Hstats.
  cbn [length seq combine map nth fst snd zScore clippedZScore].
  unfold ComputeZScore, ClipZScore, kMaxPerfZScore. cbn [mean stddev].
  replace ((7 - 7 / 10) / (21 / 10)) with 3 by field.
  split; [reflexivity|].
  rewrite Rmin_left by lra. rewrite Rmax_right by lra. reflexivity.
Qed.

End PerformanceNormalizationLimit.

Section PerformanceNormalizationClip.
Import Floats.
Import Engine.
Import RatingState.
Import Normalization.
Local Open Scope R_scope.

(** X18.  In exact arithmetic the square of a z-score of a team of [n]
    players is at most [n - 1]; so for a team of at most ten players the
    default clip at [kMaxPerfZScore = 3] never changes a z-score, and for at
    most nine players no z-score comes within 0.17 of the limit.  With ten
    players the limit is reached: nine scores of 0 and one of 7 give a
    z-score of exactly 3.  There binary64 rounding decides: on these ten
    scores the binary64 computation yields a z-score above 3
    (3.0000000000000004), which the clip lowers to 3. *)
Theorem NormalizeTeamPerformance_clip_idle :
  (forall scores perf,
      In perf (NormalizeTeamPerformance scores kMaxPerfZScore) ->
      zScore perf * zScore perf <= INR (length scores) - 1
      /\ ((length scores <= 10)%nat -> clippedZScore perf = zScore perf)
      /\ ((length scores <= 9)%nat -> Rabs (zScore perf) <= 283 / 100))
  /\ (let perf := nth 9 (NormalizeTeamPerformance
                           [0; 0; 0; 0; 0; 0; 0; 0; 0; 7] kMaxPerfZScore)
                      {| playerIndex := 0; rawScore := 0; zScore := 0;
                         clippedZScore := 0 |} in
      zScore perf = 3 /\ clippedZScore perf = 3)
  /\ (let perf := nth 9 (NormalizationBinary64.NormalizeTeamPerformance
                           NormalizationBinary64.nine_and_one 3%float)
                      NormalizationBinary64.PlayerPerformance_default in
      PrimFloat.ltb 3%float (NormalizationBinary64.zScore perf) = true
      /\ NormalizationBinary64.zScore perf = 0x1.8000000000001p+1%float
      /\ NormalizationBinary64.clippedZScore perf = 3%float).
Proof.
  split; [|split].
  - intros scores perf Hperf.
    destruct (NormalizeTeamPerformance_members _ _ _ Hperf)
      as (p & Hp & _ & Hz & Hclip).
    pose proof (Normalization_zScore_square_le scores p Hp) as Hsq.
    cbn zeta in Hsq. rewrite <- Hz in Hsq.
    split; [assumption|]. split.
    + intro Hlen. rewrite Hclip.
      apply ClipZScore_range; unfold kMaxPerfZScore; [lra|].
      assert (Hn : INR (length scores) <= 10).
      { replace 10 with (INR 10) by (cbn; lra). now apply le_INR. }
      apply Rabs_le. split; nra.
    + intro Hlen.
      assert (Hn : INR (length scores) <= 9).
      { replace 9 with (INR 9) by (cbn; lra). now apply le_INR. }
      apply Rabs_le. split; nra.
  - apply nine_and_one_exact.
  - cbn zeta. repeat split; vm_compute; reflexivity.
Qed.

Lemma NormalizeTeamPerformance_clip_idle_witness :
  let perf := nth 0 (NormalizeTeamPerformance [3; 1; 2] kMaxPerfZScore)
                  {| playerIndex := 0; rawScore := 0; zScore := 0;
                     clippedZScore := 0 |} in
  clippedZScore perf = zScore perf.
Proof.
  apply (proj1 NormalizeTeamPerformance_clip_idle [3; 1; 2]).
  - left. reflexivity.
  - cbn. lia.
Defined.

End PerformanceNormalizationClip.

(* ================================================================== *)
(** * The batch processor *)
(* ================================================================== *)

Section PerformanceScore.
Import Engine.
Import RatingState.
Import BatchProcessor.
Local Open Scope R_scope.

Lemma ComputeZScores_constant (scores : list R) (c : R) (w : PlayerWeight) :
  (forall p, In p scores -> p = c) ->
  In w (ComputeZScores scores) -> zScore w = 0.
Proof.
  intros Hall Hin.
  destruct (ComputeZScores_members scores w Hin) as (p & Hp & ->).
  assert (Hne : scores <> []) by (destruct scores; [contradiction | discriminate]).
  assert (Hn : 0 < INR (length scores)).
  { apply lt_0_INR. destruct scores; [congruence | cbn; lia]. }
  assert (Hmean : ComputeMean scores = c).
  { rewrite ComputeMean_total by assumption.
    assert (Ht : total scores = INR (length scores) * c).
    { clear -Hall. induction scores as [|x l IH]; [cbn; ring|].
      rewrite total_cons. cbn [length]. rewrite S_INR, IH.
      - rewrite (Hall x (or_introl eq_refl)). ring.
      - intros q Hq. apply Hall. now right. }
    rewrite Ht. field. lra. }
  rewrite Hmean, (Hall p Hp). unfold ComputeZScore, Rdiv.
  rewrite Rminus_diag. ring.
Qed.

(** X19.  The batch processor's performance score is never below 100, and
    is exactly 100 unless [kills - deaths + damage / 220] exceeds 100.  A
    team all of whose players are at that floor has only zero z-scores, and
    then the scaling factor is 1: performance does not enter the update. *)
Theorem ComputePerformanceScore_floor :
  (forall player,
      100 <= ComputePerformanceScore player
      /\ (IZR (kills player) - IZR (deaths player) + damage player / 220 <= 100
          -> ComputePerformanceScore player = 100))
  /\ (forall players w deltaMu,
        (forall player, In player players ->
           IZR (kills player) - IZR (deaths player) + damage player / 220
           <= 100) ->
        In w (ComputeZScores (map ComputePerformanceScore players)) ->
        zScore w = 0
        /\ ComputeScalingFactor (zScore w) deltaMu kBeta kScaleMin kScaleMax
           = 1).
Proof.
  assert (Hfloor : forall player,
            IZR (kills player) - IZR (deaths player) + damage player / 220
            <= 100 ->
            ComputePerformanceScore player = 100).
  { intros player H. unfold ComputePerformanceScore, kKillWeight,
      kDeathWeight, kDamageWeight, kObjectiveWeight.
    apply Rmax_left. lra. }
  split.
  - intro player. split; [apply Rmax_l | apply Hfloor].
  - intros players w deltaMu Hall Hw.
    assert (Hz : zScore w = 0).
    { apply (ComputeZScores_constant
               (map ComputePerformanceScore players) 100); [|assumption].
      intros p Hp. apply in_map_iff in Hp.
      destruct Hp as (player & <- & Hin). now apply Hfloor, Hall. }
    split; [assumption|]. rewrite Hz.
    unfold ComputeScalingFactor, kBeta, kScaleMin, kScaleMax.
    rewrite Rmult_0_r, Rplus_0_r.
    unfold Rmin, Rmax.
    destruct (Rle_dec (1 / 2) 1); destruct (Rle_dec (3 / 2) _); lra.
Qed.

End PerformanceScore.

Section CsvSplit.
Import String Ascii.
Import BatchProcessor.



Lemma split_empty (d : ascii) : split EmptyString d = [].
Proof. reflexivity. Qed.












End CsvSplit.

Section ExpectedScore.
Import Engine.
Import RatingState.
Local Open Scope R_scope.

Lemma logistic_sum (x : R) : 1 / (1 + exp (- x)) + 1 / (1 + exp x) = 1.
Proof.
  pose proof (exp_pos x) as Hx. rewrite exp_Ropp.
  field. split; lra.
Qed.

(** X21.  The expected scores of two players against each other, taken with
    the same g-factor, add up to 1; equal means give 1/2; and for a positive
    g-factor the expected score grows strictly with the player's own mean
    and falls strictly with the opponent's. *)
Theorem ComputeExpectedScore_symmetry :
  forall player opponent g,
    ComputeExpectedScore player (GetMu opponent) g
    + ComputeExpectedScore opponent (GetMu player) g = 1
    /\ (GetMu player = GetMu opponent ->
        ComputeExpectedScore player (GetMu opponent) g = 1 / 2)
    /\ (0 < g ->
        forall stronger muOpp,
          GetMu player < GetMu stronger ->
          ComputeExpectedScore player muOpp g
          < ComputeExpectedScore stronger muOpp g
          /\ ComputeExpectedScore opponent (GetMu stronger) g
             < ComputeExpectedScore opponent (GetMu player) g).
Proof.
  intros player opponent g.
  unfold ComputeExpectedScore, ComputeExpectedScore_exponent, GetMu.
  split; [|split].
  - replace (- g * (mu player - mu opponent))
      with (- (g * (mu player - mu opponent))) by ring.
    replace (- g * (mu opponent - mu player))
      with (g * (mu player - mu opponent)) by ring.
    apply logistic_sum.
  - intros ->. replace (- g * (mu opponent - mu opponent)) with 0 by ring.
    rewrite exp_0. lra.
  - intros Hg stronger muOpp Hlt.
    assert (Hmono : forall x y, x < y -> 1 / (1 + exp y) < 1 / (1 + exp x)).
    { intros x y Hxy. pose proof (exp_pos x). pose proof (exp_pos y).
      pose proof (exp_increasing x y Hxy).
      unfold Rdiv. rewrite !Rmult_1_l.
      apply Rinv_lt_contravar; [|lra].
      apply Rmult_lt_0_compat; lra. }
    split; apply Hmono; nra.
Qed.

Lemma ComputeExpectedScore_symmetry_witness :
  ComputeExpectedScore close_winner (GetMu PlayerRating_default) 1
  < ComputeExpectedScore PlayerRating_default (GetMu PlayerRating_default) 1.
Proof.
  apply (ComputeExpectedScore_symmetry close_winner PlayerRating_default 1).
  - lra.
  - unfold GetMu. pose proof close_winner_mu_negative.
    cbn [mu PlayerRating_default PlayerRating_new].
    unfold kDefaultRating, Rdiv, Rminus. rewrite Rplus_opp_r, Rmult_0_l.
    assumption.
Defined.

End ExpectedScore.

Section DeviationFloor.
Import Engine.
Import RatingState.
Local Open Scope R_scope.

Lemma opponent_g_le_1 (opponentPhi : R) : opponent_g opponentPhi <= 1.
Proof.
  unfold opponent_g, M_PI.
  assert (Hpi : 0 < PI * PI) by (pose proof PI_RGT_0; nra).
  assert (H : 0 <= 3 * (opponentPhi * opponentPhi) / (PI * PI)).
  { apply Rmult_le_pos; [nra | left; now apply Rinv_0_lt_compat]. }
  assert (Hs : 1 <= sqrt (1 + 3 * (opponentPhi * opponentPhi) / (PI * PI))).
  { rewrite <- sqrt_1 at 1. apply sqrt_le_1_alt. lra. }
  apply (Rmult_le_reg_r
           (sqrt (1 + 3 * (opponentPhi * opponentPhi) / (PI * PI)))); [lra|].
  unfold Rdiv. rewrite Rmult_assoc, Rinv_l by lra. lra.
Qed.

Lemma ComputeVariance_at_least_4 (g expectedScore : R) :
  0 < g <= 1 -> 0 < expectedScore < 1 ->
  4 <= ComputeVariance g expectedScore.
Proof.
  intros [Hg0 Hg1] [HE0 HE1]. unfold ComputeVariance.
  assert (Hgg : 0 < g * g <= 1) by nra.
  assert (HEE : 0 < expectedScore * (1 - expectedScore) <= 1 / 4).
  { pose proof (Rle_0_sqr (expectedScore - 1 / 2)) as Hsqr.
    unfold Rsqr in Hsqr. split; nra. }
  assert (Hd : 0 < g * g * expectedScore * (1 - expectedScore) <= 1 / 4).
  { rewrite Rmult_assoc.
    set (a := g * g) in *. set (b := expectedScore * (1 - expectedScore)) in *.
    split; nra. }
  set (d := g * g * expectedScore * (1 - expectedScore)) in *.
  apply (Rmult_le_reg_r d); [lra|].
  unfold Rdiv. rewrite Rmult_assoc, Rinv_l by lra. lra.
Qed.

(** X22.  The variance term of a single-opponent update is at least 4, so
    one match cannot shrink the deviation arbitrarily: with
    [q = phi^2 + sigma'^2] the square of the emitted deviation is at least
    [4 q / (4 + q)]. *)
Theorem UpdatePlayerRating_deviation_floor :
  forall fuel player opponentMu opponentPhi score zScore r,
    UpdatePlayerRating fuel player opponentMu opponentPhi score zScore
      = Some r ->
    let g := opponent_g opponentPhi in
    let v := ComputeVariance g (ComputeExpectedScore player opponentMu g) in
    let q := GetPhi player * GetPhi player + GetSigma r * GetSigma r in
    0 < g <= 1
    /\ 4 <= v
    /\ 4 * q / (4 + q) <= GetPhi r * GetPhi r.
Proof.
  intros fuel player opponentMu opponentPhi score zScore r Hr. cbn zeta.
  destruct (UpdatePlayerRating_parts _ _ _ _ _ _ _ Hr)
    as (sigmaPrime & _ & -> & Hg & HE & Hv & Hs & _).
  pose proof (opponent_g_le_1 opponentPhi) as Hg1.
  pose proof (ComputeVariance_at_least_4 _ _ (conj Hg Hg1) HE) as Hv4.
  split; [split; assumption|]. split; [assumption|].
  unfold UpdatePlayerRating_finish.
  cbn [GetPhi GetSigma SetSigma SetPhi SetMu phi sigma].
  destruct (UpdateRatingDeviation_square (Engine.phi player) sigmaPrime _
              Hs Hv) as [_ Hsq].
  fold (GetPhi player) in *. unfold GetPhi in *. rewrite Hsq.
  set (v := ComputeVariance _ _) in *.
  set (q := Engine.phi player * Engine.phi player + sigmaPrime * sigmaPrime).
  assert (Hq : 0 < q) by (unfold q; nra).
  replace (v + Engine.phi player * Engine.phi player
           + sigmaPrime * sigmaPrime) with (v + q) by (unfold q; ring).
  apply (Rmult_le_reg_r ((4 + q) * (v + q))); [nra|].
  replace (4 * q / (4 + q) * ((4 + q) * (v + q))) with (4 * q * (v + q))
    by (field; lra).
  replace (v * q / (v + q) * ((4 + q) * (v + q))) with (v * q * (4 + q))
    by (field; lra).
  nra.
Qed.

Lemma UpdatePlayerRating_deviation_floor_witness :
  exists r,
    UpdatePlayerRating 0 close_winner 0 0 1 0 = Some r
    /\ 4 <= ComputeVariance (opponent_g 0)
              (ComputeExpectedScore close_winner 0 (opponent_g 0)).
Proof.
  eexists. split.
  - apply close_winner_update.
  - exact (proj1 (proj2 (UpdatePlayerRating_deviation_floor
                           0 close_winner 0 0 1 0 _
                           (close_winner_update 0 0)))).
Defined.

End DeviationFloor.

Section RatingPoints.
Import Engine.
Import RatingState.
Local Open Scope R_scope.

(** X23.  In Glicko-1 points: no participant's rating moves by more than
    [kMaxRatingChange * kScale = 300.531794] points in one processed
    match. *)
Theorem ProcessMatch_rating_points_bounded :
  forall fuel m m',
    ProcessMatch fuel m = Some m' ->
    kMaxRatingChange * kScale = 300531794 / 1000000
    /\ (forall i,
          (i < length (teamA m))%nat ->
          Rabs (GetRating (rating (nth i (teamA m') MatchPlayer_default))
                - GetRating (rating (nth i (teamA m) MatchPlayer_default)))
          <= kMaxRatingChange * kScale)
    /\ (forall i,
          (i < length (teamB m))%nat ->
          Rabs (GetRating (rating (nth i (teamB m') MatchPlayer_default))
                - GetRating (rating (nth i (teamB m) MatchPlayer_default)))
          <= kMaxRatingChange * kScale).
Proof.
  intros fuel m m' H.
  destruct (ProcessMatch_mean_change_bounded fuel m m' H) as [HA HB].
  assert (Hscale : forall a b,
            Rabs (GetMu a - GetMu b) <= kMaxRatingChange ->
            Rabs (GetRating a - GetRating b) <= kMaxRatingChange * kScale).
  { intros a b Hab. unfold GetRating, GetMu in *.
    replace (mu a * kScale + kDefaultRating - (mu b * kScale + kDefaultRating))
      with ((mu a - mu b) * kScale) by ring.
    rewrite Rabs_mult, (Rabs_pos_eq kScale) by (unfold kScale; lra).
    apply Rmult_le_compat_r; [unfold kScale; lra | assumption]. }
  split; [unfold kMaxRatingChange, kScale; field|].
  split; intros i Hi; apply Hscale; [now apply HA | now apply HB].
Qed.

Lemma ProcessMatch_rating_points_bounded_witness :
  exists m',
    ProcessMatch 0 close_match = Some m'
    /\ kMaxRatingChange * kScale = 300531794 / 1000000.
Proof.
  destruct (ProcessMatch_close_match 0) as (rA & rB & H & _).
  eexists. split; [exact H|].
  apply (ProcessMatch_rating_points_bounded 0 close_match _ H).
Defined.

End RatingPoints.

Section FloorWitness.
Import Engine.
Import BatchProcessor.
Import String Ascii.
Local Open Scope R_scope.

Lemma ComputePerformanceScore_floor_witness :
  let player :=
    {| playerId := EmptyString; playerName := EmptyString;
       team := EmptyString; kills := 20; deaths := 5; damage := 3300;
       score := 0 |} in
  ComputePerformanceScore player = 100.
Proof.
  cbn zeta. apply (proj1 ComputePerformanceScore_floor).
  cbn [kills deaths damage]. lra.
Defined.


End FloorWitness.

Section FloatTotalOrder.
Import Floats.

(** On values that are not NaN the comparison is a strict weak order: what
    lies below [c] lies below [b] or [b] lies below [c]. *)
Lemma SFcompare_Lt_split (a b c : spec_float) :
  SFcompare b b = Some Eq ->
  SFcompare a c = Some Lt ->
  SFcompare a b = Some Lt \/ SFcompare b c = Some Lt.
Proof.
  destruct a as [sa|sa| |sa ma ea], b as [sb|sb| |sb mb eb],
           c as [sc|sc| |sc mc ec]; cbn;
    try discriminate; try (now left); try (now right);
    repeat match goal with s : bool |- _ => destruct s end;
    cbn; try discriminate; try (now left); try (now right).
  all: rewrite ?Pos.compare_cont_spec; cbn [Pos.switch_Eq].
  all: intros _.
  all: destruct (Z.compare_spec ea eb), (Z.compare_spec eb ec),
         (Z.compare_spec ea ec);
       cbn; try discriminate; try (now left); try (now right); try lia; subst.
  all: destruct (Pos.compare_spec ma mb), (Pos.compare_spec mb mc),
         (Pos.compare_spec ma mc);
       cbn; try discriminate; try (now left); try (now right); try lia.
Qed.

Lemma ltb_split (a b c : float) :
  PrimFloat.eqb b b = true ->
  PrimFloat.ltb a c = true ->
  PrimFloat.ltb a b = true \/ PrimFloat.ltb b c = true.
Proof.
  rewrite !ltb_spec, eqb_spec. unfold SFltb, SFeqb. intros Hb Hac.
  destruct (SFcompare (Prim2SF b) (Prim2SF b)) as [[]|] eqn:Hbb;
    try discriminate.
  destruct (SFcompare (Prim2SF a) (Prim2SF c)) as [[]|] eqn:Hc;
    try discriminate.
  destruct (SFcompare_Lt_split _ _ _ Hbb Hc) as [H | H]; rewrite H; auto.
Qed.

End FloatTotalOrder.

Section SortedPool.
Import Floats.
Import Balancer.
Import BalancerReference.

Lemma ltb_asym (a b : float) :
  PrimFloat.ltb a b = true -> PrimFloat.ltb b a = false.
Proof.
  intro H. destruct (PrimFloat.ltb b a) eqn:Hba; [|reflexivity].
  pose proof (ltb_trans _ _ _ H Hba) as Haa.
  now rewrite ltb_irrefl in Haa.
Qed.

Lemma insert_sorted_descending (x : PlayerInfo) (l : list PlayerInfo) :
  (forall p, In p l ->
     is_number (ComputeEffectiveRating (rating p)) = true) ->
  descending l -> descending (insert_sorted x l).
Proof.
  unfold descending. intros Hnum Hl.
  induction Hl as [|y l Hy Hl IH]; cbn [insert_sorted].
  - constructor; constructor.
  - destruct (rated_above y x) eqn:Hyx.
    + constructor.
      * apply Forall_forall. intros z Hz.
        apply (Permutation_in _ (sorted_insert_perm x l)) in Hz.
        destruct Hz as [<- | Hz].
        -- unfold rated_above in *. now apply ltb_asym.
        -- rewrite Forall_forall in Hy. now apply Hy.
      * apply IH. intros p Hp. apply Hnum. now right.
    + constructor; [|now constructor].
      constructor; [assumption|].
      apply Forall_forall. intros z Hz.
      destruct (rated_above z x) eqn:Hzx; [|reflexivity].
      unfold rated_above in *.
      destruct (ltb_split _ (ComputeEffectiveRating (rating y)) _
                  (Hnum y (or_introl eq_refl)) Hzx) as [H | H].
      * congruence.
      * rewrite Forall_forall in Hy. specialize (Hy z Hz). congruence.
Qed.

Lemma sort_by_effective_rating_descending (l : list PlayerInfo) :
  (forall p, In p l ->
     is_number (ComputeEffectiveRating (rating p)) = true) ->
  descending (sort_by_effective_rating l).
Proof.
  induction l as [|x l IH]; intro Hnum; cbn [sort_by_effective_rating].
  - constructor.
  - apply insert_sorted_descending.
    + intros p Hp. apply (Permutation_in _ (sort_perm l)) in Hp.
      apply Hnum. now right.
    + apply IH. intros p Hp. apply Hnum. now right.
Qed.

Lemma descending_nth (l : list PlayerInfo) :
  descending l ->
  forall i j, (i < j < length l)%nat ->
    rated_above (nth j l PlayerInfo_default) (nth i l PlayerInfo_default)
    = false.
Proof.
  unfold descending. intro Hl.
  induction Hl as [|x l Hx Hl IH]; intros i j Hij; [cbn in Hij; lia|].
  cbn [length] in Hij. destruct j as [|j]; [lia|]. cbn [nth].
  destruct i as [|i].
  - rewrite Forall_forall in Hx. apply Hx, nth_In. lia.
  - apply IH. lia.
Qed.

(** X24.  When no effective rating in the pool is NaN, the pool as
    [BalanceTeams] hands it to the search holds every player of the pool
    once, each with its effective rating stored, in descending order of
    effective rating: no player is rated above a player at a lower index.
    So the players at sorted indices 0 and 1 are two players of highest
    effective rating. *)
Theorem sortedPlayers_descending :
  forall players,
    (forall p, In p players ->
       is_number (ComputeEffectiveRating (rating p)) = true) ->
    let sorted := sortedPlayers_of players in
    Permutation sorted (map with_effective_rating players)
    /\ (forall p, In p sorted ->
          effectiveRating p = ComputeEffectiveRating (rating p))
    /\ forall i j,
         (i < j < length players)%nat ->
         PrimFloat.ltb
           (ComputeEffectiveRating (rating (player_at sorted i)))
           (ComputeEffectiveRating (rating (player_at sorted j)))
         = false.
Proof.
  intros players Hnum sorted.
  assert (Hperm : Permutation sorted (map with_effective_rating players))
    by apply sort_perm.
  split; [exact Hperm|]. split.
  - intros p Hp. apply (Permutation_in _ Hperm) in Hp.
    apply in_map_iff in Hp. destruct Hp as (q & <- & _). reflexivity.
  - intros i j Hij.
    apply (descending_nth sorted).
    + apply sort_by_effective_rating_descending.
      intros p Hp. apply in_map_iff in Hp. destruct Hp as (q & <- & Hq).
      exact (Hnum q Hq).
    + unfold sorted. now rewrite sortedPlayers_length.
Qed.

Lemma sortedPlayers_descending_witness :
  PrimFloat.ltb
    (ComputeEffectiveRating (rating (player_at (sortedPlayers_of pool4) 0)))
    (ComputeEffectiveRating (rating (player_at (sortedPlayers_of pool4) 1)))
  = false.
Proof.
  apply (sortedPlayers_descending pool4).
  - intros p Hp. cbn in Hp.
    repeat (destruct Hp as [<- | Hp]; [vm_compute; reflexivity|]).
    contradiction.
  - cbn. lia.
Defined.

End SortedPool.

(* ================================================================== *)
(** * The balancer: shape of the returned assignment *)
(* ================================================================== *)

Section BalancerPartition.
Import Balancer.

Lemma increasing_from_NoDup (l : list nat) :
  forall start, increasing_from start l -> NoDup l.
Proof.
  induction l as [|x l IH]; intros start Hinc; [constructor|].
  destruct Hinc as [_ Hinc]. constructor; [|now apply (IH (S x))].
  intro Hin. pose proof (increasing_from_members _ _ _ Hinc Hin). lia.
Qed.

Lemma complement_indices_partition (n : nat) (c : list nat) :
  NoDup c -> (forall x, In x c -> (x < n)%nat) ->
  Permutation (c ++ complement_indices n c) (seq 0 n).
Proof.
  intros Hnd Hlt. apply NoDup_Permutation.
  - apply NoDup_app; [assumption| |].
    + unfold complement_indices. apply NoDup_filter, seq_NoDup.
    + intros x Hx Hc. apply complement_indices_In in Hc. tauto.
  - apply seq_NoDup.
  - intro x. rewrite in_app_iff, complement_indices_In, in_seq. split.
    + intros [H | [H _]]; [specialize (Hlt x H)|]; lia.
    + intros [_ H]. destruct (in_dec Nat.eq_dec x c); [now left | right].
      split; [lia | assumption].
Qed.

Lemma playerIds_by_index (sorted : list PlayerInfo) :
  map (fun idx => playerId (player_at sorted idx)) (seq 0 (length sorted))
  = map playerId sorted.
Proof.
  apply (nth_ext _ _ (playerId (player_at sorted 0))
                 (playerId PlayerInfo_default)).
  - now rewrite !length_map, length_seq.
  - intros i Hi. rewrite length_map, length_seq in Hi.
    rewrite (map_nth (fun idx => playerId (player_at sorted idx))).
    rewrite seq_nth by assumption. rewrite map_nth. reflexivity.
Qed.

Lemma CreateAssignment_partition (sorted : list PlayerInfo) (c : list nat) :
  NoDup c -> (forall x, In x c -> (x < length sorted)%nat) ->
  let a := CreateAssignment sorted c in
  Permutation (team0PlayerIds a ++ team1PlayerIds a) (map playerId sorted)
  /\ length (team0PlayerIds a) = length c
  /\ length (team1PlayerIds a) = (length sorted - length c)%nat
  /\ team0PlayerIds a = map (fun idx => playerId (player_at sorted idx)) c.
Proof.
  intros Hnd Hlt. cbn zeta.
  unfold CreateAssignment; cbn [team0PlayerIds team1PlayerIds].
  pose proof (complement_indices_partition (length sorted) c Hnd Hlt) as Hp.
  split; [|split; [|split]].
  - rewrite <- map_app, <- playerIds_by_index. now apply Permutation_map.
  - apply length_map.
  - rewrite length_map. apply Permutation_length in Hp.
    rewrite length_app, length_seq in Hp. lia.
  - reflexivity.
Qed.

(** What [BalanceTeams] returns for a pool of at least two players: the
    initial assignment, or [CreateAssignment] on a team-0 selection of the
    sorted pool that passed the top-player checks. *)
Lemma BalanceTeams_selection (players : list PlayerInfo)
      (config : BalancerConfig) :
  (2 <= length players)%nat ->
  exists a, BalanceTeams players config = Some a
    /\ (a = bestAssignment initial_state
        \/ exists c, team0_selection players config c
             /\ In c (all_candidates players config)
             /\ a = CreateAssignment (sortedPlayers_of players) c).
Proof.
  intro Hn.
  destruct (BalanceTeams_origin players config Hn)
    as (a & Hret & [Hinit | (c & Hin & _ & Hc)]).
  - exists a. split; [assumption | now left].
  - exists a. split; [assumption|]. right. exists c.
    split; [now apply all_candidates_sound | now split].
Qed.

(** X25.  For a pool of at least two players [BalanceTeams] returns either
    the initial assignment (both teams empty) or a partition of the pool:
    every player id is on exactly one team, team 0 has [n / 2] players and
    team 1 the remaining [n - n / 2]. *)
Theorem BalanceTeams_partition :
  forall players config,
    (2 <= length players)%nat ->
    exists a,
      BalanceTeams players config = Some a
      /\ (a = bestAssignment initial_state
          \/ (Permutation (team0PlayerIds a ++ team1PlayerIds a)
                          (map playerId players)
              /\ length (team0PlayerIds a) = (length players / 2)%nat
              /\ length (team1PlayerIds a)
                 = (length players - length players / 2)%nat)).
Proof.
  intros players config Hn.
  destruct (BalanceTeams_selection players config Hn)
    as (a & Hret & [Hinit | (c & (Hlen & Hinc & Hlt & _) & _ & ->)]).
  - exists a. split; [assumption | now left].
  - eexists. split; [eassumption|]. right.
    destruct (CreateAssignment_partition (sortedPlayers_of players) c)
      as (Hperm & Hl0 & Hl1 & _).
    + now apply (increasing_from_NoDup c 0).
    + now rewrite sortedPlayers_length.
    + rewrite sortedPlayers_length in Hl1.
      split; [|split]; [|lia|lia].
      rewrite Hperm. apply sortedPlayers_ids.
Qed.

Lemma BalanceTeams_partition_witness :
  exists a,
    BalanceTeams pool4 (config_with kLambda 10000) = Some a
    /\ (a = bestAssignment initial_state
        \/ (Permutation (team0PlayerIds a ++ team1PlayerIds a)
                        (map playerId pool4)
            /\ length (team0PlayerIds a) = (length pool4 / 2)%nat
            /\ length (team1PlayerIds a)
               = (length pool4 - length pool4 / 2)%nat)).
Proof.
  apply (BalanceTeams_partition pool4 (config_with kLambda 10000)).
  simpl. lia.
Defined.

End BalancerPartition.

(* ================================================================== *)
(** * The balancer: when nothing is returned *)
(* ================================================================== *)

Section BalancerEmptyResult.
Import Floats.
Import Balancer.
Import BalancerReference.

Lemma abs_not_below_zero (x : float) : PrimFloat.ltb (abs x) 0 = false.
Proof.
  rewrite ltb_spec, abs_spec.
  replace (Prim2SF 0) with (S754_zero false) by reflexivity.
  destruct (Prim2SF x) as [s|s| |s m e]; reflexivity.
Qed.

Lemma isBetter_than_initial (ev : Evaluation) :
  isBetter ev (bestAssignment initial_state)
  = PrimFloat.ltb (ev_objective ev) DBL_MAX.
Proof.
  unfold isBetter.
  cbn [bestAssignment initial_state set_objectiveValue objectiveValue
       pureRatingDifference uncertaintyDifference TeamAssignment_default].
  destruct (PrimFloat.ltb (ev_objective ev) DBL_MAX); [reflexivity|].
  destruct (PrimFloat.eqb (ev_objective ev) DBL_MAX); [|reflexivity].
  rewrite abs_not_below_zero.
  destruct (PrimFloat.eqb _ 0); [apply abs_not_below_zero | reflexivity].
Qed.

Variable players : list PlayerInfo.
Variable config : BalancerConfig.


Lemma consider_candidate_from_initial (c : list nat) (st : SearchState) :
  bestAssignment st = bestAssignment initial_state ->
  bestAssignment (consider_candidate players config c st)
  = if improves_on_initial players config c then CreateAssignment players c
    else bestAssignment initial_state.
Proof.
  intro Hst. unfold improves_on_initial, consider_candidate, honors_separation,
    objective_J.
  destruct (separateTopPlayers config
            && ViolatesTopPlayerConstraint players c);
    cbn [negb andb bestAssignment]; [assumption|].
  destruct (separateTopPlayers config
            && ViolatesTopPlayerConstraint players _);
    cbn [negb andb bestAssignment]; [assumption|].
  rewrite Hst, isBetter_than_initial.
  destruct (PrimFloat.ltb _ DBL_MAX); cbn [bestAssignment]; reflexivity.
Qed.

Lemma CreateAssignment_not_initial (c : list nat) :
  c <> [] -> CreateAssignment players c <> bestAssignment initial_state.
Proof.
  intros Hc H. apply (f_equal team0PlayerIds) in H.
  unfold CreateAssignment in H. cbn in H.
  destruct c; [congruence | discriminate].
Qed.

Lemma fold_consider_initial (l : list (list nat)) :
  (forall c, In c l -> c <> []) ->
  forall st,
    bestAssignment
      (fold_left (fun st c => consider_candidate players config c st) l st)
    = bestAssignment initial_state
    <-> bestAssignment st = bestAssignment initial_state
        /\ forall c, In c l -> improves_on_initial players config c = false.
Proof.
  induction l as [|c l IH]; intros Hne st; cbn [fold_left].
  - split; [intro H; split; [assumption | intros c []] | tauto].
  - rewrite IH by (intros c' Hc'; apply Hne; now right).
    assert (Hc : c <> []) by (apply Hne; now left).
    split.
    + intros [Hbest Hrest].
      destruct (consider_candidate_best players config c st) as [H | [_ H]].
      * rewrite H in Hbest. split; [assumption|].
        intros c' [<- | Hc']; [|now apply Hrest].
        rewrite (consider_candidate_from_initial c st Hbest), Hbest in H.
        destruct (improves_on_initial players config c); [|reflexivity].
        now apply CreateAssignment_not_initial in H.
      * rewrite H in Hbest. now apply CreateAssignment_not_initial in Hbest.
    + intros [Hst Hall]. split.
      * rewrite (consider_candidate_from_initial c st Hst).
        now rewrite (Hall c (or_introl eq_refl)).
      * intros c' Hc'. apply Hall. now right.
Qed.

End BalancerEmptyResult.

Section BalancerEmptyResultClaims.
Import Floats.
Import Balancer.
Import BalancerReference.

(** X27.  For a pool of at least two players [BalanceTeams] returns the
    initial assignment, with no player on either team and objective
    [DBL_MAX], exactly when none of the candidates examined within the
    combinations cap both passes the top-player checks and has an objective
    below [DBL_MAX]; this is the case whenever the cap is 0 or negative. *)
Theorem BalanceTeams_empty_result :
  forall players config,
    (2 <= length players)%nat ->
    let sorted := sortedPlayers_of players in
    let examined :=
      firstn (Z.to_nat (maxCombinationsToTry config))
             (all_candidates players config) in
    (BalanceTeams players config = Some (bestAssignment initial_state)
     <-> forall c, In c examined ->
           honors_separation sorted config c = true ->
           PrimFloat.ltb (objective_J sorted (lambda config) c) DBL_MAX
           = false)
    /\ ((maxCombinationsToTry config <= 0)%Z ->
        BalanceTeams players config = Some (bestAssignment initial_state))
    /\ team0PlayerIds (bestAssignment initial_state) = []
    /\ team1PlayerIds (bestAssignment initial_state) = []
    /\ objectiveValue (bestAssignment initial_state) = DBL_MAX.
Proof.
  intros players config Hn sorted examined.
  assert (Hret : BalanceTeams players config
                 = Some (bestAssignment
                           (fold_left
                              (fun st c => consider_candidate sorted config c st)
                              examined initial_state))).
  { rewrite BalanceTeams_is_search by assumption.
    rewrite BalanceTeams_search_fold by assumption. cbn [option_map].
    rewrite fold_budget_firstn. cbn [combinationsTried initial_state].
    now rewrite Z.sub_0_r. }
  assert (Hne : forall c, In c examined -> c <> []).
  { intros c Hc. unfold examined in Hc.
    assert (Hin : In c (all_candidates players config)).
    { rewrite <- (firstn_skipn (Z.to_nat (maxCombinationsToTry config))
                               (all_candidates players config)).
      apply in_or_app. now left. }
    destruct (all_candidates_sound players config c Hn Hin) as (Hlen & _).
    assert (1 <= length players / 2)%nat
      by (apply Nat.div_le_lower_bound; lia).
    intros ->. cbn [length] in Hlen. lia. }
  pose proof (fold_consider_initial sorted config examined Hne initial_state)
    as Hiff.
  assert (Hchar : BalanceTeams players config
                  = Some (bestAssignment initial_state)
                  <-> forall c, In c examined ->
                        honors_separation sorted config c = true ->
                        PrimFloat.ltb (objective_J sorted (lambda config) c)
                                      DBL_MAX = false).
  { rewrite Hret. split.
    - intros [= H] c Hc Hok. apply Hiff in H. destruct H as [_ H].
      specialize (H c Hc). unfold improves_on_initial in H.
      now rewrite Hok in H.
    - intro H. f_equal. apply Hiff. split; [reflexivity|].
      intros c Hc. unfold improves_on_initial.
      destruct (honors_separation sorted config c) eqn:Hok.
      + cbn [andb]. now apply H.
      + reflexivity. }
  split; [exact Hchar|]. split; [|repeat split].
  intro Hcap. apply Hchar. intros c Hc. exfalso.
  unfold examined in Hc. replace (Z.to_nat _) with 0%nat in Hc by lia.
  exact Hc.
Qed.

Lemma BalanceTeams_empty_result_witness :
  BalanceTeams pool4 (config_with kLambda 0)
  = Some (bestAssignment initial_state).
Proof.
  apply (BalanceTeams_empty_result pool4 (config_with kLambda 0)).
  - simpl. lia.
  - simpl. lia.
Defined.

(** X28.  With [separateTopPlayers] set, a search that is not cut short
    tries 55 combinations for a pool of 8 players, 196 for 10, 714 for 12
    and 2640 for 14; in general the count is the smaller of the cap and
    that number. *)
Theorem BalanceTeams_combinations_tried :
  forall players config n count,
    separateTopPlayers config = true ->
    In (n, count) [(8, 55); (10, 196); (12, 714); (14, 2640)]%nat ->
    length players = n ->
    exists st,
      BalanceTeams_search players config = Some st
      /\ combinationsTried st
         = Z.of_nat (Nat.min (Z.to_nat (maxCombinationsToTry config)) count).
Proof.
  intros players config n count Hsep Hin Hlen.
  assert (Hn : (2 <= length players)%nat).
  { rewrite Hlen. cbn in Hin.
    repeat (destruct Hin as [[= <- <-] | Hin]; [lia|]). contradiction. }
  assert (Hcount : length (all_candidates players config) = count).
  { unfold all_candidates, forced_top. rewrite Hlen.
    destruct config as [lam sep put cap]. cbn in Hsep. subst sep.
    cbn in Hin.
    repeat (destruct Hin as [[= <- <-] | Hin]; [vm_compute; reflexivity|]).
    contradiction. }
  eexists. split.
  - rewrite BalanceTeams_search_fold by assumption.
    rewrite fold_budget_firstn. reflexivity.
  - rewrite fold_consider_tried. cbn [combinationsTried initial_state].
    rewrite Z.sub_0_r, Z.add_0_l, length_firstn, Hcount. reflexivity.
Qed.

Lemma BalanceTeams_combinations_tried_witness :
  exists st,
    BalanceTeams_search pool8 BalancerConfig_default = Some st
    /\ combinationsTried st = 55%Z.
Proof.
  apply (BalanceTeams_combinations_tried pool8 BalancerConfig_default 8 55).
  - reflexivity.
  - left. reflexivity.
  - reflexivity.
Defined.

End BalancerEmptyResultClaims.

(* ================================================================== *)
(** * The balancer and the order among equally rated players *)
(* ================================================================== *)

Section SortResults.
Import Floats.
Import Balancer.
Import BalancerReference.

Lemma std_sort_result_length (players sorted : list PlayerInfo) :
  std_sort_result players sorted -> length sorted = length players.
Proof.
  intros [Hperm _]. rewrite (Permutation_length Hperm). apply length_map.
Qed.

Lemma std_sort_result_ids (players sorted : list PlayerInfo) :
  std_sort_result players sorted ->
  Permutation (map playerId sorted) (map playerId players).
Proof.
  intros [Hperm _]. rewrite (Permutation_map playerId Hperm), map_map.
  reflexivity.
Qed.

(** The insertion sort computes one of the vectors the sort may leave. *)
Lemma sortedPlayers_std_sort_result (players : list PlayerInfo) :
  (forall p, In p players ->
     is_number (ComputeEffectiveRating (rating p)) = true) ->
  std_sort_result players (sortedPlayers_of players).
Proof.
  intro Hnum. split; [apply sort_perm|].
  apply sort_by_effective_rating_descending.
  intros p Hp. apply in_map_iff in Hp. destruct Hp as (q & <- & Hq).
  exact (Hnum q Hq).
Qed.

Lemma descending_pairwise (l : list PlayerInfo) :
  (forall a b, In a l -> In b l -> rated_above b a = false) ->
  descending l.
Proof.
  unfold descending. induction l as [|x l IH]; intro H; constructor.
  - apply Forall_forall. intros y Hy. apply H; [now left | now right].
  - apply IH. intros a b Ha Hb. apply H; now right.
Qed.

Lemma descending_head (x : PlayerInfo) (l : list PlayerInfo) :
  descending (x :: l) -> forall y, In y l -> rated_above y x = false.
Proof.
  unfold descending. intros H y Hy. inversion H as [|? ? Hx _]; subst.
  rewrite Forall_forall in Hx. now apply Hx.
Qed.

Lemma descending_tail (x : PlayerInfo) (l : list PlayerInfo) :
  descending (x :: l) -> descending l.
Proof. unfold descending. intro H. now inversion H. Qed.

Lemma same_id_same_player (l : list PlayerInfo) (a b : PlayerInfo) :
  NoDup (map playerId l) -> In a l -> In b l ->
  playerId a = playerId b -> a = b.
Proof.
  induction l as [|x l IH]; intros Hnd Ha Hb Hid; [contradiction|].
  cbn [map] in Hnd. inversion Hnd as [|? ? Hx Hl]; subst.
  destruct Ha as [<- | Ha], Hb as [<- | Hb].
  - reflexivity.
  - exfalso. apply Hx. rewrite Hid. now apply in_map.
  - exfalso. apply Hx. rewrite <- Hid. now apply in_map.
  - now apply IH.
Qed.

Lemma strictly_rated_spec (l : list PlayerInfo) :
  strictly_rated l = true ->
  forall a b, In a l -> In b l -> playerId a <> playerId b ->
    rated_above a b = true \/ rated_above b a = true.
Proof.
  unfold strictly_rated. intros H a b Ha Hb Hid.
  rewrite forallb_forall in H. specialize (H a Ha).
  rewrite forallb_forall in H. specialize (H b Hb).
  apply orb_true_iff in H. destruct H as [H | H]; [|now right].
  apply orb_true_iff in H. destruct H as [H | H]; [|now left].
  apply Z.eqb_eq in H. contradiction.
Qed.

(** Where ratings do not tie there is one descending order only. *)
Lemma descending_unique :
  forall l1 l2,
    Permutation l1 l2 -> descending l1 -> descending l2 ->
    NoDup (map playerId l1) ->
    (forall a b, In a l1 -> In b l1 -> playerId a <> playerId b ->
       rated_above a b = true \/ rated_above b a = true) ->
    l1 = l2.
Proof.
  induction l1 as [|x t1 IH]; intros l2 Hperm Hd1 Hd2 Hnd Htot.
  - apply Permutation_nil in Hperm. now subst.
  - destruct l2 as [|y t2];
      [apply Permutation_sym, Permutation_nil in Hperm; discriminate|].
    assert (Hxy : x = y).
    { assert (Hy : In y (x :: t1))
        by (apply (Permutation_in _ (Permutation_sym Hperm)); now left).
      assert (Hx : In x (y :: t2))
        by (apply (Permutation_in _ Hperm); now left).
      destruct (Z.eq_dec (playerId x) (playerId y)) as [Hid | Hid].
      - apply (same_id_same_player (x :: t1)); auto. now left.
      - exfalso.
        assert (Hy' : In y t1)
          by (destruct Hy as [-> | Hy]; [congruence | exact Hy]).
        assert (Hx' : In x t2)
          by (destruct Hx as [-> | Hx]; [congruence | exact Hx]).
        pose proof (descending_head _ _ Hd1 y Hy') as H1.
        pose proof (descending_head _ _ Hd2 x Hx') as H2.
        destruct (Htot x y (or_introl eq_refl) Hy Hid); congruence. }
    subst y. f_equal. apply IH.
    + now apply Permutation_cons_inv in Hperm.
    + now apply descending_tail in Hd1.
    + now apply descending_tail in Hd2.
    + cbn [map] in Hnd. now inversion Hnd.
    + intros a b Ha Hb. apply Htot; now right.
Qed.

(** For a pool without ties and without NaN the sort has one result, the one
    the insertion sort computes. *)
Lemma std_sort_result_unique (players sorted : list PlayerInfo) :
  NoDup (map playerId players) ->
  (forall p, In p players ->
     is_number (ComputeEffectiveRating (rating p)) = true) ->
  strictly_rated (sortedPlayers_of players) = true ->
  std_sort_result players sorted ->
  sorted = sortedPlayers_of players.
Proof.
  intros Hnd Hnum Hstrict [Hperm Hdesc].
  destruct (sortedPlayers_std_sort_result players Hnum) as [Hperm' Hdesc'].
  symmetry. apply descending_unique.
  - rewrite Hperm'. now symmetry.
  - assumption.
  - assumption.
  - eapply Permutation_NoDup; [|exact Hnd].
    symmetry. apply sortedPlayers_ids.
  - now apply strictly_rated_spec.
Qed.

Lemma pool8_numbers :
  forall p, In p pool8 ->
    is_number (ComputeEffectiveRating (rating p)) = true.
Proof.
  intros p Hp. cbn in Hp.
  repeat (destruct Hp as [<- | Hp]; [vm_compute; reflexivity|]).
  contradiction.
Qed.

Lemma pool4_numbers :
  forall p, In p pool4 ->
    is_number (ComputeEffectiveRating (rating p)) = true.
Proof.
  intros p Hp. cbn in Hp.
  repeat (destruct Hp as [<- | Hp]; [vm_compute; reflexivity|]).
  contradiction.
Qed.

Lemma pool8_sort_unique (sorted : list PlayerInfo) :
  std_sort_result pool8 sorted -> sorted = sortedPlayers_of pool8.
Proof.
  apply std_sort_result_unique.
  - cbn. repeat constructor; cbn; intuition discriminate.
  - exact pool8_numbers.
  - vm_compute. reflexivity.
Qed.

(** The seventeen equally rated players: every order is descending. *)
Lemma equal_pool_reordered_result :
  std_sort_result equal_pool equal_pool_reordered.
Proof.
  split.
  - unfold equal_pool, equal_pool_reordered. rewrite map_map.
    apply Permutation_map.
    apply NoDup_Permutation.
    + repeat constructor; cbn; intuition discriminate.
    + repeat constructor; cbn; intuition discriminate.
    + intro x. cbn. split; intro H;
        repeat (destruct H as [<- | H];
                [repeat (first [left; reflexivity | right])|]);
        contradiction.
  - apply descending_pairwise. intros a b Ha Hb.
    unfold equal_pool_reordered in Ha, Hb.
    apply in_map_iff in Ha, Hb.
    destruct Ha as (i & <- & _), Hb as (j & <- & _).
    unfold rated_above. cbn [rating player PlayerInfo_new]. apply ltb_irrefl.
Qed.

End SortResults.

Section BalancerTies.
Import Floats.
Import Balancer.
Import BalancerReference.
Local Open Scope Z_scope.

(** The result for whatever vector the sort left: the initial assignment,
    or [CreateAssignment] on a team-0 selection examined within the budget
    that passed the top-player checks. *)
Lemma BalanceTeams_sorted_selection (players sorted : list PlayerInfo)
      (config : BalancerConfig) :
  (2 <= length players)%nat ->
  length sorted = length players ->
  exists a, BalanceTeams_sorted players sorted config = Some a
    /\ (a = bestAssignment initial_state
        \/ exists c, team0_selection players config c
             /\ In c (all_candidates players config)
             /\ honors_separation sorted config c = true
             /\ a = CreateAssignment sorted c).
Proof.
  intros Hn Hlen.
  destruct (BalanceTeams_sorted_origin players sorted config Hn Hlen)
    as (a & Hret & [Hinit | (c & Hin & Hok & Hc)]).
  - exists a. split; [assumption | now left].
  - exists a. split; [assumption|]. right. exists c.
    apply firstn_In_all in Hin.
    split; [now apply all_candidates_sound | now repeat split].
Qed.

Lemma descending_first (sorted : list PlayerInfo) :
  descending sorted ->
  forall j, (j < length sorted)%nat ->
    rated_above (player_at sorted j) (player_at sorted 0) = false.
Proof.
  intros Hd j Hj. destruct j as [|j].
  - unfold rated_above. apply ltb_irrefl.
  - apply (descending_nth sorted Hd 0 (S j)). lia.
Qed.

Lemma descending_second (sorted : list PlayerInfo) :
  descending sorted ->
  forall j, (1 <= j < length sorted)%nat ->
    rated_above (player_at sorted j) (player_at sorted 1) = false.
Proof.
  intros Hd j Hj. destruct (Nat.eq_dec j 1) as [-> | Hne].
  - unfold rated_above. apply ltb_irrefl.
  - apply (descending_nth sorted Hd 1 j). lia.
Qed.

(** C7.  With [separateTopPlayers] set, for a pool of at least two players
    with distinct ids and for every vector [std::sort] may leave (whatever
    the order among equally rated players), the players at sorted indices 0
    and 1 are two players of highest effective rating: no player is rated
    above the first, and none but the first above the second; [BalanceTeams]
    returns an assignment, and neither of its teams holds both of them.  On
    the eight-player pool with players rated 2200 and 2150 above six players
    around 1500 the sort has one result, and player 1 (2200) is on team 0
    and player 2 (2150) on team 1. *)
Theorem BalanceTeams_separates_top_two :
  (forall players config sorted,
      separateTopPlayers config = true ->
      (2 <= length players)%nat ->
      NoDup (map playerId players) ->
      std_sort_result players sorted ->
      let top1 := player_at sorted 0 in
      let top2 := player_at sorted 1 in
      (forall j, (j < length players)%nat ->
         rated_above (player_at sorted j) top1 = false)
      /\ (forall j, (1 <= j < length players)%nat ->
            rated_above (player_at sorted j) top2 = false)
      /\ exists a,
           BalanceTeams_sorted players sorted config = Some a
           /\ ~ (In (playerId top1) (team0PlayerIds a)
                 /\ In (playerId top2) (team0PlayerIds a))
           /\ ~ (In (playerId top1) (team1PlayerIds a)
                 /\ In (playerId top2) (team1PlayerIds a)))
  /\ (forall sorted,
        std_sort_result pool8 sorted ->
        map playerId (firstn 2 sorted) = [1; 2]
        /\ exists a,
             BalanceTeams_sorted pool8 sorted BalancerConfig_default = Some a
             /\ BalanceTeams pool8 BalancerConfig_default = Some a
             /\ team0PlayerIds a = [1; 8; 4; 3]
             /\ team1PlayerIds a = [2; 7; 6; 5]).
Proof.
  split.
  - intros players config sorted Hsep Hn Hnd Hsorted. cbn zeta.
    pose proof (std_sort_result_length _ _ Hsorted) as Hlen.
    destruct Hsorted as [Hperm Hdesc].
    split; [|split].
    + intros j Hj. apply descending_first; [assumption | lia].
    + intros j Hj. apply descending_second; [assumption | lia].
    + destruct (BalanceTeams_sorted_origin players sorted config Hn Hlen)
        as (a & Hret & [Hinit | (c & Hin & Hok & Hc)]).
      * exists a. split; [assumption|]. subst a. cbn. tauto.
      * exists a. split; [assumption|]. subst a.
        apply (CreateAssignment_separates _ config).
        -- assumption.
        -- lia.
        -- eapply Permutation_NoDup; [|exact Hnd].
           symmetry. apply std_sort_result_ids. now split.
        -- rewrite Hlen. apply firstn_In_all in Hin.
           now apply (all_candidates_members players config).
        -- assumption.
  - intros sorted Hsorted. apply pool8_sort_unique in Hsorted. subst sorted.
    split; [vm_compute; reflexivity|].
    eexists. split; [vm_compute; reflexivity|].
    repeat split; vm_compute; reflexivity.
Qed.

Lemma BalanceTeams_separates_top_two_witness :
  exists a,
    BalanceTeams_sorted equal_pool equal_pool_reordered BalancerConfig_default
    = Some a
    /\ ~ (In 9 (team0PlayerIds a) /\ In 17 (team0PlayerIds a))
    /\ ~ (In 9 (team1PlayerIds a) /\ In 17 (team1PlayerIds a)).
Proof.
  apply (proj1 BalanceTeams_separates_top_two equal_pool
               BalancerConfig_default equal_pool_reordered).
  - reflexivity.
  - cbn. lia.
  - cbn. repeat constructor; cbn; intuition discriminate.
  - exact equal_pool_reordered_result.
Defined.

(** C9 (amended).  For a pool of at least two players, the default weight
    [lambda = kLambda] and every vector [std::sort] may leave, the search
    examines the first [maxCombinationsToTry] candidate selections in
    enumeration order and [BalanceTeams] returns the best of them: the
    initial assignment or an examined candidate that passed the top-player
    checks, and no examined candidate that passed them has an objective
    below the returned one.  The budget shows in the number of combinations
    tried, which is only printed, and nowhere in the result. *)
Theorem BalanceTeams_returns_best_examined :
  forall players config sorted,
    (2 <= length players)%nat ->
    lambda config = kLambda ->
    std_sort_result players sorted ->
    let examined :=
      firstn (Z.to_nat (maxCombinationsToTry config))
             (all_candidates players config) in
    exists st,
      BalanceTeams_search_sorted players sorted config = Some st
      /\ BalanceTeams_sorted players sorted config = Some (bestAssignment st)
      /\ combinationsTried st = Z.of_nat (length examined)
      /\ (forall c,
            In c examined ->
            honors_separation sorted config c = true ->
            PrimFloat.ltb (objective_J sorted (lambda config) c)
                          (objectiveValue (bestAssignment st)) = false)
      /\ (bestAssignment st = bestAssignment initial_state
          \/ exists c,
               In c examined
               /\ honors_separation sorted config c = true
               /\ bestAssignment st = CreateAssignment sorted c
               /\ objectiveValue (bestAssignment st)
                  = objective_J sorted (lambda config) c).
Proof.
  intros players config sorted Hn Hlam Hsorted examined.
  pose proof (std_sort_result_length _ _ Hsorted) as Hlen.
  assert (Hsearch :
            BalanceTeams_search_sorted players sorted config
            = Some (fold_left
                      (fun st c => consider_candidate sorted config c st)
                      examined initial_state)).
  { rewrite BalanceTeams_search_sorted_fold by assumption.
    rewrite fold_budget_firstn. cbn [combinationsTried initial_state].
    now rewrite Z.sub_0_r. }
  eexists. split; [exact Hsearch|]. split; [|split; [|split]].
  - rewrite BalanceTeams_sorted_search by assumption. now rewrite Hsearch.
  - rewrite fold_consider_tried. reflexivity.
  - intros c Hc Hok. rewrite Hlam.
    now apply (fold_consider_minimal sorted config Hlam).
  - destruct (fold_consider_best sorted config examined initial_state)
      as [H | (c & Hin & Hok & H)]; [now left|].
    right. exists c. repeat split; try assumption.
    rewrite H, Hlam. reflexivity.
Qed.

Lemma BalanceTeams_returns_best_examined_witness :
  exists st,
    BalanceTeams_search_sorted pool4 (sortedPlayers_of pool4)
                               (config_with kLambda 2) = Some st
    /\ BalanceTeams_sorted pool4 (sortedPlayers_of pool4)
                           (config_with kLambda 2)
       = Some (bestAssignment st)
    /\ combinationsTried st = 2
    /\ PrimFloat.ltb
         (objective_J (sortedPlayers_of pool4) kLambda [0; 3]%nat)
         (objectiveValue (bestAssignment st)) = false.
Proof.
  destruct (BalanceTeams_returns_best_examined pool4 (config_with kLambda 2)
              (sortedPlayers_of pool4))
    as (st & Hsearch & Hret & Htried & Hmin & _).
  - cbn. lia.
  - reflexivity.
  - apply sortedPlayers_std_sort_result. exact pool4_numbers.
  - exists st. split; [exact Hsearch|]. split; [exact Hret|].
    split; [exact Htried|].
    apply Hmin; [right; left; reflexivity | vm_compute; reflexivity].
Defined.

(** X26.  For an odd pool with [putTopPlayerInSmallerTeam] set and every
    vector [std::sort] may leave, team 0 of the returned assignment is the
    smaller team and its first player is the player at sorted index 0, a
    player no other is rated above (unless the initial assignment is
    returned).  Which of several equally rated players that is depends on
    the order the sort left. *)
Theorem BalanceTeams_top_player_in_smaller_team :
  forall players config sorted,
    (2 <= length players)%nat ->
    Nat.odd (length players) = true ->
    putTopPlayerInSmallerTeam config = true ->
    std_sort_result players sorted ->
    (forall j, (j < length players)%nat ->
       rated_above (player_at sorted j) (player_at sorted 0) = false)
    /\ exists a,
         BalanceTeams_sorted players sorted config = Some a
         /\ (a = bestAssignment initial_state
             \/ (hd_error (team0PlayerIds a)
                 = Some (playerId (player_at sorted 0))
                 /\ (length (team0PlayerIds a)
                     < length (team1PlayerIds a))%nat)).
Proof.
  intros players config sorted Hn Hodd Hput Hsorted.
  pose proof (std_sort_result_length _ _ Hsorted) as Hlen.
  split.
  { intros j Hj. apply descending_first; [apply Hsorted | lia]. }
  assert (Hforced : forced_top players config = true).
  { unfold forced_top. rewrite Hput, andb_true_r.
    apply negb_true_iff, Nat.eqb_neq.
    rewrite <- Nat.negb_even in Hodd. apply negb_true_iff in Hodd.
    intro H. apply Nat.Div0.mod_divides in H. destruct H as [k Hk].
    rewrite Hk, Nat.even_mul in Hodd. discriminate. }
  destruct (BalanceTeams_sorted_selection players sorted config Hn Hlen)
    as (a & Hret & [Hinit | (c & (Hlc & Hinc & Hlt & _) & Hin & _ & ->)]).
  - exists a. split; [assumption | now left].
  - eexists. split; [eassumption|]. right.
    destruct (CreateAssignment_partition sorted c)
      as (_ & Hl0 & Hl1 & Hids).
    + now apply (increasing_from_NoDup c 0).
    + now rewrite Hlen.
    + rewrite Hlen in Hl1. split.
      * rewrite Hids. unfold all_candidates in Hin. rewrite Hforced in Hin.
        destruct (candidates_sound _ _ _ _ _ _ Hin) as (rest & -> & _).
        reflexivity.
      * assert (Hmod : (length players mod 2 = 1)%nat).
        { pose proof (forced_top_odd players config Hforced).
          pose proof (Nat.mod_upper_bound (length players) 2). lia. }
        pose proof (Nat.div_mod_eq (length players) 2). lia.
Qed.

Lemma BalanceTeams_top_player_in_smaller_team_witness :
  exists a,
    BalanceTeams_sorted equal_pool equal_pool_reordered BalancerConfig_default
    = Some a
    /\ (a = bestAssignment initial_state
        \/ (hd_error (team0PlayerIds a) = Some 9
            /\ (length (team0PlayerIds a) < length (team1PlayerIds a))%nat)).
Proof.
  apply (BalanceTeams_top_player_in_smaller_team equal_pool
           BalancerConfig_default equal_pool_reordered).
  - cbn. lia.
  - reflexivity.
  - reflexivity.
  - exact equal_pool_reordered_result.
Defined.

End BalancerTies.

(* ================================================================== *)
(** * The volatility update on unsurprising results *)
(* ================================================================== *)

Section VolatilityShape.
Import Engine.
Import VolatilityReference.
Local Open Scope R_scope.

Variables c q : R.
Hypothesis c_pos : 0 < c.
Hypothesis q_range : 0 <= q <= c.

Lemma first_term_pos (t : R) : 0 < t -> 0 < first_term c q t.
Proof.
  intro Ht. unfold first_term.
  apply Rdiv_lt_0_compat; nra.
Qed.

Lemma first_term_le (t : R) : 0 < t -> first_term c q t <= t / (2 * c).
Proof.
  intro Ht. unfold first_term.
  assert (Hd : 0 < 2 * (c + t) * (c + t)) by nra.
  apply (Rmult_le_reg_r (2 * (c + t) * (c + t))); [assumption|].
  replace (t * (q + t) / (2 * (c + t) * (c + t)) * (2 * (c + t) * (c + t)))
    with (t * (q + t)) by (field; lra).
  replace (t / (2 * c) * (2 * (c + t) * (c + t)))
    with (t * ((c + t) * (c + t) / c)) by (field; lra).
  apply Rmult_le_compat_l; [lra|].
  apply (Rmult_le_reg_r c); [assumption|].
  replace ((c + t) * (c + t) / c * c) with ((c + t) * (c + t))
    by (field; lra).
  nra.
Qed.

Lemma first_term_increasing (t1 t2 : R) :
  0 < t1 -> t1 <= t2 -> first_term c q t1 <= first_term c q t2.
Proof.
  intros H1 H12. unfold first_term.
  assert (Hd1 : 0 < 2 * (c + t1) * (c + t1)) by nra.
  assert (Hd2 : 0 < 2 * (c + t2) * (c + t2)) by nra.
  cut (0 <= t2 * (q + t2) / (2 * (c + t2) * (c + t2))
                - t1 * (q + t1) / (2 * (c + t1) * (c + t1))); [lra|].
  replace (t2 * (q + t2) / (2 * (c + t2) * (c + t2))
           - t1 * (q + t1) / (2 * (c + t1) * (c + t1)))
    with ((t2 - t1)
          * (q * c * c + c * c * (t1 + t2) + (2 * c - q) * (t1 * t2))
          / (2 * (c + t1) * (c + t1) * ((c + t2) * (c + t2))))
    by (field; lra).
  apply Rmult_le_pos.
  - apply Rmult_le_pos; [lra|].
    assert (Hcc : 0 < c * c) by nra.
    assert (0 <= q * c * c) by nra.
    assert (0 <= c * c * (t1 + t2)) by nra.
    assert (Ht : 0 <= t1 * t2) by nra.
    assert (0 <= (2 * c - q) * (t1 * t2))
      by (apply Rmult_le_pos; [lra | assumption]).
    lra.
  - apply Rlt_le, Rinv_0_lt_compat. nra.
Qed.

Lemma first_term_scaled (t s : R) :
  0 < t -> 0 < s <= 1 -> s * s * first_term c q t <= first_term c q (s * t).
Proof.
  intros Ht Hs. unfold first_term.
  assert (Hst : 0 < s * t) by nra.
  assert (Hle : s * t <= t) by nra.
  assert (Hd1 : 0 < 2 * (c + t) * (c + t)) by nra.
  assert (Hd2 : 0 < 2 * (c + s * t) * (c + s * t)) by nra.
  cut (0 <= s * t * (q + s * t) / (2 * (c + s * t) * (c + s * t))
                - s * s * (t * (q + t) / (2 * (c + t) * (c + t)))); [lra|].
  replace (s * t * (q + s * t) / (2 * (c + s * t) * (c + s * t))
           - s * s * (t * (q + t) / (2 * (c + t) * (c + t))))
    with (s * t
          * ((q + s * t) * ((c + t) * (c + t))
             - s * (q + t) * ((c + s * t) * (c + s * t)))
          / (2 * (c + s * t) * (c + s * t) * ((c + t) * (c + t))))
    by (field; lra).
  apply Rmult_le_pos.
  - apply Rmult_le_pos; [lra|].
    assert (H1 : s * (q + t) <= q + s * t) by nra.
    assert (H2 : (c + s * t) * (c + s * t) <= (c + t) * (c + t)) by nra.
    assert (H3 : 0 <= s * (q + t)) by nra.
    assert (H4 : 0 <= (c + s * t) * (c + s * t)) by nra.
    assert (s * (q + t) * ((c + s * t) * (c + s * t))
            <= (q + s * t) * ((c + t) * (c + t))).
    { apply Rmult_le_compat; assumption. }
    lra.
  - apply Rlt_le, Rinv_0_lt_compat. nra.
Qed.

(** The slope of the first term grows with [t] as long as [t <= c / 2]. *)
Lemma first_term_slope_increasing (t1 t2 : R) :
  0 < t1 -> t1 < t2 -> t2 <= c / 2 ->
  first_term_slope c q t1 < first_term_slope c q t2.
Proof.
  intros H1 H12 H2. unfold first_term_slope.
  assert (Hc1 : 0 < c + t1) by lra.
  assert (Hc2 : 0 < c + t2) by lra.
  cut (0 < t2 * (q * c + (2 * c - q) * t2)
               / (2 * (c + t2) * (c + t2) * (c + t2))
             - t1 * (q * c + (2 * c - q) * t1)
               / (2 * (c + t1) * (c + t1) * (c + t1))); [lra|].
  replace (t2 * (q * c + (2 * c - q) * t2)
             / (2 * (c + t2) * (c + t2) * (c + t2))
           - t1 * (q * c + (2 * c - q) * t1)
             / (2 * (c + t1) * (c + t1) * (c + t1)))
    with ((t2 - t1)
          * (q * c * c * c * c + (2 * c - q) * c * c * c * (t1 + t2)
             + 6 * c * c * (c - q) * (t1 * t2)
             - q * c * (t1 * t2) * (t1 + t2)
             - (2 * c - q) * (t1 * t1 * t2 * t2))
          / (2 * (c + t1) * (c + t1) * (c + t1)
             * ((c + t2) * (c + t2) * (c + t2))))
    by (field; lra).
  apply Rmult_lt_0_compat.
  - apply Rmult_lt_0_compat; [lra|].
    assert (Ha : 0 <= q * c * c * c * c) by (repeat apply Rmult_le_pos; lra).
    assert (Hc4 : 0 < c * c * c * c) by (repeat apply Rmult_lt_0_compat; lra).
    assert (Hb : c * (c * c * c * (t1 + t2))
                 <= (2 * c - q) * (c * c * c * (t1 + t2))).
    { apply Rmult_le_compat_r; [repeat apply Rmult_le_pos; lra | lra]. }
    assert (Hd : 0 <= 6 * c * c * (c - q) * (t1 * t2))
      by (repeat apply Rmult_le_pos; lra).
    assert (Ht12 : t1 * t2 <= c / 2 * (c / 2))
      by (apply Rmult_le_compat; lra).
    assert (He : q * c * (t1 * t2) * (t1 + t2)
                 <= c * c * (c / 2 * (c / 2)) * (t1 + t2)).
    { apply Rmult_le_compat_r; [lra|].
      apply Rmult_le_compat;
        [repeat apply Rmult_le_pos; lra | repeat apply Rmult_le_pos; lra
        | | assumption].
      apply Rmult_le_compat_r; lra. }
    assert (Hx : t1 * (t1 * t2 * t2) <= t1 * (c / 2 * (c / 2) * (c / 2))).
    { apply Rmult_le_compat_l; [lra|].
      apply Rmult_le_compat;
        [repeat apply Rmult_le_pos; lra | lra | assumption | lra]. }
    assert (Hf : (2 * c - q) * (t1 * (t1 * t2 * t2))
                 <= 2 * c * (t1 * (c / 2 * (c / 2) * (c / 2)))).
    { apply Rmult_le_compat;
        [lra | repeat apply Rmult_le_pos; lra | lra | assumption]. }
    assert (Hg : c * c * c * c * t1 <= c * c * c * c * (t1 + t2))
      by (apply Rmult_le_compat_l; lra).
    assert (Hpos : 0 < c * c * c * c * (t1 + t2))
      by (repeat apply Rmult_lt_0_compat; lra).
    replace ((2 * c - q) * c * c * c * (t1 + t2))
      with ((2 * c - q) * (c * c * c * (t1 + t2))) by ring.
    replace ((2 * c - q) * (t1 * t1 * t2 * t2))
      with ((2 * c - q) * (t1 * (t1 * t2 * t2))) by ring.
    replace (c * c * (c / 2 * (c / 2)) * (t1 + t2))
      with (c * c * c * c * (t1 + t2) / 4) in He by field.
    replace (2 * c * (t1 * (c / 2 * (c / 2) * (c / 2))))
      with (c * c * c * c * t1 / 4) in Hf by field.
    replace (c * (c * c * c * (t1 + t2)))
      with (c * c * c * c * (t1 + t2)) in Hb by ring.
    lra.
  - apply Rinv_0_lt_compat. repeat apply Rmult_lt_0_compat; lra.
Qed.

End VolatilityShape.

Section VolatilityCurve.
Import Engine.
Import VolatilityReference.
Local Open Scope R_scope.

Variables c q a : R.
Hypothesis c_pos : 0 < c.
Hypothesis q_range : 0 <= q <= c.

(** [VolatilityFunction] on unsurprising results, with [c = phi^2 + v] and
    [q = c - delta^2]. *)
Lemma VolatilityFunction_curve (deltaSquared phiSquared v x : R) :
  phiSquared + v = c -> c - deltaSquared = q ->
  VolatilityFunction x deltaSquared phiSquared v a (kTau * kTau)
  = - first_term c q (exp x) - 4 * (x - a).
Proof.
  intros Hc Hq. unfold VolatilityFunction, first_term, kTau.
  pose proof (exp_pos x) as He.
  subst c q. field. lra.
Qed.

Lemma curve_derivative (x : R) :
  derivable_pt_lim (curve c q a) x (slope c q x).
Proof.
  pose proof (exp_pos x) as He.
  set (num := (exp * (fct_cte q + exp))%F).
  set (den := (fct_cte 2 * (fct_cte c + exp) * (fct_cte c + exp))%F).
  assert (Hnum : derivable_pt_lim num x
                   (exp x * (q + exp x) + exp x * (0 + exp x))).
  { unfold num.
    apply (derivable_pt_lim_mult exp (fct_cte q + exp)%F x
             (exp x) (0 + exp x)).
    - apply derivable_pt_lim_exp.
    - apply derivable_pt_lim_plus;
        [apply derivable_pt_lim_const | apply derivable_pt_lim_exp]. }
  assert (Hsum : derivable_pt_lim (fct_cte c + exp)%F x (0 + exp x)).
  { apply derivable_pt_lim_plus;
      [apply derivable_pt_lim_const | apply derivable_pt_lim_exp]. }
  assert (Hden : derivable_pt_lim den x
                   ((0 * (c + exp x) + 2 * (0 + exp x)) * (c + exp x)
                    + 2 * (c + exp x) * (0 + exp x))).
  { unfold den.
    apply (derivable_pt_lim_mult (fct_cte 2 * (fct_cte c + exp))%F
             (fct_cte c + exp)%F x
             (0 * (c + exp x) + 2 * (0 + exp x)) (0 + exp x)).
    - apply (derivable_pt_lim_mult (fct_cte 2) (fct_cte c + exp)%F x
               0 (0 + exp x)).
      + apply derivable_pt_lim_const.
      + exact Hsum.
    - exact Hsum. }
  assert (Hden0 : den x <> 0).
  { unfold den, mult_fct, plus_fct, fct_cte. nra. }
  pose proof (derivable_pt_lim_div num den x _ _ Hnum Hden Hden0) as Hquot.
  assert (Hlin : derivable_pt_lim (mult_real_fct 4 (id - fct_cte a)%F) x
                   (4 * (1 - 0))).
  { apply derivable_pt_lim_scal.
    apply derivable_pt_lim_minus;
      [apply derivable_pt_lim_id | apply derivable_pt_lim_const]. }
  pose proof (derivable_pt_lim_minus _ _ x _ _
                (derivable_pt_lim_opp _ x _ Hquot) Hlin) as Hall.
  replace (slope c q x)
    with (- (((exp x * (q + exp x) + exp x * (0 + exp x)) * den x
              - ((0 * (c + exp x) + 2 * (0 + exp x)) * (c + exp x)
                 + 2 * (c + exp x) * (0 + exp x)) * num x) / (den x)²)
          - 4 * (1 - 0)).
  - exact Hall.
  - unfold slope, first_term_slope, den, num, mult_fct, plus_fct, fct_cte,
      Rsqr.
    field. lra.
Qed.

(** The curve falls at least as fast as [-4 x]. *)
Lemma curve_falls (x y : R) :
  x <= y -> curve c q a y - curve c q a x <= - 4 * (y - x).
Proof.
  intro Hxy. unfold curve.
  assert (first_term c q (exp x) <= first_term c q (exp y)).
  { apply first_term_increasing; try assumption; [apply exp_pos|].
    destruct Hxy as [Hlt | ->];
      [left; now apply exp_increasing | right; reflexivity]. }
  lra.
Qed.

(** Below [ln (c / 2)] the curve is strictly concave: between two points of
    opposite sign it lies above the chord at the chord's root. *)
Lemma curve_above_chord (A B : R) :
  B < A -> exp A <= c / 2 ->
  curve c q a A < 0 < curve c q a B ->
  let C := secant_point A B (curve c q a A) (curve c q a B) in
  B < C < A /\ 0 < curve c q a C.
Proof.
  intros HBA HA [HfA HfB]. cbn zeta. unfold secant_point.
  set (fA := curve c q a A) in *. set (fB := curve c q a B) in *.
  set (C := A + (A - B) * fA / (fB - fA)).
  assert (Hden : 0 < fB - fA) by lra.
  assert (Hr : A - C = (A - B) * (- fA) / (fB - fA))
    by (unfold C; field; lra).
  assert (Hp : C - B = (A - B) * fB / (fB - fA))
    by (unfold C; field; lra).
  assert (Hr0 : 0 < A - C).
  { rewrite Hr. apply Rdiv_lt_0_compat; [|assumption].
    apply Rmult_lt_0_compat; lra. }
  assert (Hp0 : 0 < C - B).
  { rewrite Hp. apply Rdiv_lt_0_compat; [|assumption].
    apply Rmult_lt_0_compat; lra. }
  split; [lra|].
  destruct (MVT_cor2 (curve c q a) (slope c q) B C ltac:(lra)
              (fun x _ => curve_derivative x)) as (x1 & H1 & Hx1).
  destruct (MVT_cor2 (curve c q a) (slope c q) C A ltac:(lra)
              (fun x _ => curve_derivative x)) as (x2 & H2 & Hx2).
  fold fA in H2. fold fB in H1.
  assert (Hslope : slope c q x2 < slope c q x1).
  { unfold slope.
    assert (first_term_slope c q (exp x1) < first_term_slope c q (exp x2)).
    { apply first_term_slope_increasing; try assumption.
      - apply exp_pos.
      - apply exp_increasing. lra.
      - apply Rle_trans with (exp A); [|assumption].
        left. apply exp_increasing. lra. }
    lra. }
  assert (Hchord : fB * (A - C) + fA * (C - B) = 0).
  { rewrite Hr, Hp. field. lra. }
  assert (Hsum : curve c q a C * (A - B)
                 = (slope c q x1 - slope c q x2) * ((C - B) * (A - C))).
  { replace (curve c q a C * (A - B))
      with ((curve c q a C - fB) * (A - C)
            - (fA - curve c q a C) * (C - B)
            + (fB * (A - C) + fA * (C - B))) by ring.
    rewrite H1, H2, Hchord. ring. }
  assert (Hpos : 0 < (slope c q x1 - slope c q x2) * ((C - B) * (A - C))).
  { apply Rmult_lt_0_compat; [lra|]. now apply Rmult_lt_0_compat. }
  rewrite <- Hsum in Hpos.
  apply (Rmult_lt_reg_r (A - B)); [lra|]. lra.
Qed.

Lemma curve_continuous : continuity (curve c q a).
Proof.
  apply derivable_continuous. intro x.
  exists (slope c q x). apply curve_derivative.
Qed.

(** A sign change of the curve encloses a root. *)
Lemma curve_root (x y : R) :
  x <= y -> 0 <= curve c q a x -> curve c q a y <= 0 ->
  exists z, x <= z <= y /\ curve c q a z = 0.
Proof.
  intros Hxy Hx Hy.
  destruct (IVT_cor (curve c q a) x y curve_continuous Hxy) as (z & Hz).
  - assert (0 <= curve c q a x * - curve c q a y)
      by (apply Rmult_le_pos; lra).
    lra.
  - now exists z.
Qed.

End VolatilityCurve.

Section UnsurprisingResults.
Import Engine.
Import VolatilityReference.
Local Open Scope R_scope.

Variables c q a : R.
Hypothesis c_pos : 0 < c.
Hypothesis q_range : 0 <= q <= c.
Hypothesis a_small : exp a <= c / 250.

(** The first secant point: it lies within [Ga / 4] below [a], where the
    curve is positive and its first term is still more than half of [Ga],
    the first term at [a]. *)
Lemma first_secant_point :
  let Ga := first_term c q (exp a) in
  let C1 := secant_point a (a - kTau) (curve c q a a)
                         (curve c q a (a - kTau)) in
  0 < Ga <= 1 / 500
  /\ curve c q a a = - Ga
  /\ 0 < curve c q a (a - kTau)
  /\ 0 < a - C1 <= Ga / 4
  /\ 0 < curve c q a C1
  /\ curve c q a C1 = 4 * (a - C1) - first_term c q (exp C1)
  /\ (1 - 2 * (a - C1)) * Ga <= first_term c q (exp C1).
Proof.
  cbn zeta. pose proof (exp_pos a) as Hu.
  set (Ga := first_term c q (exp a)).
  set (GB := first_term c q (exp (a - kTau))).
  assert (HGa : 0 < Ga <= 1 / 500).
  { split; [now apply first_term_pos|].
    apply Rle_trans with (exp a / (2 * c)); [now apply first_term_le|].
    apply (Rmult_le_reg_r (2 * c)); [lra|].
    replace (exp a / (2 * c) * (2 * c)) with (exp a) by (field; lra).
    lra. }
  assert (HGB : 0 < GB <= Ga).
  { split; [apply first_term_pos; try assumption; apply exp_pos|].
    apply first_term_increasing; try assumption; [apply exp_pos|].
    left. apply exp_increasing. unfold kTau. lra. }
  assert (HfA : curve c q a a = - Ga) by (unfold curve; fold Ga; ring).
  assert (HfB : curve c q a (a - kTau) = 2 - GB)
    by (unfold curve, kTau; fold GB; unfold GB, kTau; field).
  split; [exact HGa|]. split; [exact HfA|]. split; [lra|].
  destruct (curve_above_chord c q a c_pos q_range a (a - kTau))
    as (HC & Hpos); [unfold kTau; lra | lra | lra |].
  set (C1 := secant_point a (a - kTau) (curve c q a a)
                          (curve c q a (a - kTau))) in *.
  assert (Hw : a - C1 = Ga / (2 * (2 - GB + Ga))).
  { unfold C1, secant_point. rewrite HfA, HfB. unfold kTau. field. lra. }
  assert (Hw4 : a - C1 <= Ga / 4).
  { rewrite Hw. apply (Rmult_le_reg_r (2 * (2 - GB + Ga))); [lra|].
    replace (Ga / (2 * (2 - GB + Ga)) * (2 * (2 - GB + Ga))) with Ga
      by (field; lra).
    nra. }
  split; [lra|]. split; [exact Hpos|]. split.
  - unfold curve. ring.
  - assert (Hs : 0 < exp (- (a - C1)) <= 1).
    { split; [apply exp_pos|].
      rewrite <- exp_0. left. apply exp_increasing. lra. }
    assert (Hs1 : 1 - (a - C1) <= exp (- (a - C1))).
    { pose proof (exp_ineq1_le (- (a - C1))). lra. }
    assert (HeC : exp C1 = exp (- (a - C1)) * exp a).
    { rewrite <- exp_plus. f_equal. ring. }
    rewrite HeC.
    eapply Rle_trans;
      [|apply (first_term_scaled c q c_pos q_range (exp a) _ Hu Hs)].
    fold Ga.
    apply Rmult_le_compat_r; [lra|].
    assert (0 <= 1 - (a - C1)) by lra.
    nra.
Qed.

(** The second point, computed with the halved value at [a]: it lies beyond
    the root, within the tolerance of the first point. *)
Lemma second_secant_point :
  let Ga := first_term c q (exp a) in
  let C1 := secant_point a (a - kTau) (curve c q a a)
                         (curve c q a (a - kTau)) in
  let C2 := secant_point a C1 (curve c q a a / 2) (curve c q a C1) in
  C1 < C2 < a
  /\ curve c q a C2 < 0
  /\ C2 - C1 <= kConvergence.
Proof.
  cbn zeta.
  destruct first_secant_point
    as (HGa & HfA & HfB & Hw & Hd & Hdef & HG1).
  set (Ga := first_term c q (exp a)) in *.
  set (C1 := secant_point a (a - kTau) (curve c q a a)
                          (curve c q a (a - kTau))) in *.
  set (d1 := curve c q a C1) in *.
  set (G1 := first_term c q (exp C1)) in *.
  set (w1 := a - C1) in *.
  set (C2 := secant_point a C1 (curve c q a a / 2) d1).
  assert (HD : 0 < d1 + Ga / 2) by lra.
  assert (Hgap : C2 - C1 = w1 * d1 / (d1 + Ga / 2)).
  { unfold C2, secant_point. rewrite HfA. fold w1.
    replace C1 with (a - w1) by (unfold w1; ring). field. lra. }
  assert (Hgap0 : 0 < C2 - C1).
  { rewrite Hgap. apply Rdiv_lt_0_compat; [|assumption].
    apply Rmult_lt_0_compat; lra. }
  assert (Hrest : a - C2 = w1 * (Ga / 2) / (d1 + Ga / 2)).
  { replace (a - C2) with (w1 - (C2 - C1)) by (unfold w1; ring).
    rewrite Hgap. field. lra. }
  assert (Hrest0 : 0 < a - C2).
  { rewrite Hrest. apply Rdiv_lt_0_compat; [|assumption].
    apply Rmult_lt_0_compat; lra. }
  split; [lra|].
  assert (Hhalf : Ga / 2 < G1).
  { assert (Hw' : w1 <= 1 / 2000) by lra.
    assert (0 < Ga) by lra.
    assert ((1 - 2 * (1 / 2000)) * Ga <= (1 - 2 * w1) * Ga)
      by (apply Rmult_le_compat_r; lra).
    lra. }
  assert (Hd2 : d1 <= 2 * w1 * Ga).
  { assert (4 * w1 <= Ga) by lra.
    replace ((1 - 2 * w1) * Ga) with (Ga - 2 * w1 * Ga) in HG1 by ring.
    lra. }
  split.
  - pose proof (curve_falls c q a c_pos q_range C1 C2 ltac:(lra)) as Hfall.
    fold d1 in Hfall.
    assert (Hneg : d1 + - 4 * (C2 - C1) < 0).
    { rewrite Hgap.
      replace (d1 + - 4 * (w1 * d1 / (d1 + Ga / 2)))
        with (d1 * (d1 + Ga / 2 - 4 * w1) / (d1 + Ga / 2)) by (field; lra).
      assert (Hn : d1 * (d1 + Ga / 2 - 4 * w1) < 0).
      { replace (d1 * (d1 + Ga / 2 - 4 * w1))
          with (- (d1 * (4 * w1 - d1 - Ga / 2))) by ring.
        apply Ropp_lt_gt_0_contravar.
        apply Rmult_lt_0_compat; lra. }
      assert (Hq : 0 < - (d1 * (d1 + Ga / 2 - 4 * w1)) / (d1 + Ga / 2))
        by (apply Rdiv_lt_0_compat; lra).
      replace (d1 * (d1 + Ga / 2 - 4 * w1) / (d1 + Ga / 2))
        with (- (- (d1 * (d1 + Ga / 2 - 4 * w1)) / (d1 + Ga / 2)))
        by (field; lra).
      lra. }
    lra.
  - rewrite Hgap. unfold kConvergence.
    apply (Rmult_le_reg_r (d1 + Ga / 2)); [assumption|].
    replace (w1 * d1 / (d1 + Ga / 2) * (d1 + Ga / 2)) with (w1 * d1)
      by (field; lra).
    assert (H1 : w1 * d1 <= w1 * (2 * w1 * Ga))
      by (apply Rmult_le_compat_l; lra).
    assert (H2 : w1 * w1 <= Ga / 4 * (Ga / 4))
      by (apply Rmult_le_compat; lra).
    assert (H3 : Ga * Ga <= 1 / 500 * Ga)
      by (apply Rmult_le_compat_r; lra).
    assert (H4 : w1 * (2 * w1 * Ga) = 2 * Ga * (w1 * w1)) by ring.
    assert (H5 : 2 * Ga * (w1 * w1) <= 2 * Ga * (Ga / 4 * (Ga / 4)))
      by (apply Rmult_le_compat_l; lra).
    assert (H6 : 2 * Ga * (Ga / 4 * (Ga / 4)) = Ga / 8 * (Ga * Ga))
      by field.
    assert (H7 : Ga / 8 * (Ga * Ga) <= Ga / 8 * (1 / 500 * Ga))
      by (apply Rmult_le_compat_l; lra).
    assert (H8 : Ga / 8 * (1 / 500 * Ga) = 1 / 4000 * (Ga * Ga)) by field.
    assert (H9 : 1 / 1000000 * (Ga / 2) <= 1 / 1000000 * (d1 + Ga / 2))
      by (apply Rmult_le_compat_l; lra).
    assert (H10 : 1 / 4000 * (Ga * Ga) <= 1 / 4000 * (1 / 500 * Ga))
      by (apply Rmult_le_compat_l; lra).
    lra.
Qed.

End UnsurprisingResults.

Section UnsurprisingUpdates.
Import Engine.
Import VolatilityReference.
Local Open Scope R_scope.

(** On an unsurprising result with a small volatility the Illinois loop
    leaves after one or two iterations, at [a] or at the first secant
    point. *)
Lemma UpdateVolatility_illinois_unsurprising
      (fuel : nat) (deltaSquared phiSquared v a : R) :
  0 <= deltaSquared <= phiSquared + v ->
  0 < phiSquared + v ->
  exp a <= (phiSquared + v) / 250 ->
  let f x := VolatilityFunction x deltaSquared phiSquared v a (kTau * kTau) in
  let C1 := secant_point a (a - kTau) (f a) (f (a - kTau)) in
  a - 1 / 2000 <= C1 < a
  /\ ((UpdateVolatility_illinois (S (S fuel)) a (a - kTau) (f a)
         (f (a - kTau)) deltaSquared phiSquared v a (kTau * kTau) = Some a
       /\ a - C1 <= kConvergence)
      \/ UpdateVolatility_illinois (S (S fuel)) a (a - kTau) (f a)
           (f (a - kTau)) deltaSquared phiSquared v a (kTau * kTau)
         = Some C1).
Proof.
  intros Hd Hc Ha. cbn beta zeta.
  set (c := phiSquared + v) in *. set (q := c - deltaSquared).
  assert (Hq : 0 <= q <= c) by (unfold q; lra).
  assert (Hf : forall x,
             VolatilityFunction x deltaSquared phiSquared v a (kTau * kTau)
             = curve c q a x)
    by (intro x; now apply VolatilityFunction_curve).
  rewrite !Hf.
  destruct (first_secant_point c q a Hc Hq Ha)
    as (HGa & HfA & HfB & Hw & Hd1 & _ & _).
  destruct (second_secant_point c q a Hc Hq Ha) as (HC2 & Hneg & Hgap).
  set (C1 := secant_point a (a - kTau) (curve c q a a)
                          (curve c q a (a - kTau))) in *.
  set (C2 := secant_point a C1 (curve c q a a / 2) (curve c q a C1)) in *.
  split; [lra|].
  cbn [UpdateVolatility_illinois].
  destruct (Rgt_dec (Rabs (a - kTau - a)) kConvergence) as [_ | Hn].
  2:{ exfalso. apply Hn.
      replace (a - kTau - a) with (- (1 / 2)) by (unfold kTau; field).
      rewrite Rabs_Ropp, Rabs_right by lra. unfold kConvergence. lra. }
  rewrite !Hf.
  change (a + (a - (a - kTau)) * curve c q a a
              / (curve c q a (a - kTau) - curve c q a a)) with C1.
  destruct (Rlt_dec (curve c q a C1 * curve c q a (a - kTau)) 0)
    as [Hlt | _].
  { exfalso.
    assert (0 < curve c q a C1 * curve c q a (a - kTau))
      by (now apply Rmult_lt_0_compat).
    lra. }
  destruct (Rgt_dec (Rabs (C1 - a)) kConvergence) as [_ | Hnear].
  2:{ left. split; [reflexivity|].
      replace (C1 - a) with (- (a - C1)) in Hnear by ring.
      rewrite Rabs_Ropp, Rabs_right in Hnear by lra. lra. }
  right. rewrite ?Hf.
  change (a + (a - C1) * (curve c q a a / 2)
              / (curve c q a C1 - curve c q a a / 2)) with C2.
  destruct (Rlt_dec (curve c q a C2 * curve c q a C1) 0) as [_ | Hn].
  2:{ exfalso. apply Hn.
      assert (0 < - curve c q a C2 * curve c q a C1)
        by (apply Rmult_lt_0_compat; lra).
      lra. }
  apply UpdateVolatility_illinois_converged.
  rewrite Rabs_right by lra. exact Hgap.
Qed.

(** [UpdateVolatility] returns on every unsurprising result
    ([delta^2 <= phi^2 + v]) when [sigma^2 <= (phi^2 + v) / 250]: the
    bracket search needs no iteration and the Illinois loop at most two; the
    value returned is [exp (A' / 2)] for a point [A'] within the tolerance
    of a root of [VolatilityFunction], and it is not above the old
    volatility and not more than 0.025 per cent below it. *)
Lemma UpdateVolatility_unsurprising (fuel : nat) (sigma phi delta v : R) :
  0 < v ->
  0 < sigma ->
  delta * delta <= phi * phi + v ->
  sigma * sigma <= (phi * phi + v) / 250 ->
  exists A' root,
    UpdateVolatility (S (S fuel)) sigma phi delta v = Some (exp (A' / 2))
    /\ VolatilityFunction root (delta * delta) (phi * phi) v
         (ln (sigma * sigma)) (kTau * kTau) = 0
    /\ Rabs (A' - root) <= kConvergence
    /\ sigma * (1 - 1 / 4000) <= exp (A' / 2) <= sigma.
Proof.
  intros Hv Hs Hle Hsmall.
  destruct (UpdateVolatility_bracket_search (S (S fuel)) sigma phi delta v
              Hv Hle) as (_ & Hret).
  cbn zeta in Hret.
  assert (Hss : 0 < sigma * sigma) by (now apply Rmult_lt_0_compat).
  assert (Hexp : exp (ln (sigma * sigma)) = sigma * sigma)
    by (now apply exp_ln).
  set (a := ln (sigma * sigma)) in *.
  assert (Hhalf : exp (a / 2) = sigma).
  { assert (H2 : exp (a / 2) * exp (a / 2) = sigma * sigma).
    { rewrite <- exp_plus. replace (a / 2 + a / 2) with a by field.
      exact Hexp. }
    pose proof (exp_pos (a / 2)) as He. nra. }
  set (c := phi * phi + v) in *. set (q := c - delta * delta).
  assert (Hc : 0 < c) by (unfold c; nra).
  assert (Hd : 0 <= delta * delta <= c) by (split; [nra | assumption]).
  assert (Hq : 0 <= q <= c) by (unfold q; lra).
  assert (Ha : exp a <= c / 250) by (now rewrite Hexp).
  assert (Hf : forall x,
             VolatilityFunction x (delta * delta) (phi * phi) v a
                                (kTau * kTau)
             = curve c q a x)
    by (intro x; now apply VolatilityFunction_curve).
  destruct (UpdateVolatility_illinois_unsurprising fuel
              (delta * delta) (phi * phi) v a Hd Hc Ha)
    as (HC1 & Hrun).
  cbn beta zeta in HC1, Hrun. rewrite !Hf in HC1, Hrun.
  destruct (first_secant_point c q a Hc Hq Ha)
    as (HGa & HfA & HfB & Hw & Hd1 & _ & _).
  destruct (second_secant_point c q a Hc Hq Ha) as (HC2 & Hneg & Hgap).
  set (C1 := secant_point a (a - kTau) (curve c q a a)
                          (curve c q a (a - kTau))) in *.
  set (C2 := secant_point a C1 (curve c q a a / 2) (curve c q a C1)) in *.
  assert (Hbounds : forall A', a - 1 / 2000 <= A' <= a ->
            sigma * (1 - 1 / 4000) <= exp (A' / 2) <= sigma).
  { intros A' HA'.
    assert (HeA : exp (A' / 2) = exp ((A' - a) / 2) * sigma).
    { rewrite <- Hhalf, <- exp_plus. f_equal. field. }
    rewrite HeA.
    assert (Hup : exp ((A' - a) / 2) <= 1).
    { rewrite <- exp_0. destruct (Req_dec A' a) as [-> | Hne].
      - right. f_equal. field.
      - left. apply exp_increasing. lra. }
    assert (Hlow : 1 + (A' - a) / 2 <= exp ((A' - a) / 2))
      by apply exp_ineq1_le.
    split.
    - replace (sigma * (1 - 1 / 4000)) with ((1 - 1 / 4000) * sigma) by ring.
      apply Rmult_le_compat_r; lra.
    - replace sigma with (1 * sigma) at 2 by ring.
      apply Rmult_le_compat_r; lra. }
  rewrite ?Hf in Hret. rewrite Hret.
  destruct Hrun as [[Hrun Hnear] | Hrun]; rewrite Hrun.
  - destruct (curve_root c q a Hc Hq C1 a) as (root & Hroot & Hzero);
      [lra | lra | lra |].
    exists a, root. split; [reflexivity|]. split; [now rewrite Hf|].
    split; [|apply Hbounds; lra].
    rewrite Rabs_right by lra. lra.
  - destruct (curve_root c q a Hc Hq C1 C2) as (root & Hroot & Hzero);
      [lra | lra | lra |].
    exists C1, root. split; [reflexivity|]. split; [now rewrite Hf|].
    split; [|apply Hbounds; lra].
    replace (C1 - root) with (- (root - C1)) by ring.
    rewrite Rabs_Ropp, Rabs_right by lra. lra.
Qed.



(** X29.  On an unsurprising result ([delta^2 <= phi^2 + v]) with a
    volatility whose square is at most [(phi^2 + v) / 250],
    [UpdateVolatility] returns once it has fuel for two iterations of the
    Illinois loop; the bracket search needs none.  The value returned is
    [exp (A' / 2)] for a point [A'] within [kConvergence] of a root of
    [VolatilityFunction]; it is not above the old volatility and at most
    0.025 per cent below it. *)
Theorem UpdateVolatility_returns_near_root :
  forall fuel sigma phi delta v,
    0 < v ->
    0 < sigma ->
    delta * delta <= phi * phi + v ->
    sigma * sigma <= (phi * phi + v) / 250 ->
    exists A' root,
      UpdateVolatility (S (S fuel)) sigma phi delta v = Some (exp (A' / 2))
      /\ VolatilityFunction root (delta * delta) (phi * phi) v
           (ln (sigma * sigma)) (kTau * kTau) = 0
      /\ Rabs (A' - root) <= kConvergence
      /\ sigma * (1 - 1 / 4000) <= exp (A' / 2) <= sigma.
Proof.
  intros fuel sigma phi delta v. apply UpdateVolatility_unsurprising.
Qed.

Lemma UpdateVolatility_returns_near_root_witness :
  exists A' root,
    UpdateVolatility 2 (6 / 100) 2 (5 / 2) (25 / 6) = Some (exp (A' / 2))
    /\ VolatilityFunction root (5 / 2 * (5 / 2)) (2 * 2) (25 / 6)
         (ln (6 / 100 * (6 / 100))) (kTau * kTau) = 0
    /\ Rabs (A' - root) <= kConvergence
    /\ 6 / 100 * (1 - 1 / 4000) <= exp (A' / 2) <= 6 / 100.
Proof.
  apply (UpdateVolatility_returns_near_root 0 (6 / 100) 2 (5 / 2) (25 / 6));
    lra.
Defined.

End UnsurprisingUpdates.

Section MeanUpdate.
Import Engine.
Local Open Scope R_scope.








End MeanUpdate.
